(** * OpenClaw credential access control: secrets resolver, Ganesh vault
      backend, pass backend and command policy gate

    A shallow embedding of
      - src/secrets/types.ts             (module [Types])
      - src/secrets/backends/pass.ts     (module [PassBackend])
      - src/secrets/resolver.ts          (module [Resolver])
      - src/secrets/backends/ganesh.ts   (modules [Totp] and [Ganesh], over
                                          the HMAC-SHA1 of [Crypto])
      - src/infra/ganesh-policy-gate.ts  (module [PolicyGate])
    and a few concrete worlds to run them in (module [Scenario]), followed
    by the properties proved about them, one pair of modules per source
    file: [...Facts] for the lemmas, [...Spec] for the statements.

    Conventions.
    - A JavaScript string is a [string] whose characters are UTF-16 code
      units in the range 0..255.
    - [Date.now()] and [new Date()] are readings of a clock, in
      milliseconds, supplied by the environment of each call.
    - Code that can throw lives in the [Completion] monad; [try_catch] is
      the [try { } catch { }] statement.
    - The file system, child processes, the regular-expression engine for
      user-supplied patterns and the Telegram API are the environment: each
      call receives a record describing how they answer. *)

From Stdlib Require Import ZArith Ascii String List Lia Bool.
From stdpp Require Import base option list gmap strings.

Set Warnings "-register-all".

Local Open Scope Z_scope.

(* ====================================================================== *)
(** * JavaScript prelude                                                   *)
(* ====================================================================== *)

Module Js.

(** What a [throw] carries: an [Error] object with its [message], or any
    other value, of which only [String(value)] is ever observed. *)
Inductive Thrown : Type :=
| ErrorObject (message : string)
| OtherValue (shown : string).

Inductive Completion (A : Type) : Type :=
| Normal (a : A)
| Throw (e : Thrown).
Arguments Normal {A} a.
Arguments Throw {A} e.

Definition bind {A B} (c : Completion A) (k : A -> Completion B) : Completion B :=
  match c with
  | Normal a => k a
  | Throw e => Throw e
  end.

Definition try_catch {A} (body : Completion A) (handler : Thrown -> Completion A)
  : Completion A :=
  match body with
  | Normal a => Normal a
  | Throw e => handler e
  end.

(** [error instanceof Error ? error.message : String(error)] *)
Definition error_message (e : Thrown) : string :=
  match e with
  | ErrorObject m => m
  | OtherValue s => s
  end.

(** [`${err}`] for a caught value; an [Error] prints as [Error: message]. *)
Definition error_to_string (e : Thrown) : string :=
  match e with
  | ErrorObject m => String.append "Error: " m
  | OtherValue s => s
  end.

Definition code (c : ascii) : Z := Z.of_N (N_of_ascii c).

Definition in_range (lo hi : Z) (c : ascii) : bool :=
  (lo <=? code c) && (code c <=? hi).

Definition is_upper (c : ascii) : bool := in_range 65 90 c.
Definition is_lower (c : ascii) : bool := in_range 97 122 c.
Definition is_digit (c : ascii) : bool := in_range 48 57 c.

(** [\w] *)
Definition is_word (c : ascii) : bool :=
  is_upper c || is_lower c || is_digit c || (code c =? 95).

(** The characters [.] refuses (code units below 256). *)
Definition is_line_terminator (c : ascii) : bool :=
  (code c =? 10) || (code c =? 13).

(** [\s], and what [trim] strips (code units below 256). *)
Definition is_space (c : ascii) : bool :=
  in_range 9 13 c || (code c =? 32) || (code c =? 160).

Fixpoint all_chars (p : ascii -> bool) (s : string) : bool :=
  match s with
  | EmptyString => true
  | String c s' => p c && all_chars p s'
  end.

Fixpoint filter_chars (p : ascii -> bool) (s : string) : string :=
  match s with
  | EmptyString => EmptyString
  | String c s' => if p c then String c (filter_chars p s') else filter_chars p s'
  end.

Fixpoint map_chars (f : ascii -> ascii) (s : string) : string :=
  match s with
  | EmptyString => EmptyString
  | String c s' => String (f c) (map_chars f s')
  end.

Definition is_empty (s : string) : bool :=
  match s with
  | EmptyString => true
  | String _ _ => false
  end.

(** [a || b] on strings: the empty string is falsy. *)
Definition or_else (a b : string) : string := if is_empty a then b else a.

(** [a || b] where [a] may be [undefined]. *)
Definition opt_or_else (a : option string) (b : string) : string :=
  match a with
  | Some s => or_else s b
  | None => b
  end.

Fixpoint starts_with (p s : string) : bool :=
  match p, s with
  | EmptyString, _ => true
  | String a p', String b s' => Ascii.eqb a b && starts_with p' s'
  | String _ _, EmptyString => false
  end.

(** The rest of [s] after the prefix [p], when [s] starts with [p]. *)
Fixpoint strip_prefix (p s : string) : option string :=
  match p, s with
  | EmptyString, _ => Some s
  | String a p', String b s' => if Ascii.eqb a b then strip_prefix p' s' else None
  | String _ _, EmptyString => None
  end.

(** [s.includes(sub)] *)
Fixpoint includes (s sub : string) : bool :=
  starts_with sub s ||
  match s with
  | EmptyString => false
  | String _ s' => includes s' sub
  end.

Fixpoint drop_while (p : ascii -> bool) (s : string) : string :=
  match s with
  | EmptyString => EmptyString
  | String c s' => if p c then drop_while p s' else s
  end.

Fixpoint take_while (p : ascii -> bool) (s : string) : string :=
  match s with
  | EmptyString => EmptyString
  | String c s' => if p c then String c (take_while p s') else EmptyString
  end.

(** Strip trailing characters satisfying [p]. *)
Fixpoint drop_while_end (p : ascii -> bool) (s : string) : string :=
  match s with
  | EmptyString => EmptyString
  | String c s' =>
      match drop_while_end p s' with
      | EmptyString => if p c then EmptyString else String c EmptyString
      | rest => String c rest
      end
  end.

(** [s.trim()] *)
Definition trim (s : string) : string :=
  drop_while_end is_space (drop_while is_space s).

Definition not_lf (c : ascii) : bool := negb (code c =? 10).

(** [s.split("\n")[0]]: the text before the first line feed. *)
Definition first_line (s : string) : string := take_while not_lf s.

(** [s.toLowerCase()] on code units below 256. *)
Definition lower_char (c : ascii) : ascii :=
  if is_upper c || (in_range 192 222 c && negb (code c =? 215))
  then ascii_of_N (N_of_ascii c + 32) else c.

Definition toLowerCase (s : string) : string := map_chars lower_char s.

(** [s.slice(0, n)] for [0 <= n]. *)
Fixpoint take (n : nat) (s : string) : string :=
  match n, s with
  | O, _ => EmptyString
  | S n', String c s' => String c (take n' s')
  | S _, EmptyString => EmptyString
  end.

(** The line feed. *)
Definition lf : string := String (ascii_of_N 10) EmptyString.

(** The double quote character, and a string between double quotes. *)
Definition dquote : string := String (ascii_of_N 34) EmptyString.

Definition quoted (s : string) : string :=
  String.append dquote (String.append s dquote).

End Js.

#[global] Instance completion_ret : MRet Js.Completion := @Js.Normal.
#[global] Instance completion_bind : MBind Js.Completion :=
  fun A B k c => Js.bind c k.

Import Js.

Local Open Scope string_scope.

(* ====================================================================== *)
(** * src/secrets/types.ts                                                 *)
(* ====================================================================== *)

Module Types.

(** [PassBackendConfig] *)
Record PassBackendConfig : Type := {
  cfg_storePath : option string;
  cfg_gpgPath : option string
}.

(** [SecretsBackendConfig]. [backend] is a [SecretsBackendType] in the
    type declarations and any string at run time. The [vault], [keyring]
    and [ganesh] option blocks are never read by the resolver. *)
Record SecretsBackendConfig : Type := {
  cfg_backend : string;
  cfg_pass : option PassBackendConfig
}.

(** [SecretRef] *)
Record SecretRef : Type := {
  backend : string;
  path : string;
  field : option string
}.

(** [SecretResolutionResult]; [None] is an absent key. *)
Record SecretResolutionResult : Type := {
  ok : bool;
  value : option string;
  error : option string;
  cached : option bool
}.

(** What the child process of an [execAsync] call sees beyond
    [process.env]. *)
Record ExecEnv : Type := {
  PASSWORD_STORE_DIR : string;
  PASSWORD_STORE_GPG_OPTS : option string
}.

Record ExecRequest : Type := {
  command : string;
  exec_env : option ExecEnv;
  timeout : option Z
}.

(** How the world outside the process answers during one call. *)
Record World : Type := {
  (** [process.env.PASSWORD_STORE_DIR] *)
  env_PASSWORD_STORE_DIR : option string;
  (** [os.homedir()] *)
  homedir : string;
  (** [path.join] *)
  path_join : string -> string -> string;
  (** [fs.existsSync] *)
  existsSync : string -> bool;
  (** [execAsync]: the standard output, or the rejection. *)
  exec : ExecRequest -> Completion string
}.

(** The [SecretsBackend] interface, as far as the resolver calls it. Each
    method returns its completion and what it printed on the console. *)
Record SecretsBackend : Type := {
  name : string;
  isAvailable : World -> Completion bool;
  resolve : World -> string -> option string -> Completion (option string) * list string
}.

End Types.

Import Types.

(* ====================================================================== *)
(** * src/secrets/backends/pass.ts                                         *)
(* ====================================================================== *)

Module PassBackend.

Record t : Type := {
  config : PassBackendConfig;
  storePath : string
}.

(** [constructor(config = {})] *)
Definition new (w : World) (config : option PassBackendConfig) : t :=
  let config := default {| cfg_storePath := None; cfg_gpgPath := None |} config in
  {| config := config;
     storePath :=
       opt_or_else (cfg_storePath config)
         (opt_or_else (env_PASSWORD_STORE_DIR w)
            (path_join w (homedir w) ".password-store")) |}.

(** [isAvailable()] *)
Definition isAvailable (this : t) (w : World) : Completion bool :=
  try_catch
    (_ ← exec w {| command := "which pass"; exec_env := None; timeout := None |};
     if negb (existsSync w (storePath this)) then Normal false
     else
       let gpgIdPath := path_join w (storePath this) ".gpg-id" in
       if negb (existsSync w gpgIdPath) then Normal false
       else Normal true)
    (fun _ => Normal false).

(** [/[^a-zA-Z0-9_\-/]/g]: the characters kept by the sanitizer. *)
Definition allowed_path_char (c : ascii) : bool :=
  is_lower c || is_upper c || is_digit c ||
  (code c =? 95)%Z || (code c =? 45)%Z || (code c =? 47)%Z.

Definition sanitize (secretPath : string) : string :=
  filter_chars allowed_path_char secretPath.

(** The [env] object handed to [pass]. A [gpgPath] that is the empty
    string is falsy and sets nothing. *)
Definition exec_env_of (this : t) : ExecEnv :=
  {| PASSWORD_STORE_DIR := storePath this;
     PASSWORD_STORE_GPG_OPTS :=
       match cfg_gpgPath (config this) with
       | Some g => if is_empty g then None else Some ("--gpg " +:+ g)
       | None => None
       end |}.

(** The console line printed when the sanitizer changed the path. *)
Definition sanitize_warning (secretPath : string) : list string :=
  let sanitizedPath := sanitize secretPath in
  if String.eqb sanitizedPath secretPath then []
  else ["[secrets:pass] Path sanitized: " +:+ quoted secretPath +:+ " -> "
          +:+ quoted sanitizedPath].

(** The command line, environment and timeout handed to [execAsync]. *)
Definition show_request (this : t) (secretPath : string) : ExecRequest :=
  {| command := "pass show " +:+ quoted (sanitize secretPath);
     exec_env := Some (exec_env_of this);
     timeout := Some 10000%Z |}.

(** [resolve(secretPath, _field)]: the completion and the console lines. *)
Definition resolve (this : t) (w : World) (secretPath : string) (_field : option string)
  : Completion (option string) * list string :=
  let warned := sanitize_warning secretPath in
  match exec w (show_request this secretPath) with
  | Normal stdout =>
      let value := trim (first_line stdout) in
      (Normal (if is_empty value then None else Some value), warned)
  | Throw error =>
      let message := error_message error in
      if includes message "not in the password store"
      then (Normal None, warned)
      else (Normal None,
            (warned ++ ["[secrets:pass] Failed to resolve " +:+ quoted secretPath
                          +:+ ": " +:+ message])%list)
  end.

(** The object seen through the [SecretsBackend] interface. *)
Definition as_backend (this : t) : SecretsBackend :=
  {| Types.name := "pass";
     Types.isAvailable := isAvailable this;
     Types.resolve := resolve this |}.

End PassBackend.

(* ====================================================================== *)
(** * src/secrets/resolver.ts                                              *)
(* ====================================================================== *)

Module Resolver.

Record CacheEntry : Type := {
  entry_value : string;
  resolvedAt : Z
}.

(** The module-level variables [secretsCache] and [backendInstances]. *)
Record State : Type := {
  secretsCache : gmap string CacheEntry;
  backendInstances : gmap string SecretsBackend
}.

Definition initial : State :=
  {| secretsCache := ∅; backendInstances := ∅ |}.

(** Cache TTL in milliseconds (5 minutes). *)
Definition CACHE_TTL_MS : Z := 5 * 60 * 1000.

(** [.+]: one or more characters, none a line terminator. *)
Definition dot_plus (s : string) : bool :=
  negb (is_empty s) && all_chars (fun c => negb (is_line_terminator c)) s.

(** [\w+] *)
Definition word_plus (s : string) : bool :=
  negb (is_empty s) && all_chars is_word s.

(** The alternatives of the prefix pattern, in the order written. *)
Definition prefixes : list string := ["pass"; "vault"; "keyring"; "env"; "file"].

Fixpoint try_prefixes (alts : list string) (ref : string) : option (string * string) :=
  match alts with
  | [] => None
  | b :: alts' =>
      match strip_prefix (b +:+ ":") ref with
      | Some rest => if dot_plus rest then Some (b, rest) else try_prefixes alts' ref
      | None => try_prefixes alts' ref
      end
  end.

(** [ref.match(/^(pass|vault|keyring|env|file):(.+)$/)]: groups 1 and 2. *)
Definition prefixMatch (ref : string) : option (string * string) :=
  try_prefixes prefixes ref.

(** The text before and after the last [#] of a string. *)
Fixpoint split_last_hash (s : string) : option (string * string) :=
  match s with
  | EmptyString => None
  | String c s' =>
      match split_last_hash s' with
      | Some (before, after) => Some (String c before, after)
      | None => if (code c =? 35)%Z then Some (EmptyString, s') else None
      end
  end.

(** A string in which [#] does not occur. *)
Definition no_hash (s : string) : bool :=
  all_chars (fun c => negb (code c =? 35)%Z) s.

(** [pathWithField.match(/^(.+)#(\w+)$/)]: groups 1 and 2. Group 2 runs to
    the end of the string and has no [#] in it, so the [#] of the pattern
    is the last one of the string. *)
Definition fieldMatch (pathWithField : string) : option (string * string) :=
  match split_last_hash pathWithField with
  | Some (before, after) =>
      if dot_plus before && word_plus after then Some (before, after) else None
  | None => None
  end.

(** [parseSecretRef(ref, defaultBackend = "file")] *)
Definition parseSecretRef (ref : string) (defaultBackend : string) : SecretRef :=
  let '(backend, pathWithField) :=
    match prefixMatch ref with
    | Some (b, rest) => (b, rest)
    | None => (defaultBackend, ref)
    end in
  match fieldMatch pathWithField with
  | Some (p, f) => {| backend := backend; path := p; field := Some f |}
  | None => {| backend := backend; path := pathWithField; field := None |}
  end.

(** [isSecretRef(value)] for a string. *)
Definition isSecretRef (value : string) : bool :=
  existsb (fun b => starts_with (b +:+ ":") value) ["pass"; "vault"; "keyring"; "env"].

(** [createBackend(config)] *)
Definition createBackend (w : World) (config : SecretsBackendConfig)
  : Completion SecretsBackend :=
  let b := cfg_backend config in
  if String.eqb b "pass" then
    Normal (PassBackend.as_backend (PassBackend.new w (cfg_pass config)))
  else if String.eqb b "vault" then
    Throw (ErrorObject "Vault backend not yet implemented")
  else if String.eqb b "keyring" then
    Throw (ErrorObject "Keyring backend not yet implemented")
  else if String.eqb b "env" then
    Throw (ErrorObject "Env backend not yet implemented")
  else if String.eqb b "file" then
    Throw (ErrorObject "File backend does not support resolution")
  else
    Throw (ErrorObject ("Unknown secrets backend: " +:+ b)).

(** [getBackend(type, config)] *)
Definition getBackend (st : State) (w : World) (type : string)
    (config : option SecretsBackendConfig) : Completion SecretsBackend * State :=
  match backendInstances st !! type with
  | Some backend => (Normal backend, st)
  | None =>
      let backendConfig :=
        default {| cfg_backend := type; cfg_pass := None |} config in
      match createBackend w backendConfig with
      | Normal backend =>
          (Normal backend,
           {| secretsCache := secretsCache st;
              backendInstances := <[type := backend]> (backendInstances st) |})
      | Throw e => (Throw e, st)
      end
  end.

(** The clock readings and the outside world of one [resolveSecret] call. *)
Record Env : Type := {
  now_check : Z;
  now_store : Z;
  world : World
}.

(** The calls made on backend objects, in order. *)
Inductive BackendCall : Type :=
| CallIsAvailable (type : string)
| CallResolve (type : string) (path : string) (field : option string).

Definition failure (msg : string) : SecretResolutionResult :=
  {| ok := false; value := None; error := Some msg; cached := None |}.

(** [config?.backend || "pass"] *)
Definition default_backend (config : option SecretsBackendConfig) : string :=
  match config with
  | Some c => or_else (cfg_backend c) "pass"
  | None => "pass"
  end.

(** The body of the [try] block of [resolveSecret]. *)
Definition resolveSecret_try (st : State) (env : Env) (ref : string)
    (config : option SecretsBackendConfig)
  : Completion SecretResolutionResult * State * list BackendCall :=
  let cacheKey := ref in
  let parsed := parseSecretRef ref (default_backend config) in
  match getBackend st (world env) (backend parsed) config with
  | (Throw e, st1) => (Throw e, st1, [])
  | (Normal backend, st1) =>
      let call1 := CallIsAvailable (Types.backend parsed) in
      match isAvailable backend (world env) with
      | Throw e => (Throw e, st1, [call1])
      | Normal available =>
          if negb available then
            (Normal (failure ("Backend " +:+ quoted (Types.backend parsed)
                                +:+ " is not available")),
             st1, [call1])
          else
            let call2 := CallResolve (Types.backend parsed) (path parsed) (field parsed) in
            match fst (resolve backend (world env) (path parsed) (field parsed)) with
            | Throw e => (Throw e, st1, [call1; call2])
            | Normal None =>
                (Normal (failure ("Secret not found: " +:+ ref)), st1, [call1; call2])
            | Normal (Some v) =>
                (Normal {| ok := true; value := Some v; error := None; cached := None |},
                 {| secretsCache :=
                      <[cacheKey := {| entry_value := v; resolvedAt := now_store env |}]>
                        (secretsCache st1);
                    backendInstances := backendInstances st1 |},
                 [call1; call2])
            end
      end
  end.

(** [resolveSecret(ref, config)]: how the promise settles, the module
    state afterwards, and the backend calls made. *)
Definition resolveSecret (st : State) (env : Env) (ref : string)
    (config : option SecretsBackendConfig)
  : Completion SecretResolutionResult * State * list BackendCall :=
  let cacheKey := ref in
  let fresh :=
    match secretsCache st !! cacheKey with
    | Some cached =>
        if (now_check env - resolvedAt cached <? CACHE_TTL_MS)%Z
        then Some cached else None
    | None => None
    end in
  match fresh with
  | Some cached =>
      (Normal {| ok := true; value := Some (entry_value cached);
                 error := None; cached := Some true |},
       st, [])
  | None =>
      let '(outcome, st1, calls) := resolveSecret_try st env ref config in
      (try_catch outcome (fun error => Normal (failure (error_message error))),
       st1, calls)
  end.

(** [clearSecretsCache()] *)
Definition clearSecretsCache (st : State) : State :=
  {| secretsCache := ∅; backendInstances := backendInstances st |}.

End Resolver.

(* ====================================================================== *)
(** * node:crypto, as far as ganesh.ts uses it: HMAC-SHA1                  *)
(* ====================================================================== *)

Module Crypto.

Local Close Scope string_scope.
Local Open Scope Z_scope.

(** Bytes are integers in 0..255, words are integers in 0..2^32-1. *)
Definition mask32 (x : Z) : Z := Z.land x 4294967295.

Definition add32 (a b : Z) : Z := mask32 (a + b).

Definition rotl (n : Z) (x : Z) : Z :=
  mask32 (Z.lor (Z.shiftl x n) (Z.shiftr x (32 - n))).

Definition not32 (x : Z) : Z := Z.lxor x 4294967295.

(** The big-endian bytes of the low [8 * n] bits of [x]. *)
Fixpoint be_bytes (n : nat) (x : Z) : list Z :=
  match n with
  | O => []
  | S n' => Z.land (Z.shiftr x (8 * Z.of_nat n')) 255 :: be_bytes n' x
  end.

Fixpoint words_of_bytes (fuel : nat) (bs : list Z) : list Z :=
  match fuel, bs with
  | S fuel', a :: b :: c :: d :: rest =>
      Z.lor (Z.shiftl a 24) (Z.lor (Z.shiftl b 16) (Z.lor (Z.shiftl c 8) d))
        :: words_of_bytes fuel' rest
  | _, _ => []
  end.

(** The message followed by the bit 1, zeros and its length in bits, a
    multiple of 64 bytes long. *)
Definition sha1_pad (msg : list Z) : list Z :=
  let len := Z.of_nat (List.length msg) in
  let zeros := Z.to_nat ((55 - len) mod 64) in
  msg ++ [128] ++ repeat 0 zeros ++ be_bytes 8 (8 * len).

(** The message schedule, most recent word first. *)
Fixpoint schedule (n : nat) (rw : list Z) : list Z :=
  match n with
  | O => rw
  | S n' =>
      let w := rotl 1 (Z.lxor (Z.lxor (nth 2 rw 0) (nth 7 rw 0))
                              (Z.lxor (nth 13 rw 0) (nth 15 rw 0))) in
      schedule n' (w :: rw)
  end.

Definition sha1_f (t : Z) (b c d : Z) : Z :=
  if t <? 20 then Z.lor (Z.land b c) (Z.land (not32 b) d)
  else if t <? 40 then Z.lxor (Z.lxor b c) d
  else if t <? 60 then Z.lor (Z.lor (Z.land b c) (Z.land b d)) (Z.land c d)
  else Z.lxor (Z.lxor b c) d.

Definition sha1_k (t : Z) : Z :=
  if t <? 20 then 1518500249
  else if t <? 40 then 1859775393
  else if t <? 60 then 2400959708
  else 3395469782.

Record Digest : Type := { h0 : Z; h1 : Z; h2 : Z; h3 : Z; h4 : Z }.

Fixpoint sha1_rounds (t : Z) (ws : list Z) (s : Digest) : Digest :=
  match ws with
  | [] => s
  | w :: ws' =>
      let temp :=
        add32 (add32 (add32 (add32 (rotl 5 (h0 s)) (sha1_f t (h1 s) (h2 s) (h3 s)))
                            (h4 s)) (sha1_k t)) w in
      sha1_rounds (t + 1) ws'
        {| h0 := temp; h1 := h0 s; h2 := rotl 30 (h1 s); h3 := h2 s; h4 := h3 s |}
  end.

Definition sha1_block (s : Digest) (block : list Z) : Digest :=
  let ws := rev (schedule 64 (rev (words_of_bytes 16 block))) in
  let r := sha1_rounds 0 ws s in
  {| h0 := add32 (h0 s) (h0 r); h1 := add32 (h1 s) (h1 r);
     h2 := add32 (h2 s) (h2 r); h3 := add32 (h3 s) (h3 r);
     h4 := add32 (h4 s) (h4 r) |}.

Fixpoint sha1_blocks (fuel : nat) (s : Digest) (bs : list Z) : Digest :=
  match fuel, bs with
  | S fuel', _ :: _ => sha1_blocks fuel' (sha1_block s (firstn 64 bs)) (skipn 64 bs)
  | _, _ => s
  end.

Definition sha1_init : Digest :=
  {| h0 := 1732584193; h1 := 4023233417; h2 := 2562383102;
     h3 := 271733878; h4 := 3285377520 |}.

(** SHA-1 of a byte string: 20 bytes. *)
Definition sha1 (msg : list Z) : list Z :=
  let padded := sha1_pad msg in
  let d := sha1_blocks (List.length padded) sha1_init padded in
  be_bytes 4 (h0 d) ++ be_bytes 4 (h1 d) ++ be_bytes 4 (h2 d)
    ++ be_bytes 4 (h3 d) ++ be_bytes 4 (h4 d).

(** [createHmac("sha1", key).update(msg).digest()] *)
Definition hmac_sha1 (key msg : list Z) : list Z :=
  let key := if 64 <? Z.of_nat (List.length key) then sha1 key else key in
  let key := key ++ repeat 0 (64 - List.length key)%nat in
  let inner := sha1 (map (Z.lxor 54) key ++ msg) in
  sha1 (map (Z.lxor 92) key ++ inner).

End Crypto.

(* ====================================================================== *)
(** * src/secrets/backends/ganesh.ts: one-time codes (RFC 6238)            *)
(* ====================================================================== *)

Module Totp.

Local Close Scope string_scope.
Local Open Scope Z_scope.

(** [Math.floor(time / 1000 / 30)]; for an integer [time] below 2^52 in
    absolute value the two double divisions are exact enough for the floor
    to be the integer quotient. *)
Definition counter_of (time : Z) : Z := time / 30000.

(** The code units of [c.toUpperCase()] that can survive the filter
    [/[^A-Z2-7]/g]: a lower-case ASCII letter becomes its capital, the
    sharp s (223) becomes two capital S, and every other code unit of
    128 or more stays at 128 or more. *)
Definition upper_units (c : ascii) : string :=
  if is_lower c then String (ascii_of_N (N_of_ascii c - 32)) EmptyString
  else if code c =? 223 then "SS"%string
  else String c EmptyString.

Fixpoint toUpperCase (s : string) : string :=
  match s with
  | EmptyString => EmptyString
  | String c s' => String.append (upper_units c) (toUpperCase s')
  end.

Definition is_base32 (c : ascii) : bool := is_upper c || in_range 50 55 c.

(** [base32Chars.indexOf(char)] for a character that passed the filter. *)
Definition base32_index (c : ascii) : Z :=
  if is_upper c then code c - 65 else code c - 50 + 26.

(** [n.toString(2).padStart(5, "0")], as bits, most significant first. *)
Definition bits5 (n : Z) : list bool :=
  [Z.testbit n 4; Z.testbit n 3; Z.testbit n 2; Z.testbit n 1; Z.testbit n 0].

Fixpoint bits_of (s : string) : list bool :=
  match s with
  | EmptyString => []
  | String c s' => bits5 (base32_index c) ++ bits_of s'
  end.

(** [parseInt(bits, 2)] *)
Definition parse_bits (bs : list bool) : Z :=
  fold_left (fun acc (b : bool) => 2 * acc + (if b then 1 else 0)) bs 0.

(** The first [n] bytes of a bit string. *)
Fixpoint bytes_of_bits (n : nat) (bs : list bool) : list Z :=
  match n with
  | O => []
  | S n' => parse_bits (firstn 8 bs) :: bytes_of_bits n' (skipn 8 bs)
  end.

(** The decoded shared secret, [secretBytes]. *)
Definition decode_secret (secret : string) : list Z :=
  let secretUpper := filter_chars is_base32 (toUpperCase secret) in
  let bits := bits_of secretUpper in
  bytes_of_bits (List.length bits / 8)%nat bits.

Definition digit_char (d : Z) : ascii := ascii_of_N (Z.to_N (48 + d)).

(** [n.toString()] for [0 <= n]. *)
Fixpoint to_digits (fuel : nat) (n : Z) (acc : string) : string :=
  match fuel with
  | O => acc
  | S fuel' =>
      let acc' := String (digit_char (n mod 10)) acc in
      if n / 10 =? 0 then acc' else to_digits fuel' (n / 10) acc'
  end.

Definition number_toString (n : Z) : string := to_digits 20 n EmptyString.

Fixpoint zeros (n : nat) : string :=
  match n with
  | O => EmptyString
  | S n' => String "0"%char (zeros n')
  end.

(** [s.padStart(len, "0")] *)
Definition padStart0 (len : nat) (s : string) : string :=
  String.append (zeros (len - String.length s)) s.

(** Dynamic truncation of the 20-byte digest to a 31-bit integer. *)
Definition truncate_hash (hash : list Z) : Z :=
  let offset := Z.to_nat (Z.land (nth 19 hash 0) 15) in
  Z.lor (Z.shiftl (Z.land (nth offset hash 0) 127) 24)
    (Z.lor (Z.shiftl (Z.land (nth (offset + 1) hash 0) 255) 16)
       (Z.lor (Z.shiftl (Z.land (nth (offset + 2) hash 0) 255) 8)
          (Z.land (nth (offset + 3) hash 0) 255))).

(** The code of a counter value: everything in [generateTotp] after the
    first line. [buffer.writeBigInt64BE] stores the counter in two's
    complement, big-endian. *)
Definition code_of_counter (secret : string) (counter : Z) : string :=
  let buffer := Crypto.be_bytes 8 counter in
  let secretBytes := decode_secret secret in
  let hash := Crypto.hmac_sha1 secretBytes buffer in
  let code := truncate_hash hash in
  padStart0 6 (number_toString (code mod 1000000)).

(** [generateTotp(secret, time)]; [now] is [Date.now()], read when [time]
    is omitted. *)
Definition generateTotp (now : Z) (secret : string) (time : option Z) : string :=
  let counter := counter_of (default now time) in
  code_of_counter secret counter.

(** [verifyTotp(secret, token, window = 1)] at the clock reading [now]. *)
Definition verifyTotp (now : Z) (secret token : string) (window : Z) : bool :=
  existsb
    (fun i =>
       let time := now + i * 30 * 1000 in
       String.eqb (generateTotp now secret (Some time)) token)
    (seqZ (- window) (2 * window + 1)).

Definition default_window : Z := 1.

End Totp.

(* ====================================================================== *)
(** * src/secrets/backends/ganesh.ts: the tiered vault backend             *)
(* ====================================================================== *)

Module Ganesh.

(** [SecretTier] is 1, 2 or 3 in the type declarations and the number
    found in [manifest.json] at run time. *)
Record SecretGroup : Type := {
  id : string;
  name : string;
  tier : Z;
  secrets : list string
}.

(** [VaultManifest]; [lastModified] is the key [updateManifest] adds. *)
Record VaultManifest : Type := {
  version : Z;
  groups : list SecretGroup;
  defaultTier : Z;
  lastModified : option Z
}.

Record TelegramMfaConfig : Type := {
  botToken : string;
  chatId : string;
  totpSecret : string;
  timeoutMs : option Z
}.

(** The content of [mfa-config.json]. *)
Record MfaFile : Type := {
  file_botToken : option string;
  file_chatId : option string;
  file_timeoutMs : option Z
}.

(** An entry of [store.secrets] in the decrypted file: [null], on which
    [s.value] throws, or an object with its [value], a string as its type
    annotation has it. *)
Inductive StoredSecret : Type :=
| NullEntry
| ValueEntry (value : string).

(** What [JSON.parse] makes of the decrypted file: [null], on which
    [store.secrets] throws, or a value with the entries of
    [store.secrets || {}]. *)
Inductive DecryptedStore : Type :=
| StoreNull
| StoreSecrets (entries : list (string * StoredSecret)).

(** The files under the vault directory. A file that [fs.existsSync]
    does not find is [None]; reading or parsing one may throw.
    [secrets_age] is what [age -d] with the vault identity followed by
    [JSON.parse] yields, or the fault of one of the two or of writing the
    temporary identity file before them. *)
Record Disk : Type := {
  identity_key : Completion string;
  manifest_json : option (Completion VaultManifest);
  secrets_age : Completion DecryptedStore;
  mfa_config_json : option (Completion MfaFile);
  totp_key : option (Completion string)
}.

(** What [sendTelegramApprovalRequest] returns. *)
Record SendResult : Type := {
  send_ok : bool;
  messageId : option Z;
  requestId : option string;
  send_error : option string
}.

(** What [pollTelegramApproval] returns. *)
Record PollResult : Type := {
  approved : bool;
  poll_error : option string
}.

(** The world outside the backend object during one call. The two
    Telegram functions talk to the network and catch their own faults;
    they are taken as the environment's answers. *)
Record World : Type := {
  disk : Disk;
  env_GANESH_MFA_CHAT_ID : option string;
  (** [echo key | age-keygen -y] *)
  age_keygen : string -> Completion string;
  (** [echo '<json>' | age -r publicKey -o secrets.age], run by
      [/bin/sh], for the in-memory map that the JSON text is made of: how
      the command ended, and what [secrets.age] holds afterwards. The
      [echo] of the shell may rewrite the backslash sequences of the
      text, so the file need not hold the values of the map. *)
  age_encrypt : gmap string string -> Completion unit * Completion DecryptedStore;
  (** [fs.writeFileSync(manifestPath, ...)] *)
  write_manifest : Completion unit;
  clock : Z;
  sendTelegramApprovalRequest : TelegramMfaConfig -> string -> string -> SendResult;
  pollTelegramApproval : TelegramMfaConfig -> Z -> string -> string -> PollResult
}.

(** The private fields of a [GaneshBackend] object. [secretsCache] is the
    decrypted in-memory map. *)
Record State : Type := {
  unlocked : bool;
  secretKey : option string;
  publicKey : option string;
  secretsCache : gmap string string;
  manifest : option VaultManifest
}.

(** A freshly constructed backend. *)
Definition new : State :=
  {| unlocked := false; secretKey := None; publicKey := None;
     secretsCache := ∅; manifest := None |}.

(** What a call did, in order. *)
Inductive Event : Type :=
| EvUnlock (succeeded : bool)
| EvReadSecret (key : string)
| EvSendApproval (secretId groupName : string)
| EvPollApproval (messageId : Z) (requestId secretId : string) (approved : bool)
| EvSaveSecrets
| EvWriteManifest.

(** [list.includes(x)] on strings. *)
Definition list_includes (l : list string) (x : string) : bool :=
  existsb (String.eqb x) l.

(** [getSecretTier(secretId)] *)
Fixpoint tier_in_groups (gs : list SecretGroup) (secretId : string) : option Z :=
  match gs with
  | [] => None
  | group :: gs' =>
      if list_includes (secrets group) secretId then Some (tier group)
      else tier_in_groups gs' secretId
  end.

Definition getSecretTier (this : State) (secretId : string) : Z :=
  match manifest this with
  | None => 1%Z
  | Some m => default (defaultTier m) (tier_in_groups (groups m) secretId)
  end.

(** [getSecretGroup(secretId)] *)
Fixpoint name_in_groups (gs : list SecretGroup) (secretId : string) : option string :=
  match gs with
  | [] => None
  | group :: gs' =>
      if list_includes (secrets group) secretId then Some (name group)
      else name_in_groups gs' secretId
  end.

Definition getSecretGroup (this : State) (secretId : string) : string :=
  match manifest this with
  | None => "default"
  | Some m => default "default" (name_in_groups (groups m) secretId)
  end.

Definition bot_token_key : string := "openclaw/telegram-bot-token".
Definition operator_chat_id : string := "8036631576".

(** [getMfaConfig()]: the configuration or [null], and the reads of the
    in-memory map it made. Without [mfa-config.json] the bot token comes
    from the map and a fault while reading [totp.key] escapes; with the
    file, the whole branch sits in [try { } catch { return null }]. *)
Definition getMfaConfig (this : State) (w : World)
  : Completion (option TelegramMfaConfig) * list Event :=
  match mfa_config_json (disk w) with
  | None =>
      let botToken := secretsCache this !! bot_token_key in
      let reads := [EvReadSecret bot_token_key] in
      match botToken, totp_key (disk w) with
      | Some token, Some content =>
          if is_empty token then (Normal None, reads)
          else
            (totpSecret ← content;
             Normal (Some {| botToken := token;
                             chatId := opt_or_else (env_GANESH_MFA_CHAT_ID w)
                                         operator_chat_id;
                             totpSecret := trim totpSecret;
                             timeoutMs := Some 60000%Z |}),
             reads)
      | _, _ => (Normal None, reads)
      end
  | Some parsed =>
      let totp : Completion string :=
        match totp_key (disk w) with
        | Some content => (c ← content; Normal (trim c))
        | None => Normal EmptyString
        end in
      match parsed, totp with
      | Normal config, Normal totpSecret =>
          let file_token := opt_or_else (file_botToken config) EmptyString in
          (Normal (Some {| botToken :=
                             or_else file_token
                               (opt_or_else (secretsCache this !! bot_token_key)
                                  EmptyString);
                           chatId := opt_or_else (file_chatId config) operator_chat_id;
                           totpSecret := totpSecret;
                           timeoutMs :=
                             Some (match file_timeoutMs config with
                                   | Some t => if (t =? 0)%Z then 60000%Z else t
                                   | None => 60000%Z
                                   end) |}),
           if is_empty file_token then [EvReadSecret bot_token_key] else [])
      | _, _ => (Normal None, [])
      end
  end.

(** The loop of [loadSecrets] over [Object.entries(store.secrets)]: how
    it ended and the map at that moment. A [null] entry makes [s.value]
    throw, and the entries set before it stay in the map. *)
Fixpoint set_entries (m : gmap string string) (entries : list (string * StoredSecret))
  : Completion unit * gmap string string :=
  match entries with
  | [] => (Normal tt, m)
  | (id, ValueEntry value) :: rest => set_entries (<[id := value]> m) rest
  | (id, NullEntry) :: _ =>
      (Throw (ErrorObject "Cannot read properties of null (reading 'value')"), m)
  end.

Definition with_cache (this : State) (m : gmap string string) : State :=
  {| unlocked := unlocked this; secretKey := secretKey this;
     publicKey := publicKey this; secretsCache := m; manifest := manifest this |}.

(** [loadSecrets()]: how it ended and the object afterwards. Decrypting
    and parsing come first; then the map is cleared, [store.secrets] is
    read and the map is filled entry by entry. *)
Definition loadSecrets (this : State) (w : World) : Completion unit * State :=
  match secretKey this with
  | Some key =>
      if is_empty key then (Throw (ErrorObject "Vault not unlocked"), this)
      else
        match secrets_age (disk w) with
        | Throw e => (Throw e, this)
        | Normal StoreNull =>
            (Throw (ErrorObject "Cannot read properties of null (reading 'secrets')"),
             with_cache this ∅)
        | Normal (StoreSecrets entries) =>
            let '(ended, m) := set_entries ∅ entries in
            (ended, with_cache this m)
        end
  | None => (Throw (ErrorObject "Vault not unlocked"), this)
  end.

(** [unlock()]: the boolean returned and the object afterwards. The
    fields assigned before a failing step keep their new values. *)
Definition unlock (this : State) (w : World) : bool * State :=
  if unlocked this then (true, this)
  else
    match identity_key (disk w) with
    | Throw _ => (false, this)
    | Normal content =>
        let s1 := {| unlocked := false; secretKey := Some (trim content);
                     publicKey := publicKey this;
                     secretsCache := secretsCache this;
                     manifest := manifest this |} in
        match age_keygen w (trim content) with
        | Throw _ => (false, s1)
        | Normal stdout =>
            let s2 := {| unlocked := false; secretKey := secretKey s1;
                         publicKey := Some (trim stdout);
                         secretsCache := secretsCache s1;
                         manifest := manifest s1 |} in
            match manifest_json (disk w) with
            | Some (Throw _) => (false, s2)
            | loaded =>
                let s3 := {| unlocked := false; secretKey := secretKey s2;
                             publicKey := publicKey s2;
                             secretsCache := secretsCache s2;
                             manifest :=
                               match loaded with
                               | Some (Normal m) => Some m
                               | _ => manifest s2
                               end |} in
                match loadSecrets s3 w with
                | (Throw _, s4) => (false, s4)
                | (Normal _, s4) =>
                    (true,
                     {| unlocked := true; secretKey := secretKey s4;
                        publicKey := publicKey s4;
                        secretsCache := secretsCache s4;
                        manifest := manifest s4 |})
                end
            end
        end
    end.

(** [lock()] *)
Definition lock (this : State) : State := new.

(** [!sendResult.ok || !sendResult.messageId || !sendResult.requestId] *)
Definition send_failed (r : SendResult) : bool :=
  negb (send_ok r)
  || match messageId r with Some m => (m =? 0)%Z | None => true end
  || match requestId r with Some q => is_empty q | None => true end.

(** [resolveTier3(secretPath)] *)
Definition resolveTier3 (this : State) (w : World) (secretPath : string)
  : Completion (option string) * list Event :=
  match getMfaConfig this w with
  | (Throw e, reads) => (Throw e, reads)
  | (Normal None, reads) => (Normal None, reads)
  | (Normal (Some mfaConfig), reads) =>
      let groupName := getSecretGroup this secretPath in
      let sendResult := sendTelegramApprovalRequest w mfaConfig secretPath groupName in
      let sent := EvSendApproval secretPath groupName in
      if send_failed sendResult then (Normal None, reads ++ [sent])%list
      else
        let mid := default 0%Z (messageId sendResult) in
        let rid := default EmptyString (requestId sendResult) in
        let approval := pollTelegramApproval w mfaConfig mid rid secretPath in
        let polled := EvPollApproval mid rid secretPath (approved approval) in
        if negb (approved approval) then (Normal None, reads ++ [sent; polled])%list
        else
          (Normal (secretsCache this !! secretPath),
           reads ++ [sent; polled; EvReadSecret secretPath])%list
  end.

(** [resolve(secretPath, _field)]: how the promise settles, the object
    afterwards and what the call did. [secretPath.replace(/\//g, "/")]
    replaces every slash by a slash. *)
Definition resolve (this : State) (w : World) (secretPath : string)
    (_field : option string) : Completion (option string) * State * list Event :=
  let '(ok, this1, unlocking) :=
    if unlocked this then (true, this, [])
    else let '(ok, s) := unlock this w in (ok, s, [EvUnlock ok]) in
  if negb ok then (Normal None, this1, unlocking)
  else
    let normalizedPath := secretPath in
    let tier := getSecretTier this1 normalizedPath in
    if (tier <? 3)%Z then
      (Normal (secretsCache this1 !! normalizedPath), this1,
       unlocking ++ [EvReadSecret normalizedPath])%list
    else
      let '(r, evs) := resolveTier3 this1 w normalizedPath in
      (r, this1, unlocking ++ evs)%list.

(** [saveSecrets()]: how it ended and what [secrets.age] holds
    afterwards. *)
Definition saveSecrets (this : State) (w : World)
  : Completion unit * Completion DecryptedStore :=
  match secretKey this, publicKey this with
  | Some sk, Some pk =>
      if is_empty sk || is_empty pk
      then (Throw (ErrorObject "Vault not unlocked"), secrets_age (disk w))
      else age_encrypt w (secretsCache this)
  | _, _ => (Throw (ErrorObject "Vault not unlocked"), secrets_age (disk w))
  end.

(** The group list after [defaultGroup.secrets.push(secretId)] on the
    first group whose id is [default], when there is one. *)
Fixpoint add_to_default (gs : list SecretGroup) (secretId : string)
  : option (list SecretGroup) :=
  match gs with
  | [] => None
  | g :: gs' =>
      if String.eqb (id g) "default" then
        Some ((if list_includes (secrets g) secretId then g
               else {| id := id g; name := name g; tier := tier g;
                       secrets := secrets g ++ [secretId] |}) :: gs')
      else option_map (cons g) (add_to_default gs' secretId)
  end.

(** The manifest object of [updateManifest] just before it is written. *)
Definition updated_manifest (m : VaultManifest) (now : Z) (secretId : string)
  : VaultManifest :=
  {| version := version m;
     groups :=
       match add_to_default (groups m) secretId with
       | Some gs => gs
       | None =>
           (groups m ++ [{| id := "default"; name := "Default"; tier := 1%Z;
                            secrets := [secretId] |}])%list
       end;
     defaultTier := defaultTier m;
     lastModified := Some now |}.

(** [updateManifest(secretId)]: the manifest file afterwards. *)
Definition updateManifest (w : World) (secretId : string) : Completion VaultManifest :=
  match manifest_json (disk w) with
  | None => Throw (ErrorObject "ENOENT: no such file or directory")
  | Some parsed =>
      m ← parsed;
      let m' := updated_manifest m (clock w) secretId in
      _ ← write_manifest w;
      Normal m'
  end.

(** The file that holds the in-memory map as it is: what the JSON text
    says before the shell has seen it. *)
Definition verbatim (m : gmap string string) : DecryptedStore :=
  StoreSecrets ((fun e : string * string => (e.1, ValueEntry e.2)) <$> map_to_list m).

Definition with_secrets (d : Disk) (content : Completion DecryptedStore) : Disk :=
  {| identity_key := identity_key d; manifest_json := manifest_json d;
     secrets_age := content;
     mfa_config_json := mfa_config_json d; totp_key := totp_key d |}.

Definition with_manifest (d : Disk) (m : VaultManifest) : Disk :=
  {| identity_key := identity_key d; manifest_json := Some (Normal m);
     secrets_age := secrets_age d;
     mfa_config_json := mfa_config_json d; totp_key := totp_key d |}.

(** [store(secretPath, value)]: the boolean returned, the object and the
    vault directory afterwards, and what the call did. *)
Definition store (this : State) (w : World) (secretPath value : string)
  : bool * State * Disk * list Event :=
  let '(ok, this1, unlocking) :=
    if unlocked this then (true, this, [])
    else let '(ok, s) := unlock this w in (ok, s, [EvUnlock ok]) in
  if negb ok then (false, this1, disk w, unlocking)
  else
    let this2 := {| unlocked := unlocked this1; secretKey := secretKey this1;
                    publicKey := publicKey this1;
                    secretsCache := <[secretPath := value]> (secretsCache this1);
                    manifest := manifest this1 |} in
    match saveSecrets this2 w with
    | (Throw _, content) => (false, this2, with_secrets (disk w) content, unlocking)
    | (Normal _, content) =>
        let disk1 := with_secrets (disk w) content in
        match updateManifest w secretPath with
        | Throw _ => (false, this2, disk1, unlocking ++ [EvSaveSecrets])%list
        | Normal m' =>
            (true, this2, with_manifest disk1 m',
             unlocking ++ [EvSaveSecrets; EvWriteManifest])%list
        end
    end.

(** [list(prefix)] *)
Definition list_secrets (this : State) (w : World) (prefix : option string)
  : list string * State :=
  let '(ok, this1) := if unlocked this then (true, this) else unlock this w in
  if negb ok then ([], this1)
  else
    let allSecrets := (map_to_list (secretsCache this1)).*1 in
    match prefix with
    | Some p => if is_empty p then (allSecrets, this1)
                else (filter (fun s => starts_with p s = true) allSecrets, this1)
    | None => (allSecrets, this1)
    end.

(** The approval exchange that one call makes for a path in the world
    [w] once [getMfaConfig] has handed out [cfg]: the request, and the
    poll for the message and request id that the request returned, with
    the answer of that poll. *)
Definition exchange (this : State) (w : World) (cfg : TelegramMfaConfig)
    (secretPath : string) : list Event :=
  let groupName := getSecretGroup this secretPath in
  let sendResult := sendTelegramApprovalRequest w cfg secretPath groupName in
  let mid := default 0%Z (messageId sendResult) in
  let rid := default EmptyString (requestId sendResult) in
  [EvSendApproval secretPath groupName;
   EvPollApproval mid rid secretPath
     (approved (pollTelegramApproval w cfg mid rid secretPath))].

(** Whether that poll ended approved. *)
Definition exchange_approved (this : State) (w : World) (cfg : TelegramMfaConfig)
    (secretPath : string) : bool :=
  let groupName := getSecretGroup this secretPath in
  let sendResult := sendTelegramApprovalRequest w cfg secretPath groupName in
  approved (pollTelegramApproval w cfg (default 0%Z (messageId sendResult))
              (default EmptyString (requestId sendResult)) secretPath).

(** The events of a call that reads a tier-3 path: optional unlocking
    and reads of the bot token, none of them a read of the path, then the
    exchange of this call, approved, and only then the read of the
    path. *)
Definition approved_exchange (this : State) (w : World) (secretPath : string)
    (evs : list Event) : Prop :=
  exists pre cfg,
    Forall (fun e => e = EvUnlock true \/ e = EvReadSecret bot_token_key) pre
    /\ ~ In (EvReadSecret secretPath) pre
    /\ (getMfaConfig this w).1 = Normal (Some cfg)
    /\ send_failed (sendTelegramApprovalRequest w cfg secretPath
                      (getSecretGroup this secretPath)) = false
    /\ exchange_approved this w cfg secretPath = true
    /\ evs = (pre ++ exchange this w cfg secretPath ++ [EvReadSecret secretPath])%list.

(** What one [resolve] of a tier-3 path does, told from its result and
    its events. It yields a value, and it reads the path in the map, only
    at the end of an approved exchange of its own; and whenever the MFA
    configuration is there and the request could be sent, the call makes
    the exchange, returns the entry of the map when the poll ended
    approved and [null] when it did not. *)
Definition tier3_call (this : State) (w : World) (secretPath : string)
    (result : Completion (option string)) (evs : list Event) : Prop :=
  (forall v, result = Normal (Some v) ->
             secretsCache this !! secretPath = Some v
             /\ approved_exchange this w secretPath evs)
  /\ (In (EvReadSecret secretPath) evs -> approved_exchange this w secretPath evs)
  /\ (forall cfg,
        (getMfaConfig this w).1 = Normal (Some cfg) ->
        send_failed (sendTelegramApprovalRequest w cfg secretPath
                       (getSecretGroup this secretPath)) = false ->
        exists pre,
          Forall (fun e => e = EvUnlock true \/ e = EvReadSecret bot_token_key) pre
          /\ evs = (pre ++ exchange this w cfg secretPath
                        ++ (if exchange_approved this w cfg secretPath
                            then [EvReadSecret secretPath] else []))%list
          /\ result = Normal (if exchange_approved this w cfg secretPath
                              then secretsCache this !! secretPath else None)).

End Ganesh.

(* ====================================================================== *)
(** * src/infra/ganesh-policy-gate.ts                                      *)
(* ====================================================================== *)

Module PolicyGate.

Inductive PolicyGateDecision : Type := Allow | Deny | Ask.

Record PolicyGateResult : Type := {
  decision : PolicyGateDecision;
  reason : string;
  matchedRule : option string;
  evaluatedAt : Z
}.

(** The [op] of a condition; a string outside the seven is [OpOther]. *)
Inductive Op : Type :=
| OpEq | OpNeq | OpContains | OpMatches | OpIn | OpGt | OpLt | OpOther.

(** [string | number | string[]] *)
Inductive ConditionValue : Type :=
| CString (s : string)
| CNumber (n : Z)
| CStrings (l : list string).

Record PolicyCondition : Type := {
  cond_field : string;
  op : Op;
  cond_value : ConditionValue
}.

Record PolicyRule : Type := {
  id : string;
  description : option string;
  subject : string;
  conditions : list PolicyCondition;
  action : string;
  requiredTier : option Z;
  priority : option Z;
  enabled : option bool
}.

Record PolicyConfig : Type := {
  version : Z;
  defaultAction : string;
  defaultTier : option Z;
  rules : list PolicyRule
}.

Record AuditEntry : Type := {
  timestamp : Z;
  audit_command : string;
  audit_decision : PolicyGateDecision;
  audit_reason : string;
  audit_matchedRule : option string;
  audit_agentId : option string;
  audit_sessionKey : option string;
  audit_host : option string
}.

(** The values a field path can reach. *)
Inductive JsValue : Type :=
| JUndefined
| JString (s : string)
| JNumber (n : Z)
| JArray (l : list JsValue)
| JObject (fields : list (string * JsValue)).

(** [security-policy.json] as the file system shows it. [content] is
    [JSON.parse(fs.readFileSync(...))]: it may throw, and it may be a
    falsy value such as [null], which is [Normal None]. *)
Inductive PolicyFile : Type :=
| Absent
| Present (mtimeMs : Completion Z) (content : Completion (option PolicyConfig)).

(** The world outside the module during one [evaluateCommand] call. *)
Record World : Type := {
  (** [process.env.GANESH_POLICY_GATE] *)
  env_GANESH_POLICY_GATE : option string;
  policy_file : PolicyFile;
  (** [new Date()] at the top of [evaluateCommand] *)
  now_eval : Z;
  (** [Date.now()] in [loadPolicy] *)
  now_load : Z;
  (** the [YYYY-MM-DD] prefix of [new Date().toISOString()] in [writeAudit] *)
  audit_date : string;
  (** [fs.existsSync(AUDIT_DIR)] and [fs.mkdirSync(AUDIT_DIR, ...)] *)
  audit_dir_exists : bool;
  mkdir_audit_dir : Completion unit;
  (** [fs.appendFileSync(auditFile, ...)] *)
  append_audit_file : Completion unit;
  (** [new RegExp(pattern).test(text)]; [None] when the pattern is refused *)
  regexp_test : string -> string -> option bool;
  (** [path.basename] *)
  path_basename : string -> string
}.

(** The module-level variables. *)
Record State : Type := {
  cachedPolicy : option PolicyConfig;
  cachedPolicyMtime : Z;
  lastPolicyCheck : Z;
  auditDirChecked : bool
}.

(** [resetPolicyGateCache()] *)
Definition resetPolicyGateCache : State :=
  {| cachedPolicy := None; cachedPolicyMtime := 0; lastPolicyCheck := 0;
     auditDirChecked := false |}.

(** What a call leaves behind: the lines appended to the audit files, each
    with the date in its file name, and the lines handed to the logger. *)
Record Output : Type := {
  audited : list (string * AuditEntry);
  logged : list string
}.

Definition silent : Output := {| audited := []; logged := [] |}.

Definition out_app (a b : Output) : Output :=
  {| audited := (audited a ++ audited b)%list;
     logged := (logged a ++ logged b)%list |}.

Definition log (line : string) : Output := {| audited := []; logged := [line] |}.

Definition file_exists (f : PolicyFile) : bool :=
  match f with
  | Absent => false
  | Present _ _ => true
  end.

(** [isPolicyGateEnabled()] *)
Definition isPolicyGateEnabled (w : World) : bool :=
  let envVal := option_map toLowerCase (env_GANESH_POLICY_GATE w) in
  let set_to v := match envVal with Some e => String.eqb e v | None => false end in
  if set_to "0" || set_to "false" || set_to "off" then false
  else if set_to "1" || set_to "true" || set_to "on" then true
  else file_exists (policy_file w).

Definition POLICY_CACHE_TTL_MS : Z := 30000.

Definition set_check (st : State) (now : Z) : State :=
  {| cachedPolicy := cachedPolicy st; cachedPolicyMtime := cachedPolicyMtime st;
     lastPolicyCheck := now; auditDirChecked := auditDirChecked st |}.

Definition load_failed (e : Thrown) : Output :=
  log ("ganesh-policy-gate: failed to load policy: " +:+ error_to_string e).

(** [loadPolicy()] *)
Definition loadPolicy (st : State) (w : World)
  : Completion (option PolicyConfig) * State * Output :=
  let now := now_load w in
  match cachedPolicy st with
  | Some cached =>
      if (now - lastPolicyCheck st <? POLICY_CACHE_TTL_MS)%Z
      then (Normal (Some cached), st, silent)
      else
        let st1 := set_check st now in
        match policy_file w with
        | Absent => (Normal None, st1, silent)
        | Present (Throw e) _ => (Normal None, st1, load_failed e)
        | Present (Normal mtime) content =>
            if (mtime =? cachedPolicyMtime st1)%Z then (Normal (Some cached), st1, silent)
            else
              match content with
              | Throw e => (Normal None, st1, load_failed e)
              | Normal parsed =>
                  (Normal parsed,
                   {| cachedPolicy := parsed; cachedPolicyMtime := mtime;
                      lastPolicyCheck := now;
                      auditDirChecked := auditDirChecked st1 |},
                   silent)
              end
        end
  | None =>
      let st1 := set_check st now in
      match policy_file w with
      | Absent => (Normal None, st1, silent)
      | Present (Throw e) _ => (Normal None, st1, load_failed e)
      | Present (Normal mtime) content =>
          match content with
          | Throw e => (Normal None, st1, load_failed e)
          | Normal parsed =>
              (Normal parsed,
               {| cachedPolicy := parsed; cachedPolicyMtime := mtime;
                  lastPolicyCheck := now;
                  auditDirChecked := auditDirChecked st1 |},
               silent)
          end
      end
  end.

(** [fieldPath.split(".")] *)
Fixpoint split_dots (s : string) : list string :=
  match s with
  | EmptyString => [EmptyString]
  | String c s' =>
      if (code c =? 46)%Z then EmptyString :: split_dots s'
      else
        match split_dots s' with
        | part :: parts => String c part :: parts
        | [] => [String c EmptyString]
        end
  end.

Fixpoint own_property (fields : list (string * JsValue)) (key : string) : JsValue :=
  match fields with
  | [] => JUndefined
  | (k, v) :: fields' => if String.eqb k key then v else own_property fields' key
  end.

(** The index a canonical decimal key denotes. *)
Fixpoint index_of_digits (acc : nat) (s : string) : option nat :=
  match s with
  | EmptyString => Some acc
  | String c s' =>
      if is_digit c then index_of_digits (10 * acc + Z.to_nat (code c - 48)) s'
      else None
  end.

Definition array_index (key : string) : option nat :=
  match key with
  | EmptyString => None
  | String c rest =>
      if (code c =? 48)%Z && negb (is_empty rest) then None
      else index_of_digits 0 key
  end.

(** [current[part]]. Members inherited from [Object.prototype] and
    [Array.prototype] are functions, prototype objects or [null]; for
    condition values of the declared type every operator of
    [evaluateCondition] answers on them as on [undefined], which is what
    they are here. *)
Definition get_property (current : JsValue) (part : string) : JsValue :=
  match current with
  | JObject fields => own_property fields part
  | JArray l =>
      if String.eqb part "length" then JNumber (Z.of_nat (List.length l))
      else match array_index part with
           | Some i => nth i l JUndefined
           | None => JUndefined
           end
  | _ => JUndefined
  end.

Definition is_object (v : JsValue) : bool :=
  match v with
  | JObject _ | JArray _ => true
  | _ => false
  end.

Fixpoint walk (current : JsValue) (parts : list string) : JsValue :=
  match parts with
  | [] => current
  | part :: parts' =>
      if is_object current then walk (get_property current part) parts'
      else JUndefined
  end.

(** [getNestedValue(obj, fieldPath)] *)
Definition getNestedValue (obj : list (string * JsValue)) (fieldPath : string) : JsValue :=
  walk (JObject obj) (split_dots fieldPath).

(** [value === condition.value]: an array is never identical to the array
    of the condition. *)
Definition strict_eq (value : JsValue) (cv : ConditionValue) : bool :=
  match value, cv with
  | JString a, CString b => String.eqb a b
  | JNumber a, CNumber b => (a =? b)%Z
  | _, _ => false
  end.

(** [evaluateCondition(condition, details)] *)
Definition evaluateCondition (w : World) (condition : PolicyCondition)
    (details : list (string * JsValue)) : bool :=
  let value := getNestedValue details (cond_field condition) in
  match op condition with
  | OpEq => strict_eq value (cond_value condition)
  | OpNeq => negb (strict_eq value (cond_value condition))
  | OpContains =>
      match value, cond_value condition with
      | JString v, CString c => includes v c
      | JArray l, c => existsb (fun x => strict_eq x c) l
      | _, _ => false
      end
  | OpMatches =>
      match value, cond_value condition with
      | JString v, CString pattern => default false (regexp_test w pattern v)
      | _, _ => false
      end
  | OpIn =>
      match cond_value condition, value with
      | CStrings l, JString v => existsb (String.eqb v) l
      | _, _ => false
      end
  | OpGt =>
      match value, cond_value condition with
      | JNumber v, CNumber c => (c <? v)%Z
      | _, _ => false
      end
  | OpLt =>
      match value, cond_value condition with
      | JNumber v, CNumber c => (v <? c)%Z
      | _, _ => false
      end
  | OpOther => false
  end.

(** [normalizeAction(action)] *)
Definition normalizeAction (action : string) : PolicyGateDecision :=
  let lower := toLowerCase action in
  if String.eqb lower "allow" then Allow
  else if String.eqb lower "deny" then Deny
  else Ask.

Definition not_space (c : ascii) : bool := negb (is_space c).

(** One [\w+=\S+\s+] at the start of [s]: what follows it. *)
Definition env_assignment (s : string) : option string :=
  if is_empty (take_while is_word s) then None
  else
    match drop_while is_word s with
    | String c rest =>
        if (code c =? 61)%Z then
          if is_empty (take_while not_space rest) then None
          else
            let after := drop_while not_space rest in
            if is_empty (take_while is_space after) then None
            else Some (drop_while is_space after)
        else None
    | EmptyString => None
    end.

(** [s.replace(/^(\w+=\S+\s+)+/, "")] *)
Fixpoint strip_env (fuel : nat) (s : string) : string :=
  match fuel with
  | O => s
  | S fuel' =>
      match env_assignment s with
      | Some rest => strip_env fuel' rest
      | None => s
      end
  end.

(** One [-\S+\s+] at the start of [s]: what follows it. *)
Definition sudo_flag (s : string) : option string :=
  match s with
  | String c rest =>
      if (code c =? 45)%Z then
        if is_empty (take_while not_space rest) then None
        else
          let after := drop_while not_space rest in
          if is_empty (take_while is_space after) then None
          else Some (drop_while is_space after)
      else None
  | EmptyString => None
  end.

Fixpoint strip_flags (fuel : nat) (s : string) : string :=
  match fuel with
  | O => s
  | S fuel' =>
      match sudo_flag s with
      | Some rest => strip_flags fuel' rest
      | None => s
      end
  end.

(** [s.replace(/^sudo\s+(-\S+\s+)*/, "")] *)
Definition strip_sudo (s : string) : string :=
  match strip_prefix "sudo" s with
  | Some rest =>
      if is_empty (take_while is_space rest) then s
      else strip_flags (String.length rest) (drop_while is_space rest)
  | None => s
  end.

(** [extractBaseCommand(command)] *)
Definition extractBaseCommand (w : World) (command : string) : string :=
  let trimmed := trim command in
  let withoutEnv := strip_env (String.length trimmed) trimmed in
  let withoutSudo := strip_sudo withoutEnv in
  let word := take_while not_space withoutSudo in
  if is_empty word then trimmed else path_basename w word.

(** [truncate(str, maxLen)] for [3 <= maxLen]. *)
Definition truncate (str : string) (maxLen : nat) : string :=
  if (String.length str <=? maxLen)%nat then str
  else take (maxLen - 3) str +:+ "...".

(** [ensureAuditDir()] *)
Definition ensureAuditDir (st : State) (w : World) : bool * State * Output :=
  if auditDirChecked st then (true, st, silent)
  else
    let checked := {| cachedPolicy := cachedPolicy st;
                      cachedPolicyMtime := cachedPolicyMtime st;
                      lastPolicyCheck := lastPolicyCheck st;
                      auditDirChecked := true |} in
    if audit_dir_exists w then (true, checked, silent)
    else
      match mkdir_audit_dir w with
      | Normal _ => (true, checked, silent)
      | Throw e =>
          (false, st,
           log ("ganesh-policy-gate: cannot create audit dir: " +:+ error_to_string e))
      end.

(** [writeAudit(entry)] *)
Definition writeAudit (st : State) (w : World) (entry : AuditEntry) : State * Output :=
  match ensureAuditDir st w with
  | (false, st1, out) => (st1, out)
  | (true, st1, out) =>
      match append_audit_file w with
      | Normal _ =>
          (st1, out_app out {| audited := [(audit_date w, entry)]; logged := [] |})
      | Throw e =>
          (st1,
           out_app out
             (log ("ganesh-policy-gate: audit write failed: " +:+ error_to_string e)))
      end
  end.

(** The optional second argument of [evaluateCommand]. *)
Record Options : Type := {
  agentId : option string;
  sessionKey : option string;
  host : option string;
  cwd : option string
}.

Definition no_options : Options :=
  {| agentId := None; sessionKey := None; host := None; cwd := None |}.

Definition js_of (o : option string) : JsValue :=
  match o with
  | Some s => JString s
  | None => JUndefined
  end.

(** The [details] object. *)
Definition details_of (w : World) (command : string) (opts : Options)
  : list (string * JsValue) :=
  let baseCommand := extractBaseCommand w command in
  [("command", JString command);
   ("baseCommand", JString baseCommand);
   ("name", JString baseCommand);
   ("host", js_of (host opts));
   ("cwd", js_of (cwd opts));
   ("agentId", js_of (agentId opts))].

(** [rule.priority || 0] *)
Definition priority_of (r : PolicyRule) : Z := default 0%Z (priority r).

(** The comparator [(a, b) => (b.priority || 0) - (a.priority || 0)]. *)
Definition by_priority_desc (a b : PolicyRule) : Z := (priority_of b - priority_of a)%Z.

(** [toSorted(compare)]: the stable sort. With a comparator that orders
    its arguments consistently the stable result is unique; it is built
    here by insertion from the right, an element going in front of the
    first one that does not have to precede it. *)
Fixpoint insert_sorted {A} (compare : A -> A -> Z) (x : A) (l : list A) : list A :=
  match l with
  | [] => [x]
  | y :: l' =>
      if (0 <? compare x y)%Z then y :: insert_sorted compare x l'
      else x :: y :: l'
  end.

Fixpoint toSorted {A} (compare : A -> A -> Z) (l : list A) : list A :=
  match l with
  | [] => []
  | x :: l' => insert_sorted compare x (toSorted compare l')
  end.

(** [r.subject === "command" && r.enabled !== false] *)
Definition is_command_rule (r : PolicyRule) : bool :=
  String.eqb (subject r) "command"
  && match enabled r with Some false => false | _ => true end.

(** [rule.conditions.every((c) => evaluateCondition(c, details))] *)
Definition allMatch (w : World) (details : list (string * JsValue)) (rule : PolicyRule)
  : bool :=
  forallb (fun c => evaluateCondition w c details) (conditions rule).

(** The sorted [commandRules]. *)
Definition commandRules (policy : PolicyConfig) : list PolicyRule :=
  toSorted by_priority_desc (List.filter is_command_rule (rules policy)).

Definition audit_entry (w : World) (command : string) (opts : Options)
    (d : PolicyGateDecision) (reason : string) (rule : option string) : AuditEntry :=
  {| timestamp := now_eval w; audit_command := command; audit_decision := d;
     audit_reason := reason; audit_matchedRule := rule;
     audit_agentId := agentId opts; audit_sessionKey := sessionKey opts;
     audit_host := host opts |}.

Definition decision_name (d : PolicyGateDecision) : string :=
  match d with
  | Allow => "allow"
  | Deny => "deny"
  | Ask => "ask"
  end.

(** The part of [evaluateCommand] that follows a successful policy load. *)
Definition evaluate_with (st : State) (w : World) (policy : PolicyConfig)
    (command : string) (opts : Options) : PolicyGateResult * State * Output :=
  let now := now_eval w in
  let details := details_of w command opts in
  match List.find (allMatch w details) (commandRules policy) with
  | Some rule =>
      let action := normalizeAction (action rule) in
      let result :=
        {| decision := action;
           reason := opt_or_else (description rule) ("Matched rule: " +:+ id rule);
           matchedRule := Some (id rule);
           evaluatedAt := now |} in
      let '(st1, out) :=
        writeAudit st w (audit_entry w command opts action (reason result)
                           (Some (id rule))) in
      (result, st1,
       out_app out
         (log ("ganesh-policy-gate: " +:+ decision_name action +:+ " "
                 +:+ quoted (truncate command 80) +:+ " (rule: " +:+ id rule +:+ ")")))
  | None =>
      let defaultAction := normalizeAction (or_else (defaultAction policy) "ask") in
      let result :=
        {| decision := defaultAction;
           reason := "No matching rule, using default policy";
           matchedRule := None;
           evaluatedAt := now |} in
      let '(st1, out) :=
        writeAudit st w (audit_entry w command opts defaultAction (reason result) None) in
      (result, st1,
       out_app out
         (log ("ganesh-policy-gate: " +:+ decision_name defaultAction +:+ " "
                 +:+ quoted (truncate command 80) +:+ " (default policy)")))
  end.

(** [evaluateCommand(command, opts)]: the result, the module variables
    afterwards, and what was appended to the audit files and logged. *)
Definition evaluateCommand (st : State) (w : World) (command : string) (opts : Options)
  : PolicyGateResult * State * Output :=
  let now := now_eval w in
  if negb (isPolicyGateEnabled w) then
    ({| decision := Allow; reason := "Policy gate disabled"; matchedRule := None;
        evaluatedAt := now |}, st, silent)
  else
    match loadPolicy st w with
    | (Throw err, st1, out) =>
        let '(st2, out2) :=
          writeAudit st1 w
            (audit_entry w command opts Allow
               ("Fail-open: policy load error: " +:+ error_to_string err) None) in
        ({| decision := Allow; reason := "Fail-open: policy load error";
            matchedRule := None; evaluatedAt := now |},
         st2,
         out_app out
           (out_app
              (log ("ganesh-policy-gate: error loading policy, failing open: "
                      +:+ error_to_string err))
              out2))
    | (Normal None, st1, out) =>
        ({| decision := Allow; reason := "No policy config found"; matchedRule := None;
            evaluatedAt := now |}, st1, out)
    | (Normal (Some policy), st1, out) =>
        let '(result, st2, out2) := evaluate_with st1 w policy command opts in
        (result, st2, out_app out out2)
    end.

(** ** The selection in the words of the specification *)

(** A rule counts for a command when its subject is [command], it is not
    disabled, and all its conditions hold. *)
Definition applies (w : World) (details : list (string * JsValue)) (r : PolicyRule)
  : bool :=
  is_command_rule r && allMatch w details r.

(** The rule of highest priority among those satisfying [p], the one
    declared first among equals. *)
Fixpoint best_rule (p : PolicyRule -> bool) (l : list PolicyRule) : option PolicyRule :=
  match l with
  | [] => None
  | x :: l' =>
      if p x then
        match best_rule p l' with
        | Some y => if (priority_of x <? priority_of y)%Z then Some y else Some x
        | None => Some x
        end
      else best_rule p l'
  end.

(** Priorities never increase along the list. *)
Fixpoint descending (l : list PolicyRule) : Prop :=
  match l with
  | [] => True
  | x :: l' => Forall (fun y => (priority_of y <= priority_of x)%Z) l' /\ descending l'
  end.

(** [rule], declared at position [i], counts and no other counting rule
    beats it: each has a lower priority, or the same priority and a
    position that is not earlier. *)
Definition selected (p : PolicyRule -> bool) (l : list PolicyRule) (i : nat)
    (rule : PolicyRule) : Prop :=
  l !! i = Some rule
  /\ p rule = true
  /\ forall j other,
      l !! j = Some other -> p other = true ->
      (priority_of other < priority_of rule)%Z
      \/ (priority_of other = priority_of rule /\ (i <= j)%nat).

End PolicyGate.

(* ====================================================================== *)
(** * Concrete worlds used to run the code                                 *)
(* ====================================================================== *)

Module Scenario.

(** A machine with an initialised password store whose [pass show]
    prints a secret on the first line and a note on the second. *)
Definition pass_world : World :=
  {| env_PASSWORD_STORE_DIR := None;
     homedir := "/home/operator";
     path_join := fun a b => a +:+ "/" +:+ b;
     existsSync := fun _ => true;
     exec := fun req =>
       if starts_with "pass show" (command req)
       then Normal ("  s3cr3t " +:+ lf +:+ "note: rotated in March" +:+ lf)
       else Normal "/usr/bin/pass" |}.

(** A machine whose password store lacks the entry asked for. *)
Definition pass_world_missing : World :=
  {| env_PASSWORD_STORE_DIR := None;
     homedir := "/home/operator";
     path_join := fun a b => a +:+ "/" +:+ b;
     existsSync := fun _ => true;
     exec := fun req =>
       if starts_with "pass show" (command req)
       then Throw (ErrorObject
                     "Command failed: Error: openclaw/none is not in the password store.")
       else Normal "/usr/bin/pass" |}.

Definition first_call : Resolver.Env :=
  {| Resolver.now_check := 1000; Resolver.now_store := 1200;
     Resolver.world := pass_world |}.

(** Four minutes after the first call. *)
Definition second_call : Resolver.Env :=
  {| Resolver.now_check := 241200; Resolver.now_store := 241300;
     Resolver.world := pass_world_missing |}.

Definition token_ref : string := "pass:openclaw/token".

Definition after_first_call : Resolver.State :=
  (Resolver.resolveSecret Resolver.initial first_call token_ref None).1.2.

(** A vault whose manifest files one secret under a tier-3 group. *)
Definition production : Ganesh.SecretGroup :=
  {| Ganesh.id := "prod"; Ganesh.name := "Production"; Ganesh.tier := 3;
     Ganesh.secrets := ["db/password"] |}.

Definition vault_manifest : Ganesh.VaultManifest :=
  {| Ganesh.version := 1; Ganesh.groups := [production]; Ganesh.defaultTier := 1;
     Ganesh.lastModified := None |}.

Definition vault_disk : Ganesh.Disk :=
  {| Ganesh.identity_key := Normal "AGE-SECRET-KEY-1QQQ";
     Ganesh.manifest_json := Some (Normal vault_manifest);
     Ganesh.secrets_age :=
       Normal (Ganesh.StoreSecrets
                 [("db/password", Ganesh.ValueEntry "hunter2");
                  ("api/key", Ganesh.ValueEntry "k-123");
                  ("openclaw/telegram-bot-token", Ganesh.ValueEntry "42:bot")]);
     Ganesh.mfa_config_json := None;
     Ganesh.totp_key := Some (Normal "JBSWY3DPEHPK3PXP") |}.

(** The operator presses Approve. *)
Definition vault_world : Ganesh.World :=
  {| Ganesh.disk := vault_disk;
     Ganesh.env_GANESH_MFA_CHAT_ID := None;
     Ganesh.age_keygen := fun _ => Normal "age1qqq";
     Ganesh.age_encrypt := fun m => (Normal tt, Normal (Ganesh.verbatim m));
     Ganesh.write_manifest := Normal tt;
     Ganesh.clock := 1704073050000;
     Ganesh.sendTelegramApprovalRequest := fun _ _ _ =>
       {| Ganesh.send_ok := true; Ganesh.messageId := Some 77;
          Ganesh.requestId := Some "mfa_1704073050000_k3x9zq";
          Ganesh.send_error := None |};
     Ganesh.pollTelegramApproval := fun _ _ _ _ =>
       {| Ganesh.approved := true; Ganesh.poll_error := None |} |}.

(** The operator presses Deny. *)
Definition vault_world_denied : Ganesh.World :=
  {| Ganesh.disk := vault_disk;
     Ganesh.env_GANESH_MFA_CHAT_ID := None;
     Ganesh.age_keygen := fun _ => Normal "age1qqq";
     Ganesh.age_encrypt := fun m => (Normal tt, Normal (Ganesh.verbatim m));
     Ganesh.write_manifest := Normal tt;
     Ganesh.clock := 1704073110000;
     Ganesh.sendTelegramApprovalRequest := fun _ _ _ =>
       {| Ganesh.send_ok := true; Ganesh.messageId := Some 78;
          Ganesh.requestId := Some "mfa_1704073110000_p0o9i8";
          Ganesh.send_error := None |};
     Ganesh.pollTelegramApproval := fun _ _ _ _ =>
       {| Ganesh.approved := false;
          Ganesh.poll_error := Some "Request denied by user" |} |}.

Definition unlocked_vault : Ganesh.State := (Ganesh.unlock Ganesh.new vault_world).2.

Definition stored_again : bool * Ganesh.State * Ganesh.Disk * list Ganesh.Event :=
  Ganesh.store unlocked_vault vault_world "api/key" "k-456".

(** The text after the last slash, standing for [path.basename] on
    paths that do not end in a slash. *)
Fixpoint after_last_slash (s : string) : string :=
  match s with
  | EmptyString => EmptyString
  | String c s' =>
      if existsb (fun d => (code d =? 47)%Z) (list_ascii_of_string s')
      then after_last_slash s'
      else if (code c =? 47)%Z then s' else s
  end.

Definition command_rule (name : string) (conds : list PolicyGate.PolicyCondition)
    (act : string) (prio : option Z) (on : option bool) : PolicyGate.PolicyRule :=
  {| PolicyGate.id := name; PolicyGate.description := None;
     PolicyGate.subject := "command"; PolicyGate.conditions := conds;
     PolicyGate.action := act; PolicyGate.requiredTier := None;
     PolicyGate.priority := prio; PolicyGate.enabled := on |}.

Definition base_is (cmd : string) : PolicyGate.PolicyCondition :=
  {| PolicyGate.cond_field := "baseCommand"; PolicyGate.op := PolicyGate.OpEq;
     PolicyGate.cond_value := PolicyGate.CString cmd |}.

(** The policy of the test [evaluates rules by priority]. *)
Definition low_priority_deny : PolicyGate.PolicyRule :=
  command_rule "low-priority-deny" [base_is "git"] "deny" (Some 1) (Some true).

Definition high_priority_allow : PolicyGate.PolicyRule :=
  command_rule "high-priority-allow" [base_is "git"] "allow" (Some 10) (Some true).

Definition git_policy : PolicyGate.PolicyConfig :=
  {| PolicyGate.version := 1; PolicyGate.defaultAction := "deny";
     PolicyGate.defaultTier := None;
     PolicyGate.rules := [low_priority_deny; high_priority_allow] |}.

(** Two rules of equal priority that both match [git]. *)
Definition tie_policy : PolicyGate.PolicyConfig :=
  {| PolicyGate.version := 1; PolicyGate.defaultAction := "deny";
     PolicyGate.defaultTier := None;
     PolicyGate.rules :=
       [command_rule "first-ask" [base_is "git"] "ask" (Some 5) None;
        command_rule "second-allow" [base_is "git"] "allow" (Some 5) None;
        command_rule "unranked-deny" [base_is "git"] "deny" None None] |}.

(** The policy of the test [skips disabled rules]. *)
Definition disabled_policy : PolicyGate.PolicyConfig :=
  {| PolicyGate.version := 1; PolicyGate.defaultAction := "allow";
     PolicyGate.defaultTier := None;
     PolicyGate.rules :=
       [command_rule "disabled-deny" [base_is "ls"] "deny" None (Some false)] |}.

(** The policy of the test [denies commands matching a deny rule]. *)
Definition rm_policy : PolicyGate.PolicyConfig :=
  {| PolicyGate.version := 1; PolicyGate.defaultAction := "allow";
     PolicyGate.defaultTier := None;
     PolicyGate.rules :=
       [command_rule "block-rm-rf"
          [{| PolicyGate.cond_field := "command"; PolicyGate.op := PolicyGate.OpContains;
              PolicyGate.cond_value := PolicyGate.CString "rm -rf /" |}]
          "deny" (Some 100) (Some true)] |}.

(** A machine with the gate switched on and the given policy file. *)
Definition gate_world (file : PolicyGate.PolicyFile) : PolicyGate.World :=
  {| PolicyGate.env_GANESH_POLICY_GATE := Some "on";
     PolicyGate.policy_file := file;
     PolicyGate.now_eval := 1704073050000;
     PolicyGate.now_load := 1704073050001;
     PolicyGate.audit_date := "2024-01-01";
     PolicyGate.audit_dir_exists := true;
     PolicyGate.mkdir_audit_dir := Normal tt;
     PolicyGate.append_audit_file := Normal tt;
     PolicyGate.regexp_test := fun _ _ => None;
     PolicyGate.path_basename := after_last_slash |}.

Definition with_policy (policy : PolicyGate.PolicyConfig) : PolicyGate.World :=
  gate_world (PolicyGate.Present (Normal 1704000000000) (Normal (Some policy))).

Definition broken_policy_file : PolicyGate.PolicyFile :=
  PolicyGate.Present (Normal 1704000000000)
    (Throw (ErrorObject "Unexpected token } in JSON at position 17")).

End Scenario.

(* ====================================================================== *)
(** * Variations of the policy gate's world                                *)
(* ====================================================================== *)

Module GateWorlds.
Import PolicyGate.

(** [w] with another state of the audit directory and audit file. *)
Definition with_audit (w : World) (date : string) (dir_exists : bool)
    (mkdir append : Completion unit) : World :=
  {| env_GANESH_POLICY_GATE := env_GANESH_POLICY_GATE w;
     policy_file := policy_file w;
     now_eval := now_eval w;
     now_load := now_load w;
     audit_date := date;
     audit_dir_exists := dir_exists;
     mkdir_audit_dir := mkdir;
     append_audit_file := append;
     regexp_test := regexp_test w;
     path_basename := path_basename w |}.

(** [w] with another policy file. *)
Definition with_policy_file (w : World) (file : PolicyFile) : World :=
  {| env_GANESH_POLICY_GATE := env_GANESH_POLICY_GATE w;
     policy_file := file;
     now_eval := now_eval w;
     now_load := now_load w;
     audit_date := audit_date w;
     audit_dir_exists := audit_dir_exists w;
     mkdir_audit_dir := mkdir_audit_dir w;
     append_audit_file := append_audit_file w;
     regexp_test := regexp_test w;
     path_basename := path_basename w |}.

(** The audit directory is known, exists or can be made, and the audit
    file can be appended to. *)
Definition audit_works (st : State) (w : World) : Prop :=
  (auditDirChecked st = true \/ audit_dir_exists w = true
   \/ exists u, mkdir_audit_dir w = Normal u)
  /\ exists u, append_audit_file w = Normal u.

(** The override switches the gate off, whatever the case of its letters. *)
Definition switched_off (w : World) : Prop :=
  exists e, env_GANESH_POLICY_GATE w = Some e
            /\ In (toLowerCase e) ["0"; "false"; "off"].

Definition switched_on (w : World) : Prop :=
  exists e, env_GANESH_POLICY_GATE w = Some e
            /\ In (toLowerCase e) ["1"; "true"; "on"].

(** A policy file that [loadPolicy] cannot get a policy from, given the
    modification time it remembers. *)
Definition unloadable (remembered : Z) (f : PolicyFile) : Prop :=
  f = Absent
  \/ (exists e content, f = Present (Throw e) content)
  \/ (exists mtime e, f = Present (Normal mtime) (Throw e) /\ mtime <> remembered).

(** The audit record of a result. *)
Definition audit_of (w : World) (command : string) (opts : Options)
    (r : PolicyGateResult) : AuditEntry :=
  {| timestamp := now_eval w; audit_command := command;
     audit_decision := decision r; audit_reason := reason r;
     audit_matchedRule := matchedRule r;
     audit_agentId := agentId opts; audit_sessionKey := sessionKey opts;
     audit_host := host opts |}.

(** The module variables ten seconds after the policy of the priority
    test was loaded. *)
Definition git_cached : State :=
  {| cachedPolicy := Some Scenario.git_policy; cachedPolicyMtime := 1704000000000;
     lastPolicyCheck := 1704073040000; auditDirChecked := true |}.

(** The same variables with a check that lies 40 seconds back. *)
Definition git_stale : State :=
  {| cachedPolicy := Some Scenario.git_policy; cachedPolicyMtime := 1704000000000;
     lastPolicyCheck := 1704073010000; auditDirChecked := true |}.

(** The policy file after an edit that left it unparsable. *)
Definition broken_after_edit : PolicyFile :=
  Present (Normal 1704070000000)
    (Throw (ErrorObject "Unexpected end of JSON input")).

(** A condition on a field. *)
Definition condition (f : string) (o : Op) (v : ConditionValue) : PolicyCondition :=
  {| cond_field := f; op := o; cond_value := v |}.

(** A rule meant for long command lines. *)
Definition long_command_rule : PolicyRule :=
  {| id := "long-commands"; description := None; subject := "command";
     conditions := [condition "command.length" OpGt (CNumber 5)];
     action := "deny"; requiredTier := None; priority := Some 50%Z;
     enabled := None |}.

(** ** Shapes of command lines *)

(** A character that is neither white space nor an equals sign. *)
Definition word_char (c : ascii) : bool := not_space c && negb (code c =? 61)%Z.

(** A first word: not empty, not starting with a hyphen, free of white
    space and equals signs. *)
Definition plain_word (word : string) : bool :=
  match word with
  | EmptyString => false
  | String c _ => negb (code c =? 45)%Z && all_chars word_char word
  end.

(** What may follow a word: nothing, or text that starts with white
    space. *)
Definition starts_with_space (rest : string) : bool :=
  match rest with
  | EmptyString => true
  | String c _ => is_space c
  end.

(** A [VAR=value] pair as the pattern of [extractBaseCommand] sees it. *)
Definition assignment_ok (a : string * string) : bool :=
  Resolver.word_plus a.1 && negb (is_empty a.2) && all_chars not_space a.2.

(** The assignments written in front of a command line, one space after
    each. *)
Fixpoint with_assignments (assigns : list (string * string)) (line : string) : string :=
  match assigns with
  | [] => line
  | (var, val) :: more =>
      var +:+ "=" +:+ val +:+ " " +:+ with_assignments more line
  end.

(** Nothing, or a first character refused by [p]. *)
Definition stops (p : ascii -> bool) (b : string) : Prop :=
  match b with
  | EmptyString => True
  | String c _ => p c = false
  end.

(** The flags written in front of a command line, each after a hyphen and
    followed by one space. *)
Fixpoint with_flags (flags : list string) (line : string) : string :=
  match flags with
  | [] => line
  | flag :: more => "-" +:+ flag +:+ " " +:+ with_flags more line
  end.

(** The rest of a flag of [sudo] after its hyphen: at least one
    character, none of them white space. *)
Definition flag_ok (flag : string) : bool :=
  negb (is_empty flag) && all_chars not_space flag.

End GateWorlds.

(* ====================================================================== *)
(** * Situations of the resolver                                           *)
(* ====================================================================== *)

Module ResolverCases.
Import Resolver.

(** A parsed reference as it is written after the backend prefix. *)
Definition written (r : SecretRef) : string :=
  match field r with
  | Some f => path r +:+ "#" +:+ f
  | None => path r
  end.

(** The cache has no entry for the reference that is younger than the
    TTL at the clock reading [now]. *)
Definition cache_miss (st : State) (now : Z) (ref : string) : Prop :=
  match secretsCache st !! ref with
  | Some e => (CACHE_TTL_MS <= now - resolvedAt e)%Z
  | None => True
  end.

(** Every backend object the module holds was made by [new PassBackend]. *)
Definition pass_instances (st : State) : Prop :=
  forall t b, backendInstances st !! t = Some b ->
    exists w c, b = PassBackend.as_backend (PassBackend.new w c).

(** What makes [PassBackend.isAvailable] answer no: [which pass] fails,
    the store directory is missing, or it holds no [.gpg-id]. *)
Definition store_unusable (w : World) (storePath : string) : Prop :=
  (exists e, exec w {| command := "which pass"; exec_env := None; timeout := None |}
             = Throw e)
  \/ existsSync w storePath = false
  \/ existsSync w (path_join w storePath ".gpg-id") = false.

Definition pass_config (store : string) : SecretsBackendConfig :=
  {| cfg_backend := "pass";
     cfg_pass := Some {| cfg_storePath := Some store; cfg_gpgPath := None |} |}.

(** A machine with [pass] installed and no password store. *)
Definition no_store_world : World :=
  {| env_PASSWORD_STORE_DIR := None;
     homedir := "/home/operator";
     path_join := fun a b => a +:+ "/" +:+ b;
     existsSync := fun _ => false;
     exec := fun _ => Normal "/usr/bin/pass" |}.

Definition no_store_call : Env :=
  {| now_check := 1000; now_store := 1200; world := no_store_world |}.

End ResolverCases.

(* ====================================================================== *)
(** * Ways of writing a shared secret                                      *)
(* ====================================================================== *)

Module TotpCases.
Import Totp.

(** A character that leaves no trace in the decoded secret: not an ASCII
    letter, not a digit from 2 to 7, and not the sharp s, which
    [toUpperCase] turns into two capital S. *)
Definition is_separator (c : ascii) : bool :=
  negb (is_upper c || is_lower c || in_range 50 55 c || (code c =? 223)%Z).

End TotpCases.

(* ====================================================================== *)
(** * Situations of the vault backend                                      *)
(* ====================================================================== *)

Module GaneshCases.
Import Ganesh.

(** The same machine with another vault directory. *)
Definition with_disk (w : World) (d : Disk) : World :=
  {| disk := d;
     env_GANESH_MFA_CHAT_ID := env_GANESH_MFA_CHAT_ID w;
     age_keygen := age_keygen w;
     age_encrypt := age_encrypt w;
     write_manifest := write_manifest w;
     clock := clock w;
     sendTelegramApprovalRequest := sendTelegramApprovalRequest w;
     pollTelegramApproval := pollTelegramApproval w |}.

(** A machine on which [age] cannot write [secrets.age]. *)
Definition vault_world_read_only : World :=
  {| disk := Scenario.vault_disk;
     env_GANESH_MFA_CHAT_ID := None;
     age_keygen := fun _ => Normal "age1qqq";
     age_encrypt := fun _ =>
       (Throw (ErrorObject "Command failed: age: permission denied"),
        secrets_age Scenario.vault_disk);
     write_manifest := Throw (ErrorObject "EACCES: permission denied");
     clock := 1704073200000;
     sendTelegramApprovalRequest := sendTelegramApprovalRequest Scenario.vault_world;
     pollTelegramApproval := pollTelegramApproval Scenario.vault_world |}.

(** Entries that all have a value. *)
Definition values (entries : list (string * string)) : list (string * StoredSecret) :=
  (fun e : string * string => (e.1, ValueEntry e.2)) <$> entries.

(** The map that the loop of [loadSecrets] builds from such entries. *)
Definition loaded (entries : list (string * string)) : gmap string string :=
  foldl (fun m (e : string * string) => <[e.1 := e.2]> m) ∅ entries.

(** A vault file in which the second entry is [null]. *)
Definition vault_disk_null_entry : Disk :=
  with_secrets Scenario.vault_disk
    (Normal (StoreSecrets [("api/key", ValueEntry "k-123"); ("db/password", NullEntry);
                           ("openclaw/telegram-bot-token", ValueEntry "42:bot")])).

(** What comes back for the value [s] when the [echo] of dash halves the
    doubled backslashes of the JSON text: a backslash followed by [t] is
    parsed as a tabulator. *)
Fixpoint echo_tabs (s : string) : string :=
  match s with
  | String a ((String b rest) as tail) =>
      if ((code a =? 92) && (code b =? 116))%Z
      then String (ascii_of_N 9) (echo_tabs rest)
      else String a (echo_tabs tail)
  | _ => s
  end.

(** A machine whose shell rewrites the text on its way to [age]. *)
Definition vault_world_dash : World :=
  {| disk := Scenario.vault_disk;
     env_GANESH_MFA_CHAT_ID := None;
     age_keygen := fun _ => Normal "age1qqq";
     age_encrypt := fun m => (Normal tt, Normal (verbatim (echo_tabs <$> m)));
     write_manifest := Normal tt;
     clock := 1704073300000;
     sendTelegramApprovalRequest := sendTelegramApprovalRequest Scenario.vault_world;
     pollTelegramApproval := pollTelegramApproval Scenario.vault_world |}.

(** The backslash, and a value with a backslash followed by [t]. *)
Definition backslash : string := String (ascii_of_N 92) EmptyString.

Definition windows_path : string := "C:" +:+ backslash +:+ "tools".

(** The vault directory of the scenario before MFA was set up: no
    [totp.key]. *)
Definition vault_disk_without_totp : Disk :=
  {| identity_key := identity_key Scenario.vault_disk;
     manifest_json := manifest_json Scenario.vault_disk;
     secrets_age := secrets_age Scenario.vault_disk;
     mfa_config_json := None; totp_key := None |}.

(** The unlocked vault of the scenario under a manifest that files the
    bot token itself under tier 3. *)
Definition token_under_tier3 : State :=
  {| unlocked := true; secretKey := secretKey Scenario.unlocked_vault;
     publicKey := publicKey Scenario.unlocked_vault;
     secretsCache := secretsCache Scenario.unlocked_vault;
     manifest :=
       Some {| version := 1;
               groups := [{| id := "ops"; name := "Operations"; tier := 3;
                             secrets := [bot_token_key] |}];
               defaultTier := 1; lastModified := None |} |}.

End GaneshCases.

(* ====================================================================== *)
(** * src/secrets/backends/ganesh.ts: waiting for the operator's answer   *)
(* ====================================================================== *)

Module Telegram.
Import Ganesh.

(** A [callback_query] of an update, as far as the poll looks at it. The
    updates are taken as their type annotation has them: a message, when
    present, has a chat, and [data], when present, is a string. *)
Record Callback : Type := {
  callback_id : string;
  (** [String(callback.message?.chat.id)] *)
  chat_id_text : string;
  callback_data : option string
}.

Record Update : Type := {
  update_id : Z;
  callback_query : option Callback
}.

(** How one [getUpdates] request ended: [fetch] or [response.json()]
    threw, the answer had [ok] false, or it carried [data.result || []]. *)
Inductive Fetched : Type :=
| FetchThrows
| FetchNotOk
| FetchOk (result : list Update).

(** One test of the loop condition: [Date.now()] there, and the request
    made when the test lets the loop go on. *)
Record Round : Type := {
  round_clock : Z;
  fetched : Fetched
}.

(** The best-effort calls made after a button press was recognised. *)
Inductive Reply : Type :=
| AnswerCallbackQuery (callbackQueryId : string) (approve : bool)
| EditMessage (chat : string) (messageId : Z) (approve : bool).

Definition not_colon (c : ascii) : bool := negb (code c =? 58)%Z.

(** [data.split(":")[1]]: [undefined] when [data] has no colon. *)
Definition second_segment (data : string) : option string :=
  match drop_while not_colon data with
  | String _ rest => Some (take_while not_colon rest)
  | EmptyString => None
  end.

(** The [for] loop over the updates of one answer: the first button
    press that settles the request, with the id of its callback query. *)
Fixpoint scan (config : TelegramMfaConfig) (requestId : string) (updates : list Update)
  : option (bool * string) :=
  match updates with
  | [] => None
  | update :: rest =>
      match callback_query update with
      | None => scan config requestId rest
      | Some callback =>
          match callback_data callback with
          | None => scan config requestId rest
          | Some data =>
              if is_empty data then scan config requestId rest
              else if negb (String.eqb (chat_id_text callback) (chatId config))
              then scan config requestId rest
              else if starts_with (requestId +:+ ":") data then
                match second_segment data with
                | Some action =>
                    if String.eqb action "approve" then Some (true, callback_id callback)
                    else if String.eqb action "deny" then Some (false, callback_id callback)
                    else scan config requestId rest
                | None => scan config requestId rest
                end
              else scan config requestId rest
          end
      end
  end.

(** [pollTelegramApproval(config, requestMessageId, requestId, secretId)]
    started at the clock reading [startTime], against the answers of the
    outside world in the order they are asked for. [None] when the
    answers run out before the loop has ended. *)
Fixpoint pollTelegramApproval (config : TelegramMfaConfig) (startTime : Z)
    (requestMessageId : Z) (requestId secretId : string) (rounds : list Round)
  : option (PollResult * list Reply) :=
  match rounds with
  | [] => None
  | round :: rest =>
      let timeoutMs := default 60000%Z (timeoutMs config) in
      if (round_clock round - startTime <? timeoutMs)%Z then
        match fetched round with
        | FetchOk result =>
            match scan config requestId result with
            | Some (true, callbackId) =>
                Some ({| approved := true; poll_error := None |},
                      [AnswerCallbackQuery callbackId true;
                       EditMessage (chatId config) requestMessageId true])
            | Some (false, callbackId) =>
                Some ({| approved := false; poll_error := Some "Request denied by user" |},
                      [AnswerCallbackQuery callbackId false;
                       EditMessage (chatId config) requestMessageId false])
            | None =>
                pollTelegramApproval config startTime requestMessageId requestId
                  secretId rest
            end
        | _ =>
            pollTelegramApproval config startTime requestMessageId requestId secretId rest
        end
      else
        Some ({| approved := false; poll_error := Some "Approval request timed out" |}, [])
  end.

(** A button press that approves the request [requestId] in the chat of
    the configuration. *)
Definition approving_press (config : TelegramMfaConfig) (requestId : string)
    (update : Update) : Prop :=
  exists callback data,
    callback_query update = Some callback
    /\ callback_data callback = Some data
    /\ chat_id_text callback = chatId config
    /\ starts_with (requestId +:+ ":") data = true
    /\ second_segment data = Some "approve".

Definition operator_config : TelegramMfaConfig :=
  {| botToken := "42:bot"; chatId := "8036631576"; totpSecret := "JBSWY3DPEHPK3PXP";
     timeoutMs := Some 60000%Z |}.

Definition press (chat data : string) : Update :=
  {| update_id := 900;
     callback_query := Some {| callback_id := "cb-1"; chat_id_text := chat;
                               callback_data := Some data |} |}.

(** A network fault, then an answer in which a stranger presses Approve
    before the operator does. *)
Definition operator_approves : list Round :=
  [{| round_clock := 1704073050000; fetched := FetchThrows |};
   {| round_clock := 1704073052000;
      fetched := FetchOk [press "555" "mfa_1704073050000_k3x9zq:approve";
                          press "8036631576" "mfa_1704073050000_k3x9zq:approve"] |}].

End Telegram.

(* ====================================================================== *)
(** * src/secrets/auth-integration.ts                                      *)
(* ====================================================================== *)

Module AuthIntegration.
Import Resolver.

(** [CredentialResolutionResult] *)
Record CredentialResolutionResult : Type := {
  cred_value : string;
  fromRef : bool;
  cred_error : option string
}.

(** [v && typeof v === "string" && v.trim()] as a condition. *)
Definition given (v : option string) : bool :=
  match v with
  | Some s => negb (is_empty s) && negb (is_empty (trim s))
  | None => false
  end.

(** [`${x}`] for a string that may be [undefined]. *)
Definition shown (x : option string) : string := default "undefined" x.

(** [resolveCredentialValue(directValue, refValue, config)]: how the
    promise settles, the resolver's variables afterwards, the backend
    calls made and the console warnings. *)
Definition resolveCredentialValue (st : State) (env : Env)
    (directValue refValue : option string) (config : option SecretsBackendConfig)
  : Completion (option CredentialResolutionResult) * State * list BackendCall
    * list string :=
  if given refValue then
    let ref := default EmptyString refValue in
    let '(outcome, st1, calls) := resolveSecret st env ref config in
    match outcome with
    | Throw e => (Throw e, st1, calls, [])
    | Normal result =>
        if ok result && negb (is_empty (default EmptyString (value result))) then
          (Normal (Some {| cred_value := default EmptyString (value result);
                           fromRef := true; cred_error := None |}),
           st1, calls, [])
        else if given directValue then
          (Normal (Some {| cred_value := default EmptyString directValue;
                           fromRef := false; cred_error := error result |}),
           st1, calls,
           ["[secrets] Failed to resolve ref " +:+ quoted ref
              +:+ ", falling back to direct value: " +:+ shown (error result)])
        else (Normal None, st1, calls, [])
    end
  else if given directValue then
    (Normal (Some {| cred_value := default EmptyString directValue;
                     fromRef := false; cred_error := None |}),
     st, [], [])
  else (Normal None, st, [], []).

(** [ApiKeyCredentialWithRef] and [TokenCredentialWithRef], as far as
    they are read. *)
Record ApiKeyCredentialWithRef : Type := {
  key : string;
  keyRef : option string
}.

Record TokenCredentialWithRef : Type := {
  token : string;
  tokenRef : option string
}.

(** [x?.trim()] as a condition. *)
Definition trims_to_something (x : option string) : bool :=
  match x with
  | Some s => negb (is_empty (trim s))
  | None => false
  end.

(** [hasSecretRef(cred)] *)
Definition hasSecretRef (keyRef tokenRef : option string) : bool :=
  trims_to_something keyRef || trims_to_something tokenRef.

(** [result?.value ?? null] *)
Definition value_or_null (r : option CredentialResolutionResult) : option string :=
  option_map cred_value r.

(** [resolveApiKey(cred, config)] *)
Definition resolveApiKey (st : State) (env : Env) (cred : ApiKeyCredentialWithRef)
    (config : option SecretsBackendConfig)
  : Completion (option string) * State * list BackendCall * list string :=
  let '(result, st1, calls, warned) :=
    resolveCredentialValue st env (Some (key cred)) (keyRef cred) config in
  (r ← result; Normal (value_or_null r), st1, calls, warned).

(** [resolveToken(cred, config)] *)
Definition resolveToken (st : State) (env : Env) (cred : TokenCredentialWithRef)
    (config : option SecretsBackendConfig)
  : Completion (option string) * State * list BackendCall * list string :=
  let '(result, st1, calls, warned) :=
    resolveCredentialValue st env (Some (token cred)) (tokenRef cred) config in
  (r ← result; Normal (value_or_null r), st1, calls, warned).

End AuthIntegration.

(* ====================================================================== *)
(** * src/secrets/resolver.ts: [resolveSecretRefs]                         *)
(* ====================================================================== *)

Module SecretRefs.
Import Resolver.

(** The value of a property: a string, the object that [_secretErrors]
    is set to, or anything else. *)
Inductive PropertyValue : Type :=
| VString (s : string)
| VErrors (errors : gmap string string)
| VOther (shown : string).

(** [s.endsWith(suffix)] *)
Fixpoint ends_with (suffix s : string) : bool :=
  String.eqb suffix s
  || match s with
     | EmptyString => false
     | String _ s' => ends_with suffix s'
     end.

(** [key.slice(0, -3)] *)
Definition targetKey_of (key : string) : string := take (String.length key - 3) key.

(** [o[k] = v] on a plain object for a string [v]. Without an own
    property of that name, [__proto__] is the accessor of
    [Object.prototype], whose setter ignores a string. *)
Definition assign (o : gmap string PropertyValue) (k : string) (v : PropertyValue)
  : gmap string PropertyValue :=
  if String.eqb k "__proto__" then
    match o !! k with
    | Some _ => <[k := v]> o
    | None => o
    end
  else <[k := v]> o.

(** The variables of the loop: [result], [errors], and the resolver's
    state and backend calls so far. *)
Record Loop : Type := {
  result : gmap string PropertyValue;
  errors : gmap string string;
  resolver : State;
  calls : list BackendCall
}.

(** The [for] loop over [Object.entries(obj)]; [env_of key] is the
    outside world during the [resolveSecret] call made for [key]. *)
Fixpoint refs_loop (env_of : string -> Env) (config : option SecretsBackendConfig)
    (entries : list (string * PropertyValue)) (acc : Loop) : Completion Loop :=
  match entries with
  | [] => Normal acc
  | (key, VString value) :: rest =>
      if ends_with "Ref" key then
        let targetKey := targetKey_of key in
        let '(outcome, st1, cs) := resolveSecret (resolver acc) (env_of key) value config in
        resolution ← outcome;
        refs_loop env_of config rest
          (if ok resolution
              && negb (is_empty (default EmptyString (Types.value resolution)))
           then {| result := assign (result acc) targetKey
                               (VString (default EmptyString (Types.value resolution)));
                   errors := errors acc; resolver := st1;
                   calls := (calls acc ++ cs)%list |}
           else {| result := result acc;
                   errors := <[key := opt_or_else (error resolution) "Unknown error"]>
                               (errors acc);
                   resolver := st1; calls := (calls acc ++ cs)%list |})
      else refs_loop env_of config rest acc
  | _ :: rest => refs_loop env_of config rest acc
  end.

(** [resolveSecretRefs(obj, config)] for an object given by its entries
    in the order of [Object.entries]: the object returned, the resolver's
    state afterwards and the backend calls made. *)
Definition resolveSecretRefs (st : State) (env_of : string -> Env)
    (obj : list (string * PropertyValue)) (config : option SecretsBackendConfig)
  : Completion (gmap string PropertyValue * State * list BackendCall) :=
  final ← refs_loop env_of config obj
             {| result := list_to_map obj; errors := ∅; resolver := st; calls := [] |};
  Normal (if decide (errors final = ∅) then result final
          else <["_secretErrors" := VErrors (errors final)]> (result final),
          resolver final, calls final).

(** An entry whose key ends in [Ref] and whose value is a string. *)
Definition is_ref_entry (entry : string * PropertyValue) : bool :=
  match entry with
  | (key, VString _) => ends_with "Ref" key
  | _ => false
  end.

(** A configuration object with a token reference that resolves and an
    API key reference for a backend that does not exist. *)
Definition account : list (string * PropertyValue) :=
  [("name", VString "ops"); ("tokenRef", VString "pass:openclaw/token");
   ("apiKeyRef", VString "vault:secret/data/app#api_key"); ("retries", VOther "3")].

End SecretRefs.

(* ====================================================================== *)
(** * What a first line and its trimmed text are                           *)
(* ====================================================================== *)

Module PassCases.

(** [line] is the first line of [output]: it holds no line feed, and the
    output is the line alone or the line, a line feed and more. *)
Definition first_line_of (line output : string) : Prop :=
  all_chars not_lf line = true
  /\ (output = line \/ exists rest, output = line +:+ lf +:+ rest).

Definition first_char (s : string) : option ascii :=
  match s with
  | EmptyString => None
  | String c _ => Some c
  end.

Fixpoint last_char (s : string) : option ascii :=
  match s with
  | EmptyString => None
  | String c EmptyString => Some c
  | String _ s' => last_char s'
  end.

(** A character that is there and is not white space. *)
Definition solid (c : option ascii) : bool :=
  match c with
  | Some c => negb (is_space c)
  | None => false
  end.

(** [text] is [line] without the white space around it: it begins and
    ends with characters that are not white space, and the line is the
    text between two runs of white space. *)
Definition trimmed_of (text line : string) : Prop :=
  solid (first_char text) = true
  /\ solid (last_char text) = true
  /\ exists l r, line = l +:+ text +:+ r
                 /\ all_chars is_space l = true /\ all_chars is_space r = true.

End PassCases.

(* ====================================================================== *)
(** * Properties of the string helpers                                     *)
(* ====================================================================== *)

Lemma append_nil (s : string) : EmptyString +:+ s = s.
Proof. reflexivity. Qed.

Lemma append_cons (c : ascii) (a b : string) : String c a +:+ b = String c (a +:+ b).
Proof. reflexivity. Qed.

Lemma strip_prefix_app (p s : string) : strip_prefix p (p +:+ s) = Some s.
Proof.
  induction p as [|c p IH]; simpl; [reflexivity|].
  now rewrite Ascii.eqb_refl.
Qed.

Lemma starts_with_strip (p s : string) :
  starts_with p s = false -> strip_prefix p s = None.
Proof.
  revert s; induction p as [|c p IH]; intros [|d s]; simpl; try discriminate; auto.
  destruct (Ascii.eqb c d); simpl; auto.
Qed.

Lemma all_chars_app (q : ascii -> bool) (a b : string) :
  all_chars q (a +:+ b) = all_chars q a && all_chars q b.
Proof.
  induction a as [|c a IH]; simpl; [reflexivity|].
  now rewrite IH, andb_assoc.
Qed.

Lemma is_empty_false_app (a b : string) :
  is_empty a = false -> is_empty (a +:+ b) = false.
Proof. destruct a; simpl; [discriminate | reflexivity]. Qed.

Ltac norm_append := rewrite ?append_cons, ?append_nil.

Lemma append_assoc (a b c : string) : (a +:+ b) +:+ c = a +:+ (b +:+ c).
Proof.
  induction a as [|x a IH]; [reflexivity|].
  rewrite !append_cons. f_equal. exact IH.
Qed.

(* ====================================================================== *)
(** * Properties of the secrets resolver                                   *)
(* ====================================================================== *)

Module ResolverFacts.
Import Resolver.

(** A string without [#] has no last [#]. *)
Lemma split_last_hash_none (s : string) :
  all_chars (fun c => negb (code c =? 35)%Z) s = true -> split_last_hash s = None.
Proof.
  induction s as [|c s IH]; simpl; [reflexivity|].
  intros [Hc Hs]%andb_true_iff.
  rewrite (IH Hs).
  apply negb_true_iff in Hc. now rewrite Hc.
Qed.

Lemma word_is_not_hash (c : ascii) : is_word c = true -> negb (code c =? 35)%Z = true.
Proof.
  unfold is_word, is_upper, is_lower, is_digit, in_range.
  destruct (code c =? 35)%Z eqn:E; [|reflexivity].
  apply Z.eqb_eq in E. rewrite E. discriminate.
Qed.

Lemma all_chars_impl (p q : ascii -> bool) (s : string) :
  (forall c, p c = true -> q c = true) -> all_chars p s = true -> all_chars q s = true.
Proof.
  intros Hpq; induction s as [|c s IH]; simpl; [reflexivity|].
  intros [Hc Hs]%andb_true_iff. now rewrite (Hpq c Hc), (IH Hs).
Qed.

Lemma split_last_hash_app (p f : string) :
  all_chars (fun c => negb (code c =? 35)%Z) f = true ->
  split_last_hash (p +:+ "#" +:+ f) = Some (p, f).
Proof.
  intros Hf. induction p as [|c p IH].
  - norm_append; simpl. now rewrite (split_last_hash_none f Hf).
  - rewrite append_cons; simpl. now rewrite IH.
Qed.

Lemma fieldMatch_app (p f : string) :
  dot_plus p = true -> word_plus f = true ->
  fieldMatch (p +:+ "#" +:+ f) = Some (p, f).
Proof.
  intros Hp Hf. unfold fieldMatch.
  rewrite split_last_hash_app.
  - now rewrite Hp, Hf.
  - apply andb_true_iff in Hf as [_ Hf].
    eapply all_chars_impl; [apply word_is_not_hash | exact Hf].
Qed.

Lemma fieldMatch_no_hash (s : string) :
  all_chars (fun c => negb (code c =? 35)%Z) s = true -> fieldMatch s = None.
Proof. intros H. unfold fieldMatch. now rewrite split_last_hash_none. Qed.

Lemma dot_plus_app (a b : string) :
  dot_plus a = true -> dot_plus b = true -> dot_plus (a +:+ b) = true.
Proof.
  unfold dot_plus. intros [Ha1 Ha2]%andb_true_iff [_ Hb2]%andb_true_iff.
  rewrite all_chars_app, Ha2, Hb2.
  apply negb_true_iff in Ha1. now rewrite (is_empty_false_app a b Ha1).
Qed.

Lemma dot_plus_field (p f : string) :
  dot_plus p = true -> word_plus f = true -> dot_plus (p +:+ "#" +:+ f) = true.
Proof.
  intros Hp Hf. apply dot_plus_app; [exact Hp|].
  unfold dot_plus; norm_append; simpl.
  apply andb_true_iff in Hf as [_ Hf].
  eapply all_chars_impl; [|exact Hf].
  intros c Hc. unfold is_line_terminator.
  unfold is_word, is_upper, is_lower, is_digit, in_range in Hc.
  destruct (code c =? 10)%Z eqn:E1; [apply Z.eqb_eq in E1; rewrite E1 in Hc; discriminate|].
  destruct (code c =? 13)%Z eqn:E2; [apply Z.eqb_eq in E2; rewrite E2 in Hc; discriminate|].
  reflexivity.
Qed.

(** The prefix pattern recovers a listed backend name and the rest. *)
Lemma prefixMatch_app (b rest : string) :
  In b prefixes -> dot_plus rest = true ->
  prefixMatch (b +:+ ":" +:+ rest) = Some (b, rest).
Proof.
  intros Hb Hrest. unfold prefixMatch, prefixes in *.
  simpl in Hb.
  destruct Hb as [<-|[<-|[<-|[<-|[<-|[]]]]]]; norm_append; simpl; now rewrite Hrest.
Qed.

(** A string that begins with none of the five prefixes is not matched. *)
Lemma prefixMatch_none (ref : string) :
  (forall b, In b prefixes -> starts_with (b +:+ ":") ref = false) ->
  prefixMatch ref = None.
Proof.
  intros H. unfold prefixMatch.
  assert (G : forall alts, (forall b, In b alts -> In b prefixes) ->
                           try_prefixes alts ref = None).
  { induction alts as [|a alts IH]; intros Hin; simpl; [reflexivity|].
    rewrite starts_with_strip; [apply IH; intros; apply Hin; now right|].
    apply H, Hin. now left. }
  apply G. auto.
Qed.

End ResolverFacts.

Module ResolverSpec.
Import Resolver ResolverFacts.

(** The cases of the parser's own unit tests. *)
Example parses_pass_reference :
  parseSecretRef "pass:openclaw/telegram-token" "file"
  = {| backend := "pass"; path := "openclaw/telegram-token"; field := None |}.
Proof. reflexivity. Qed.

Example parses_vault_reference_with_field :
  parseSecretRef "vault:secret/data/app#api_key" "file"
  = {| backend := "vault"; path := "secret/data/app"; field := Some "api_key" |}.
Proof. reflexivity. Qed.

Example parses_env_reference :
  parseSecretRef "env:ANTHROPIC_API_KEY" "file"
  = {| backend := "env"; path := "ANTHROPIC_API_KEY"; field := None |}.
Proof. reflexivity. Qed.

Example uses_default_backend_for_unprefixed_refs :
  parseSecretRef "openclaw/token" "pass"
  = {| backend := "pass"; path := "openclaw/token"; field := None |}.
Proof. reflexivity. Qed.

(** The five prefixes of the pattern. For a backend name among pass,
    vault, keyring, env and file, a non-empty path without line
    terminators and a non-empty field of word characters,
    [parseSecretRef] of [backend:path#field] is exactly
    [{backend, path, field}]; when the path has no [#], [backend:path]
    parses to that backend and path with no field; and a string that
    starts with none of the five prefixes gets the default backend handed
    in by the caller, with the whole string as its path when it has no
    [#]. *)
Theorem parseSecretRef_recovers (b p f d : string) :
  In b ["pass"; "vault"; "keyring"; "env"; "file"] ->
  dot_plus p = true ->
  word_plus f = true ->
  parseSecretRef (b +:+ ":" +:+ p +:+ "#" +:+ f) d
    = {| backend := b; path := p; field := Some f |}
  /\ (no_hash p = true ->
      parseSecretRef (b +:+ ":" +:+ p) d = {| backend := b; path := p; field := None |})
  /\ (forall ref,
        (forall b', In b' ["pass"; "vault"; "keyring"; "env"; "file"] ->
                    starts_with (b' +:+ ":") ref = false) ->
        backend (parseSecretRef ref d) = d
        /\ (no_hash ref = true ->
            parseSecretRef ref d = {| backend := d; path := ref; field := None |})).
Proof.
  intros Hb Hp Hf. repeat split.
  - unfold parseSecretRef.
    rewrite (prefixMatch_app b (p +:+ "#" +:+ f) Hb (dot_plus_field p f Hp Hf)).
    now rewrite (fieldMatch_app p f Hp Hf).
  - intros Hn. unfold parseSecretRef.
    rewrite (prefixMatch_app b p Hb Hp).
    now rewrite (fieldMatch_no_hash p Hn).
  - unfold parseSecretRef. rewrite (prefixMatch_none ref H).
    now destruct (fieldMatch ref) as [[? ?]|].
  - intros Hn. unfold parseSecretRef. rewrite (prefixMatch_none ref H).
    now rewrite (fieldMatch_no_hash ref Hn).
Qed.

Lemma parseSecretRef_recovers_witness :
  parseSecretRef "keyring:openclaw/telegram#bot_token" "pass"
    = {| backend := "keyring"; path := "openclaw/telegram"; field := Some "bot_token" |}
  /\ parseSecretRef "keyring:openclaw/telegram" "pass"
    = {| backend := "keyring"; path := "openclaw/telegram"; field := None |}
  /\ parseSecretRef "openclaw/token" "pass"
    = {| backend := "pass"; path := "openclaw/token"; field := None |}.
Proof.
  pose proof (parseSecretRef_recovers "keyring" "openclaw/telegram" "bot_token" "pass"
                ltac:(simpl; tauto) eq_refl eq_refl) as (H1 & H2 & H3).
  split; [exact H1|].
  split; [exact (H2 eq_refl)|].
  refine (proj2 (H3 "openclaw/token" _) eq_refl).
  intros b' Hb'. simpl in Hb'.
  destruct Hb' as [<-|[<-|[<-|[<-|[<-|[]]]]]]; reflexivity.
Defined.

(** The shapes matter: a field that is not made of word characters stays
    in the path, and so does a field after an empty path; a path with a
    line feed in it is not matched by the prefix pattern at all. *)
Example parseSecretRef_shape_matters :
  parseSecretRef "vault:secret/data/app#api-key" "pass"
  = {| backend := "vault"; path := "secret/data/app#api-key"; field := None |}
  /\ parseSecretRef "pass:#user" "file"
     = {| backend := "pass"; path := "#user"; field := None |}
  /\ parseSecretRef ("pass:notes" +:+ lf +:+ "line2#user") "file"
     = {| backend := "file"; path := "pass:notes" +:+ lf +:+ "line2#user"; field := None |}.
Proof. repeat split. Qed.

(** C4 does not hold of the code for the sixth backend name that
    [SecretsBackendType] declares. The prefix pattern of [parseSecretRef]
    lists pass, vault, keyring, env and file only, so for every path and
    field of the accepted shape a reference [ganesh:path#field] is not
    split at its prefix: the backend is the caller's default and the path
    is the string [ganesh:path], which is never the path that was
    written; without a field the whole reference is the path. The same
    path and field behind any of the five listed names are recovered
    exactly. *)
Theorem parseSecretRef_misses_ganesh (p f d : string) :
  dot_plus p = true ->
  word_plus f = true ->
  parseSecretRef ("ganesh:" +:+ p +:+ "#" +:+ f) d
    = {| backend := d; path := "ganesh:" +:+ p; field := Some f |}
  /\ path (parseSecretRef ("ganesh:" +:+ p +:+ "#" +:+ f) d) <> p
  /\ (no_hash p = true ->
      parseSecretRef ("ganesh:" +:+ p) d
      = {| backend := d; path := "ganesh:" +:+ p; field := None |})
  /\ (forall b, In b ["pass"; "vault"; "keyring"; "env"; "file"] ->
        parseSecretRef (b +:+ ":" +:+ p +:+ "#" +:+ f) d
        = {| backend := b; path := p; field := Some f |}).
Proof.
  intros Hp Hf.
  assert (Hnone : forall rest, prefixMatch ("ganesh:" +:+ rest) = None).
  { intros rest. apply prefixMatch_none. intros b Hb. simpl in Hb.
    destruct Hb as [<-|[<-|[<-|[<-|[<-|[]]]]]]; reflexivity. }
  assert (Hpath : dot_plus ("ganesh:" +:+ p) = true)
    by (apply dot_plus_app; [reflexivity | exact Hp]).
  assert (Hrun : parseSecretRef ("ganesh:" +:+ p +:+ "#" +:+ f) d
                 = {| backend := d; path := "ganesh:" +:+ p; field := Some f |}).
  { unfold parseSecretRef. rewrite Hnone.
    replace ("ganesh:" +:+ p +:+ "#" +:+ f) with (("ganesh:" +:+ p) +:+ "#" +:+ f)
      by reflexivity.
    now rewrite (fieldMatch_app _ f Hpath Hf). }
  split; [exact Hrun|].
  split.
  { rewrite Hrun. cbn [path]. intros Heq.
    apply (f_equal String.length) in Heq. simpl in Heq.
    rewrite append_nil in Heq. lia. }
  split.
  - intros Hn. unfold parseSecretRef. rewrite Hnone.
    rewrite fieldMatch_no_hash; [reflexivity|].
    unfold no_hash in *. rewrite all_chars_app. now rewrite Hn.
  - intros b Hb. unfold parseSecretRef.
    rewrite (prefixMatch_app b (p +:+ "#" +:+ f) Hb (dot_plus_field p f Hp Hf)).
    now rewrite (fieldMatch_app p f Hp Hf).
Qed.

Lemma parseSecretRef_misses_ganesh_witness :
  parseSecretRef "ganesh:openclaw/db-password#user" "pass"
    = {| backend := "pass"; path := "ganesh:openclaw/db-password"; field := Some "user" |}
  /\ parseSecretRef "ganesh:openclaw/telegram-bot-token" "pass"
    = {| backend := "pass"; path := "ganesh:openclaw/telegram-bot-token"; field := None |}
  /\ parseSecretRef "pass:openclaw/db-password#user" "pass"
    = {| backend := "pass"; path := "openclaw/db-password"; field := Some "user" |}.
Proof.
  split.
  - exact (proj1 (parseSecretRef_misses_ganesh "openclaw/db-password" "user" "pass"
                    eq_refl eq_refl)).
  - split.
    + exact (proj1 (proj2 (proj2 (parseSecretRef_misses_ganesh
                                    "openclaw/telegram-bot-token" "x" "pass"
                                    eq_refl eq_refl))) eq_refl).
    + refine (proj2 (proj2 (proj2 (parseSecretRef_misses_ganesh
                                     "openclaw/db-password" "user" "pass"
                                     eq_refl eq_refl))) "pass" _).
      simpl. tauto.
Defined.

(** The reference of the integration test, handed to the resolver with no
    configuration: the [pass] backend is asked for an entry named
    [ganesh:openclaw/telegram-bot-token]. *)
Example resolveSecret_ganesh_reference_asks_pass :
  (resolveSecret initial Scenario.second_call "ganesh:openclaw/telegram-bot-token" None).2
  = [CallIsAvailable "pass"; CallResolve "pass" "ganesh:openclaw/telegram-bot-token" None].
Proof. reflexivity. Qed.

(** A backend that cannot be constructed becomes a failure result. *)
Example resolveSecret_vault_not_implemented :
  (resolveSecret initial Scenario.first_call "vault:secret/data/app#api_key" None).1.1
  = Normal {| ok := false; value := None;
              error := Some "Vault backend not yet implemented"; cached := None |}.
Proof. reflexivity. Qed.

Example resolveSecret_unknown_backend :
  (resolveSecret initial Scenario.first_call "ganesh:openclaw/db-password"
     (Some {| cfg_backend := "ganesh"; cfg_pass := None |})).1.1
  = Normal {| ok := false; value := None;
              error := Some "Unknown secrets backend: ganesh"; cached := None |}.
Proof. reflexivity. Qed.

(** A secret that the store does not hold becomes a failure result and is
    not cached. *)
Example resolveSecret_not_found :
  resolveSecret initial Scenario.second_call "pass:openclaw/none" None
  = (Normal {| ok := false; value := None;
               error := Some "Secret not found: pass:openclaw/none"; cached := None |},
     {| secretsCache := ∅;
        backendInstances :=
          {[ "pass" := PassBackend.as_backend
                         (PassBackend.new Scenario.pass_world_missing None) ]} |},
     [CallIsAvailable "pass"; CallResolve "pass" "openclaw/none" None]).
Proof. reflexivity. Qed.

(** What the [try] block of [resolveSecret] can end in: a successful
    result that went through both backend calls and was cached under the
    reference string, a failure result, or a fault. *)
Lemma resolveSecret_try_cases (st : State) (env : Env) (ref : string)
    (config : option SecretsBackendConfig) :
  let '(outcome, st1, calls) := resolveSecret_try st env ref config in
  (exists v t p f,
      outcome = Normal {| ok := true; value := Some v; error := None; cached := None |}
      /\ secretsCache st1 !! ref = Some {| entry_value := v; resolvedAt := now_store env |}
      /\ calls = [CallIsAvailable t; CallResolve t p f])
  \/ (exists msg, outcome = Normal (failure msg))
  \/ (exists e, outcome = Throw e).
Proof.
  unfold resolveSecret_try.
  destruct (getBackend st (world env) _ config) as [[b|e] st1]; [|right; right; eauto].
  destruct (isAvailable b (world env)) as [[|]|e]; simpl; [| right; left; eauto | right; right; eauto].
  destruct (fst (resolve b (world env) _ _)) as [[v|]|e];
    [left | right; left; eauto | right; right; eauto].
  exists v. do 3 eexists. split; [reflexivity|]. split; [|reflexivity].
  simpl. apply lookup_insert_eq.
Qed.

(** C9. [resolveSecret] settles with a result for every state of the
    module, every answer of the outside world, every reference string and
    every configuration: the promise is never rejected. A result with
    [ok = false] has no [value] and has an [error]; a result with
    [ok = true] has a [value]. *)
Theorem resolveSecret_never_throws (st : State) (env : Env) (ref : string)
    (config : option SecretsBackendConfig) :
  exists r st1 calls,
    resolveSecret st env ref config = (Normal r, st1, calls)
    /\ (ok r = false -> value r = None /\ exists msg, error r = Some msg)
    /\ (ok r = true -> exists v, value r = Some v).
Proof.
  unfold resolveSecret.
  destruct (secretsCache st !! ref) as [c|] eqn:Hc.
  - destruct (now_check env - resolvedAt c <? CACHE_TTL_MS)%Z.
    + do 3 eexists. split; [reflexivity|]. simpl. split; [discriminate | eauto].
    + pose proof (resolveSecret_try_cases st env ref config) as H.
      destruct (resolveSecret_try st env ref config) as [[o st1] calls].
      destruct H as [(v & t & p & f & -> & _ & _) | [(msg & ->) | (e & ->)]];
        do 3 eexists; (split; [reflexivity|]); simpl;
        (split; [try discriminate; eauto | try discriminate; eauto]).
  - pose proof (resolveSecret_try_cases st env ref config) as H.
    destruct (resolveSecret_try st env ref config) as [[o st1] calls].
    destruct H as [(v & t & p & f & -> & _ & _) | [(msg & ->) | (e & ->)]];
      do 3 eexists; (split; [reflexivity|]); simpl;
      (split; [try discriminate; eauto | try discriminate; eauto]).
Qed.


Example first_call_resolves :
  (resolveSecret initial Scenario.first_call Scenario.token_ref None).1.1
  = Normal {| ok := true; value := Some "s3cr3t"; error := None; cached := None |}.
Proof. vm_compute. reflexivity. Qed.


End ResolverSpec.

(* ====================================================================== *)
(** * Properties of the pass backend                                       *)
(* ====================================================================== *)

Module PassFacts.

(** The first line of a text is what precedes its first line feed. *)
Lemma first_line_app (a b : string) :
  all_chars not_lf a = true -> first_line (a +:+ lf +:+ b) = a.
Proof.
  unfold first_line. induction a as [|c a IH]; intros H.
  - reflexivity.
  - rewrite append_cons. simpl in *.
    apply andb_true_iff in H as [Hc Ha].
    rewrite Hc. f_equal. exact (IH Ha).
Qed.

Lemma first_line_single (a : string) :
  all_chars not_lf a = true -> first_line a = a.
Proof.
  unfold first_line. induction a as [|c a IH]; intros H; simpl in *; [reflexivity|].
  apply andb_true_iff in H as [Hc Ha].
  rewrite Hc. f_equal. exact (IH Ha).
Qed.

Lemma drop_while_spaces (l s : string) (c : ascii) :
  all_chars is_space l = true -> is_space c = false ->
  drop_while is_space (l +:+ String c s) = String c s.
Proof.
  intros Hl Hc. induction l as [|d l IH].
  - rewrite append_nil. simpl. now rewrite Hc.
  - rewrite append_cons. simpl in *. apply andb_true_iff in Hl as [Hd Hl].
    rewrite Hd. exact (IH Hl).
Qed.

Lemma drop_while_end_spaces (r : string) :
  all_chars is_space r = true -> drop_while_end is_space r = EmptyString.
Proof.
  induction r as [|c r IH]; simpl; [reflexivity|].
  intros [Hc Hr]%andb_true_iff. now rewrite (IH Hr), Hc.
Qed.

Lemma drop_while_end_keeps (a r : string) (d : ascii) :
  all_chars is_space r = true -> is_space d = false ->
  drop_while_end is_space (a +:+ String d r) = a +:+ String d EmptyString.
Proof.
  intros Hr Hd. induction a as [|c a IH].
  - rewrite !append_nil. simpl. now rewrite (drop_while_end_spaces r Hr), Hd.
  - rewrite !append_cons. simpl. rewrite IH.
    destruct a; reflexivity.
Qed.

(** [trim] removes the white space around a text that begins and ends
    with other characters. *)
Lemma trim_surrounded (l r mid : string) (c d : ascii) :
  all_chars is_space l = true -> all_chars is_space r = true ->
  is_space c = false -> is_space d = false ->
  trim (l +:+ String c (mid +:+ String d r)) = String c (mid +:+ String d EmptyString).
Proof.
  intros Hl Hr Hc Hd. unfold trim.
  rewrite (drop_while_spaces l _ c Hl Hc).
  change (String c (mid +:+ String d r)) with (String c mid +:+ String d r).
  now rewrite (drop_while_end_keeps (String c mid) r d Hr Hd).
Qed.

(** A text is a run of characters that satisfy [p] followed by what
    [drop_while] leaves, which does not begin with such a character. *)
Lemma drop_while_split (p : ascii -> bool) (s : string) :
  s = take_while p s +:+ drop_while p s
  /\ all_chars p (take_while p s) = true
  /\ (drop_while p s = EmptyString
      \/ exists c t, drop_while p s = String c t /\ p c = false).
Proof.
  induction s as [|c s (IH1 & IH2 & IH3)]; simpl; [auto|].
  destruct (p c) eqn:Hc; simpl.
  - rewrite Hc, append_cons, <- IH1. auto.
  - rewrite append_nil. split; [reflexivity|]. split; [reflexivity|]. right. eauto.
Qed.

(** A text is what [drop_while_end] leaves followed by a run of
    characters that satisfy [p]; what is left, if anything, begins as the
    text does and ends with a character that does not satisfy [p]. *)
Lemma drop_while_end_split (p : ascii -> bool) (t : string) :
  exists r,
    t = drop_while_end p t +:+ r
    /\ all_chars p r = true
    /\ (drop_while_end p t = EmptyString
        \/ (PassCases.first_char (drop_while_end p t) = PassCases.first_char t
            /\ exists c, PassCases.last_char (drop_while_end p t) = Some c
                         /\ p c = false)).
Proof.
  induction t as [|c t (r & Ht & Hr & Hd)]; [exists EmptyString; simpl; auto|].
  simpl. destruct (drop_while_end p t) as [|x y] eqn:E.
  - rewrite append_nil in Ht. subst r. destruct (p c) eqn:Hc.
    + exists (String c t). rewrite append_nil. simpl. rewrite Hc. auto.
    + exists t. rewrite append_cons, append_nil.
      split; [reflexivity|]. split; [exact Hr|]. right. simpl. eauto.
  - exists r. rewrite append_cons, <- Ht.
    split; [reflexivity|]. split; [exact Hr|]. right.
    split; [reflexivity|].
    destruct Hd as [Hd|(_ & c' & Hlast & Hc')]; [discriminate|].
    exists c'. split; [|exact Hc']. exact Hlast.
Qed.

(** What [trim] returns: nothing for a text of white space only, and
    otherwise the text without the white space around it. *)
Lemma trim_spec (s : string) :
  (trim s = EmptyString /\ all_chars is_space s = true)
  \/ PassCases.trimmed_of (trim s) s.
Proof.
  unfold trim.
  destruct (drop_while_split is_space s) as (Hs & Hl & Hfirst).
  destruct (drop_while_end_split is_space (drop_while is_space s))
    as (r & Ht & Hr & Hkept).
  destruct Hkept as [Hnone|(Hsame & c & Hlast & Hc)].
  - left. split; [exact Hnone|].
    rewrite Hs, all_chars_app, Hl, Ht, Hnone, append_nil. exact Hr.
  - right. unfold PassCases.trimmed_of. rewrite Hlast, Hsame.
    destruct Hfirst as [Hempty|(c0 & t0 & Hd & Hc0)].
    + rewrite Hempty in Hlast. discriminate.
    + split; [rewrite Hd; simpl; now rewrite Hc0|].
      split; [simpl; now rewrite Hc|].
      exists (take_while is_space s), r.
      rewrite <- Ht. auto.
Qed.

Lemma first_line_of_sound (line output : string) :
  PassCases.first_line_of line output -> first_line output = line.
Proof.
  intros [Hline [->|[rest ->]]].
  - now apply first_line_single.
  - now apply first_line_app.
Qed.

End PassFacts.

Module PassSpec.
Import PassFacts.

(** C10. [PassBackend.resolve] always fulfils its promise, and with a
    string or [null]. When the tool prints to its standard output, take
    the first line of the output: the text before the first line feed,
    or all of it when there is none. The value is that line without the
    white space around it, a text that begins and ends with characters
    that are not white space, and it is [null] exactly when the line
    holds white space only; what follows the first line feed has no part
    in it. When the tool fails the value is [null] whatever its message
    says, and when the message names an entry that is not in the password
    store nothing but the sanitizer's warning reaches the console. *)
Theorem pass_resolve_first_line_or_null (this : PassBackend.t) (w : World)
    (secretPath : string) (field : option string) :
  exists r logs,
    PassBackend.resolve this w secretPath field = (Normal r, logs)
    /\ (forall stdout line,
          exec w (PassBackend.show_request this secretPath) = Normal stdout ->
          PassCases.first_line_of line stdout ->
          match r with
          | Some value => PassCases.trimmed_of value line
          | None => all_chars is_space line = true
          end)
    /\ (forall e,
          exec w (PassBackend.show_request this secretPath) = Throw e ->
          r = None
          /\ (includes (error_message e) "not in the password store" = true ->
              logs = PassBackend.sanitize_warning secretPath)).
Proof.
  unfold PassBackend.resolve.
  destruct (exec w _) as [stdout|e].
  - do 2 eexists. split; [reflexivity|]. split; [|discriminate].
    intros stdout' line [= <-] Hline.
    rewrite (first_line_of_sound line stdout Hline).
    destruct (trim_spec line) as [[Hempty Hblank]|Htrimmed].
    + rewrite Hempty. exact Hblank.
    + destruct (trim line) as [|c v] eqn:E; [|exact Htrimmed].
      destruct Htrimmed as [Hfirst _]. discriminate.
  - destruct (includes (error_message e) "not in the password store") eqn:Hinc;
      do 2 eexists; (split; [reflexivity|]); (split; [discriminate|]);
      intros e' [= <-]; split; auto; rewrite Hinc; discriminate.
Qed.

Lemma pass_resolve_first_line_or_null_witness :
  PassBackend.resolve (PassBackend.new Scenario.pass_world None) Scenario.pass_world
    "openclaw/token" None
  = (Normal (Some "s3cr3t"), [])
  /\ PassCases.trimmed_of "s3cr3t" "  s3cr3t ".
Proof.
  split; [reflexivity|].
  destruct (pass_resolve_first_line_or_null (PassBackend.new Scenario.pass_world None)
              Scenario.pass_world "openclaw/token" None)
    as (r & logs & Hrun & Hout & _).
  assert (Hr : r = Some "s3cr3t") by (vm_compute in Hrun; congruence).
  subst r.
  apply (Hout ("  s3cr3t " +:+ lf +:+ "note: rotated in March" +:+ lf) "  s3cr3t ");
    [reflexivity|].
  split; [reflexivity|]. right. exists ("note: rotated in March" +:+ lf). reflexivity.
Defined.

(** The two worlds of [Scenario]: a two-line output yields its trimmed
    first line, a missing entry yields [null] and a silent console. *)
Example pass_resolve_two_lines :
  PassBackend.resolve (PassBackend.new Scenario.pass_world None) Scenario.pass_world
    "openclaw/token" None
  = (Normal (Some "s3cr3t"), []).
Proof. vm_compute. reflexivity. Qed.

Example pass_resolve_missing_entry :
  PassBackend.resolve (PassBackend.new Scenario.pass_world_missing None)
    Scenario.pass_world_missing "openclaw/none" None
  = (Normal None, []).
Proof. vm_compute. reflexivity. Qed.

End PassSpec.

(* ====================================================================== *)
(** * Properties of the one-time codes                                     *)
(* ====================================================================== *)

Module TotpFacts.
Import Totp.

#[local] Opaque code_of_counter.

Local Open Scope Z_scope.

(** Moving the clock by whole steps moves the counter by as many. *)
Lemma counter_of_shift (now i : Z) :
  counter_of (now + i * 30 * 1000) = counter_of now + i.
Proof.
  unfold counter_of.
  replace (now + i * 30 * 1000) with (now + i * 30000) by lia.
  apply Z.div_add. lia.
Qed.

Lemma counter_of_mono (a b : Z) : a <= b -> counter_of a <= counter_of b.
Proof. intros H. unfold counter_of. apply Z.div_le_mono; lia. Qed.

(** The three comparisons [verifyTotp] makes with the default window. *)
Lemma verifyTotp_unfold (now : Z) (secret token : string) :
  verifyTotp now secret token 1
  = String.eqb (code_of_counter secret (counter_of now + -1)) token
    || String.eqb (code_of_counter secret (counter_of now + 0)) token
    || String.eqb (code_of_counter secret (counter_of now + 1)) token.
Proof.
  unfold verifyTotp, generateTotp.
  replace (seqZ (Z.opp 1) (2 * 1 + 1)) with [-1; 0; 1] by reflexivity.
  cbn [existsb default id].
  rewrite !counter_of_shift.
  rewrite orb_false_r. apply orb_assoc.
Qed.

Lemma verifyTotp_iff (now : Z) (secret token : string) :
  verifyTotp now secret token 1 = true
  <-> exists i, -1 <= i <= 1 /\ token = code_of_counter secret (counter_of now + i).
Proof.
  rewrite verifyTotp_unfold, !orb_true_iff, !String.eqb_eq. split.
  - intros [[H|H]|H]; [exists (-1) | exists 0 | exists 1];
      (split; [lia | symmetry; exact H]).
  - intros (i & Hi & ->).
    assert (i = -1 \/ i = 0 \/ i = 1) as [E | [E | E]] by lia; subst i.
    + left; left; reflexivity.
    + left; right; reflexivity.
    + right; reflexivity.
Qed.

End TotpFacts.

Module TotpSpec.
Import Totp TotpFacts.

Local Open Scope Z_scope.

(** The test vectors of RFC 6238 for the SHA-1 key [12345678901234567890],
    cut to six digits. *)
Example rfc6238_at_59 :
  generateTotp 0 "GEZDGNBVGY3TQOJQGEZDGNBVGY3TQOJQ" (Some 59000) = "287082"%string.
Proof. vm_compute. reflexivity. Qed.

Example rfc6238_at_1111111109 :
  generateTotp 0 "GEZDGNBVGY3TQOJQGEZDGNBVGY3TQOJQ" (Some 1111111109000) = "081804"%string.
Proof. vm_compute. reflexivity. Qed.

Example rfc6238_at_20000000000 :
  generateTotp 0 "GEZDGNBVGY3TQOJQGEZDGNBVGY3TQOJQ" (Some 20000000000000) = "353130"%string.
Proof. vm_compute. reflexivity. Qed.

(** FIPS 180 test vector. *)
Example sha1_abc :
  Crypto.sha1 [97; 98; 99]
  = [169; 153; 62; 54; 71; 6; 129; 106; 186; 62; 37; 113; 120; 80; 194; 108;
     156; 208; 216; 157].
Proof. vm_compute. reflexivity. Qed.

(** C6, as the code has it. With the default window [verifyTotp] accepts
    a token exactly when it is the code of the current 30-second counter
    or of the counter one step before or after it. Hence a code generated
    from the same secret at most 30 seconds in the past or future is
    accepted. A code generated 90 seconds or more away belongs to a
    counter at least three steps from the current one, and it is accepted
    exactly when it coincides with one of the three codes of the window. *)
Theorem verifyTotp_accepts_window (now t : Z) (secret : string) :
  (forall token,
      verifyTotp now secret token default_window = true
      <-> exists i, -1 <= i <= 1 /\ token = code_of_counter secret (counter_of now + i))
  /\ (Z.abs (t - now) <= 30000 ->
      verifyTotp now secret (generateTotp now secret (Some t)) default_window = true)
  /\ (90000 <= Z.abs (t - now) ->
      3 <= Z.abs (counter_of t - counter_of now)
      /\ (verifyTotp now secret (generateTotp now secret (Some t)) default_window = true
          <-> exists i, -1 <= i <= 1
                /\ code_of_counter secret (counter_of t)
                   = code_of_counter secret (counter_of now + i))).
Proof.
  unfold default_window.
  split; [intros token; apply verifyTotp_iff|]. split.
  - intros Hnear. apply verifyTotp_iff.
    exists (counter_of t - counter_of now). split.
    + pose proof (counter_of_mono (now + (-1) * 30 * 1000) t ltac:(lia)) as H1.
      pose proof (counter_of_mono t (now + 1 * 30 * 1000) ltac:(lia)) as H2.
      rewrite counter_of_shift in H1, H2. lia.
    + replace (counter_of now + (counter_of t - counter_of now))
        with (counter_of t) by lia.
      reflexivity.
  - intros Hfar. split.
    + destruct (Z.le_ge_cases now t) as [Hle|Hle].
      * pose proof (counter_of_mono (now + 3 * 30 * 1000) t ltac:(lia)) as H1.
        rewrite counter_of_shift in H1. lia.
      * pose proof (counter_of_mono t (now + (-3) * 30 * 1000) ltac:(lia)) as H1.
        rewrite counter_of_shift in H1. lia.
    + rewrite verifyTotp_iff. reflexivity.
Qed.

(** A code generated 28 seconds earlier is accepted. *)
Lemma verifyTotp_accepts_window_witness :
  verifyTotp 59000 "GEZDGNBVGY3TQOJQGEZDGNBVGY3TQOJQ"
    (generateTotp 59000 "GEZDGNBVGY3TQOJQGEZDGNBVGY3TQOJQ" (Some 31000)) default_window
  = true.
Proof.
  apply (proj1 (proj2 (verifyTotp_accepts_window 59000 31000
                         "GEZDGNBVGY3TQOJQGEZDGNBVGY3TQOJQ"))).
  vm_compute. discriminate.
Defined.

(** C6 as stated fails: six-digit codes of different counters can
    coincide. For the secret [JBSWY3DPEHPK3PXP] the code of 2024-01-01
    06:17:00 UTC, 16770 seconds after 01:37:30 UTC, is [976810], which is
    also the code at 01:37:30, so [verifyTotp] at 01:37:30 accepts it. *)
Lemma verifyTotp_accepts_distant_code :
  90000 <= Z.abs (1704089820000 - 1704073050000)
  /\ generateTotp 0 "JBSWY3DPEHPK3PXP" (Some 1704089820000) = "976810"%string
  /\ verifyTotp 1704073050000 "JBSWY3DPEHPK3PXP"
       (generateTotp 1704073050000 "JBSWY3DPEHPK3PXP" (Some 1704089820000))
       default_window
     = true.
Proof. split; [vm_compute; discriminate|]. split; vm_compute; reflexivity. Qed.

End TotpSpec.

(* ====================================================================== *)
(** * Properties of the tiered vault backend                               *)
(* ====================================================================== *)

Module GaneshFacts.
Import Ganesh.

(** The first group that lists a path decides its tier. *)
Lemma tier_in_groups_first (gs : list SecretGroup) (secretId : string) (i : nat)
    (g : SecretGroup) :
  gs !! i = Some g ->
  list_includes (secrets g) secretId = true ->
  (forall j g', (j < i)%nat -> gs !! j = Some g' ->
                list_includes (secrets g') secretId = false) ->
  tier_in_groups gs secretId = Some (tier g).
Proof.
  revert i. induction gs as [|g0 gs IH]; intros i Hi Hin Hbefore; [discriminate|].
  destruct i as [|i]; simpl in *.
  - injection Hi as ->. now rewrite Hin.
  - rewrite (Hbefore 0%nat g0 ltac:(lia) eq_refl).
    apply (IH i Hi Hin). intros j g' Hj Hg'.
    apply (Hbefore (S j) g' ltac:(lia) Hg').
Qed.

Lemma tier_in_groups_none (gs : list SecretGroup) (secretId : string) :
  (forall g, In g gs -> list_includes (secrets g) secretId = false) ->
  tier_in_groups gs secretId = None.
Proof.
  induction gs as [|g gs IH]; intros H; simpl; [reflexivity|].
  rewrite (H g (or_introl eq_refl)). apply IH. intros g' Hg'. apply H. now right.
Qed.

(** Without a manifest every path is of tier 1. *)
Lemma getSecretTier_without_manifest (this : State) (secretId : string) :
  manifest this = None -> getSecretTier this secretId = 1%Z.
Proof. intros H. unfold getSecretTier. now rewrite H. Qed.

(** An unlocked backend resolves without touching its own fields. *)
Lemma resolve_unlocked (this : State) (w : World) (secretPath : string)
    (field : option string) :
  unlocked this = true ->
  resolve this w secretPath field
  = if (getSecretTier this secretPath <? 3)%Z
    then (Normal (secretsCache this !! secretPath), this, [EvReadSecret secretPath])
    else ((resolveTier3 this w secretPath).1, this, (resolveTier3 this w secretPath).2).
Proof.
  intros Hu. unfold resolve. rewrite Hu. simpl.
  destruct (getSecretTier this secretPath <? 3)%Z; [reflexivity|].
  now destruct (resolveTier3 this w secretPath).
Qed.

(** A successful [unlock] leaves the backend unlocked. *)
Lemma unlock_true_unlocked (this this1 : State) (w : World) :
  unlock this w = (true, this1) -> unlocked this1 = true.
Proof.
  unfold unlock. destruct (unlocked this) eqn:Hu; [now intros [= <-]|].
  destruct (identity_key (disk w)); [|intros [= ]].
  destruct (age_keygen w _); [|intros [= ]].
  destruct (manifest_json (disk w)) as [[m|e]|];
    try (intros [= ]; fail);
    (destruct (loadSecrets _ w) as [[u|e'] s4]; intros [= <-]; reflexivity).
Qed.

(** A locked backend first unlocks, and answers [null] when it cannot. *)
Lemma resolve_locked (this : State) (w : World) (secretPath : string)
    (field : option string) :
  unlocked this = false ->
  resolve this w secretPath field
  = let '(ok, this1) := unlock this w in
    if ok then
      let '(r, this2, evs) := resolve this1 w secretPath field in
      (r, this2, EvUnlock true :: evs)
    else (Normal None, this1, [EvUnlock false]).
Proof.
  intros Hl. unfold resolve at 1. rewrite Hl.
  destruct (unlock this w) as [[|] this1] eqn:E; [|reflexivity].
  pose proof (unlock_true_unlocked this this1 w E) as Hun.
  rewrite (resolve_unlocked this1 w secretPath field Hun). simpl.
  destruct (getSecretTier this1 secretPath <? 3)%Z; [reflexivity|].
  now destruct (resolveTier3 this1 w secretPath).
Qed.

(** [getMfaConfig] reads nothing from the in-memory map but the bot
    token. *)
Lemma getMfaConfig_reads (this : State) (w : World) :
  Forall (fun e => e = EvReadSecret bot_token_key) (getMfaConfig this w).2.
Proof.
  unfold getMfaConfig.
  destruct (mfa_config_json (disk w)) as [parsed|].
  - destruct parsed as [config|e];
      destruct (totp_key (disk w)) as [[c|e']|]; simpl; auto.
    all: destruct (is_empty _); simpl; auto.
  - destruct (secretsCache this !! bot_token_key) as [token|];
      destruct (totp_key (disk w)) as [content|]; simpl; auto.
    destruct (is_empty token); simpl; auto.
Qed.

(** [resolveTier3] by the answers of the outside world. *)
Lemma resolveTier3_cases (this : State) (w : World) (secretPath : string) :
  let reads := (getMfaConfig this w).2 in
  match (getMfaConfig this w).1 with
  | Normal (Some cfg) =>
      if send_failed (sendTelegramApprovalRequest w cfg secretPath
                        (getSecretGroup this secretPath))
      then resolveTier3 this w secretPath
           = (Normal None,
              (reads ++ [EvSendApproval secretPath (getSecretGroup this secretPath)])%list)
      else resolveTier3 this w secretPath
           = (Normal (if exchange_approved this w cfg secretPath
                      then secretsCache this !! secretPath else None),
              (reads ++ exchange this w cfg secretPath
                 ++ (if exchange_approved this w cfg secretPath
                     then [EvReadSecret secretPath] else []))%list)
  | Normal None => resolveTier3 this w secretPath = (Normal None, reads)
  | Throw e => resolveTier3 this w secretPath = (Throw e, reads)
  end.
Proof.
  unfold resolveTier3, exchange, exchange_approved.
  destruct (getMfaConfig this w) as [[[cfg|]|e] reads]; cbn [fst snd]; try reflexivity.
  destruct (send_failed _); [reflexivity|].
  now destruct (approved _).
Qed.

Lemma not_read_in_exchange (this : State) (w : World) (cfg : TelegramMfaConfig)
    (secretPath : string) (p : string) :
  ~ In (EvReadSecret p) (exchange this w cfg secretPath).
Proof. unfold exchange. intros [H|[H|[]]]; discriminate H. Qed.

(** A tier-3 call on an unlocked backend, for a path other than the bot
    token's, after the events of unlocking. *)
Lemma resolveTier3_call (this : State) (w : World) (secretPath : string)
    (unlocking : list Event) :
  secretPath <> bot_token_key ->
  Forall (fun e => e = EvUnlock true) unlocking ->
  tier3_call this w secretPath (resolveTier3 this w secretPath).1
    (unlocking ++ (resolveTier3 this w secretPath).2)%list.
Proof.
  intros Hne Hunl.
  pose proof (resolveTier3_cases this w secretPath) as Hcases.
  pose proof (getMfaConfig_reads this w) as Hreads.
  set (reads := (getMfaConfig this w).2) in *.
  assert (Hpre : Forall (fun e => e = EvUnlock true \/ e = EvReadSecret bot_token_key)
                   (unlocking ++ reads)%list).
  { apply Forall_app. split; eapply Forall_impl; eauto; simpl; auto. }
  assert (Hclean : ~ In (EvReadSecret secretPath) (unlocking ++ reads)%list).
  { intros Hin. apply list_elem_of_In in Hin.
    rewrite Forall_forall in Hpre. destruct (Hpre _ Hin) as [H|H]; [discriminate|].
    injection H as H. contradiction. }
  cbv zeta in Hcases. unfold tier3_call.
  destruct (getMfaConfig this w).1 as [[cfg|]|e] eqn:Hcfg.
  - assert (Hsame : forall cfg', Normal (Some cfg) = Normal (Some cfg') -> cfg' = cfg)
      by (intros cfg' [= <-]; reflexivity).
    destruct (send_failed _) eqn:Hsend; rewrite Hcases; cbn [fst snd].
    + split; [discriminate|]. split.
      * rewrite app_assoc. intros [Hin|[H|[]]]%in_app_or; [contradiction|discriminate].
      * intros cfg' Hc' Hs'. apply Hsame in Hc'. subst cfg'. congruence.
    + rewrite !app_assoc, <- (app_assoc (unlocking ++ reads)).
      destruct (exchange_approved this w cfg secretPath) eqn:Happ.
      * assert (Hex : approved_exchange this w secretPath
                        ((unlocking ++ reads) ++ exchange this w cfg secretPath
                           ++ [EvReadSecret secretPath])%list).
        { exists (unlocking ++ reads)%list, cfg. auto 10. }
        split; [intros v [= Hv]; auto|]. split; [auto|].
        intros cfg' Hc' _. apply Hsame in Hc'. subst cfg'.
        exists (unlocking ++ reads)%list. rewrite Happ. auto.
      * split; [discriminate|]. split.
        -- rewrite app_nil_r. intros [Hin|Hin]%in_app_or; [contradiction|].
           now apply not_read_in_exchange in Hin.
        -- intros cfg' Hc' _. apply Hsame in Hc'. subst cfg'.
           exists (unlocking ++ reads)%list. rewrite Happ. auto.
  - rewrite Hcases. cbn [fst snd].
    split; [discriminate|]. split; [contradiction|discriminate].
  - rewrite Hcases. cbn [fst snd].
    split; [discriminate|]. split; [contradiction|discriminate].
Qed.

(** What [add_to_default] does when some group has the id [default]. *)
Lemma add_to_default_some (gs gs' : list SecretGroup) (secretId : string) :
  add_to_default gs secretId = Some gs' ->
  (exists g, In g gs' /\ id g = "default" /\ list_includes (secrets g) secretId = true)
  /\ (forall i g, gs !! i = Some g -> id g <> "default" -> gs' !! i = Some g).
Proof.
  revert gs'. induction gs as [|g0 gs IH]; intros gs'; simpl; [discriminate|].
  destruct (String.eqb (id g0) "default") eqn:E.
  - intros [= <-]. apply String.eqb_eq in E. split.
    + destruct (list_includes (secrets g0) secretId) eqn:Hin.
      * exists g0. split; [now left | auto].
      * eexists. split; [now left|]. simpl. split; [exact E|].
        unfold list_includes. rewrite existsb_app. simpl.
        now rewrite String.eqb_refl, orb_true_r.
    + intros [|i] g Hg Hne; simpl in *; [|exact Hg].
      injection Hg as ->. contradiction.
  - destruct (add_to_default gs secretId) as [gs1|]; [|discriminate].
    intros [= <-]. destruct (IH gs1 eq_refl) as ((g & Hg & Hid & Hin) & Hkeep). split.
    + exists g. split; [now right | auto].
    + intros [|i] g' Hg' Hne; simpl in *; [exact Hg' | now apply Hkeep].
Qed.

Lemma add_to_default_none (gs : list SecretGroup) (secretId : string) :
  add_to_default gs secretId = None <-> (forall g, In g gs -> id g <> "default").
Proof.
  induction gs as [|g0 gs IH]; simpl.
  - split; [intros _ g [] | reflexivity].
  - destruct (String.eqb (id g0) "default") eqn:E.
    + apply String.eqb_eq in E. split; [discriminate|].
      intros H. now destruct (H g0 (or_introl eq_refl)).
    + apply String.eqb_neq in E.
      destruct (add_to_default gs secretId) as [gs1|]; simpl.
      * split; [discriminate|]. intros H.
        assert (Some gs1 = None) as [=].
        apply IH. intros g Hg. apply H. now right.
      * split; [|reflexivity]. intros _ g [<-|Hg]; [exact E|].
        now apply (proj1 IH eq_refl).
Qed.

(** The first group with the id [default] is the one changed. *)
Lemma add_to_default_first (gs : list SecretGroup) (secretId : string) (i : nat)
    (g : SecretGroup) :
  gs !! i = Some g ->
  id g = "default" ->
  (forall j g', (j < i)%nat -> gs !! j = Some g' -> id g' <> "default") ->
  add_to_default gs secretId
  = Some (<[i := if list_includes (secrets g) secretId then g
                 else {| id := id g; name := name g; tier := tier g;
                         secrets := secrets g ++ [secretId] |}]> gs).
Proof.
  revert i. induction gs as [|g0 gs IH]; intros i Hi Hid Hbefore; [discriminate|].
  destruct i as [|i]; simpl in *.
  - injection Hi as ->. apply String.eqb_eq in Hid. now rewrite Hid.
  - pose proof (Hbefore 0%nat g0 ltac:(lia) eq_refl) as Hne.
    apply String.eqb_neq in Hne. rewrite Hne.
    rewrite (IH i Hi Hid); [reflexivity|].
    intros j g' Hj Hg'. apply (Hbefore (S j) g' ltac:(lia) Hg').
Qed.

(** A successful [store] wrote the updated manifest. *)
Lemma store_true_manifest (this this' : State) (w : World) (secretPath value : string)
    (disk' : Disk) (evs : list Event) :
  store this w secretPath value = (true, this', disk', evs) ->
  exists m, manifest_json (disk w) = Some (Normal m)
            /\ manifest_json disk' = Some (Normal (updated_manifest m (clock w) secretPath)).
Proof.
  unfold store.
  destruct (if unlocked this then _ else _) as [[ok this1] unlocking].
  destruct ok; simpl; [|intros [= ]].
  destruct (saveSecrets _ w) as [[u0|e] content]; [|intros [= ]].
  unfold updateManifest.
  destruct (manifest_json (disk w)) as [[m|e]|]; simpl; try (intros [= ]; fail).
  destruct (write_manifest w) as [u|e]; simpl; [|intros [= ]].
  intros [= _ <- _]. exists m. split; reflexivity.
Qed.

End GaneshFacts.

Module GaneshSpec.
Import Ganesh GaneshFacts.

(** C7. With a manifest loaded, the tier of a path is the tier of the
    first group that lists it, and [defaultTier] when no group lists it.
    When no group lists the path and [defaultTier] is 1, [resolve] answers
    from the in-memory decrypted map and the call makes no approval
    exchange: an unlocked backend does nothing but read the map, a locked
    one unlocks first. *)
Theorem tier_lookup_and_direct_access (this : State) (w : World) (m : VaultManifest)
    (secretPath : string) (field : option string) :
  manifest this = Some m ->
  (forall i g,
      groups m !! i = Some g ->
      list_includes (secrets g) secretPath = true ->
      (forall j g', (j < i)%nat -> groups m !! j = Some g' ->
                    list_includes (secrets g') secretPath = false) ->
      getSecretTier this secretPath = tier g)
  /\ ((forall g, In g (groups m) -> list_includes (secrets g) secretPath = false) ->
      getSecretTier this secretPath = defaultTier m
      /\ (defaultTier m = 1%Z ->
          (unlocked this = true ->
           resolve this w secretPath field
           = (Normal (secretsCache this !! secretPath), this, [EvReadSecret secretPath]))
          /\ (forall locked,
                 unlocked locked = false ->
                 unlock locked w = (true, this) ->
                 resolve locked w secretPath field
                 = (Normal (secretsCache this !! secretPath), this,
                    [EvUnlock true; EvReadSecret secretPath])))).
Proof.
  intros Hm. split.
  - intros i g Hg Hin Hbefore. unfold getSecretTier. rewrite Hm.
    now rewrite (tier_in_groups_first (groups m) secretPath i g Hg Hin Hbefore).
  - intros Hnone.
    assert (Htier : getSecretTier this secretPath = defaultTier m).
    { unfold getSecretTier. rewrite Hm.
      now rewrite (tier_in_groups_none (groups m) secretPath Hnone). }
    split; [exact Htier|]. intros Hdef.
    assert (Hdirect : unlocked this = true ->
                      resolve this w secretPath field
                      = (Normal (secretsCache this !! secretPath), this,
                         [EvReadSecret secretPath])).
    { intros Hu. rewrite (resolve_unlocked this w secretPath field Hu).
      now rewrite Htier, Hdef. }
    split; [exact Hdirect|].
    intros locked Hl Hun.
    rewrite (resolve_locked locked w secretPath field Hl), Hun.
    now rewrite (Hdirect (unlock_true_unlocked locked this w Hun)).
Qed.

Lemma tier_lookup_and_direct_access_witness :
  getSecretTier Scenario.unlocked_vault "api/key" = 1%Z
  /\ resolve Scenario.unlocked_vault Scenario.vault_world "api/key" None
     = (Normal (Some "k-123"), Scenario.unlocked_vault, [EvReadSecret "api/key"])
  /\ resolve new Scenario.vault_world "api/key" None
     = (Normal (Some "k-123"), Scenario.unlocked_vault,
        [EvUnlock true; EvReadSecret "api/key"]).
Proof.
  destruct (tier_lookup_and_direct_access Scenario.unlocked_vault Scenario.vault_world
              Scenario.vault_manifest "api/key" None eq_refl) as [_ H].
  assert (Hnone : forall g, In g (groups Scenario.vault_manifest) ->
                            list_includes (secrets g) "api/key" = false).
  { intros g [<-|[]]. reflexivity. }
  destruct (H Hnone) as [Htier Hres].
  destruct (Hres eq_refl) as [Hunlocked Hlocked].
  split; [exact Htier|].
  split; [exact (Hunlocked eq_refl)|].
  exact (Hlocked new eq_refl eq_refl).
Defined.




(** C8, as the code has it. A successful [store] rewrites the manifest
    file from its content on disk: the stored path is then listed in a
    group whose id is [default]; groups with another id keep their place
    and their content, whether or not they list the path; the first group
    with the id [default] gets the path appended unless it lists it
    already; and a manifest without such a group gets one appended, of
    tier 1, listing the path alone. *)
Theorem store_tracks_in_default_group (this this' : State) (w : World)
    (secretPath value : string) (disk' : Disk) (evs : list Event) :
  store this w secretPath value = (true, this', disk', evs) ->
  exists m m',
    manifest_json (disk w) = Some (Normal m)
    /\ manifest_json disk' = Some (Normal m')
    /\ defaultTier m' = defaultTier m
    /\ (exists g, In g (groups m') /\ id g = "default"
                  /\ list_includes (secrets g) secretPath = true)
    /\ (forall i g, groups m !! i = Some g -> id g <> "default" ->
                    groups m' !! i = Some g)
    /\ (forall i g,
           groups m !! i = Some g -> id g = "default" ->
           (forall j g', (j < i)%nat -> groups m !! j = Some g' -> id g' <> "default") ->
           groups m'
           = <[i := if list_includes (secrets g) secretPath then g
                    else {| id := id g; name := name g; tier := tier g;
                            secrets := secrets g ++ [secretPath] |}]> (groups m))
    /\ ((forall g, In g (groups m) -> id g <> "default") ->
        groups m'
        = (groups m ++ [{| id := "default"; name := "Default"; tier := 1%Z;
                           secrets := [secretPath] |}])%list).
Proof.
  intros Hstore.
  destruct (store_true_manifest this this' w secretPath value disk' evs Hstore)
    as (m & Hm & Hm').
  exists m, (updated_manifest m (clock w) secretPath).
  split; [exact Hm|]. split; [exact Hm'|]. split; [reflexivity|].
  unfold updated_manifest; simpl.
  destruct (add_to_default (groups m) secretPath) as [gs'|] eqn:E.
  - destruct (add_to_default_some (groups m) gs' secretPath E) as (Hlisted & Hkeep).
    split; [exact Hlisted|]. split; [exact Hkeep|]. split.
    + intros i g Hg Hid Hbefore.
      rewrite (add_to_default_first (groups m) secretPath i g Hg Hid Hbefore) in E.
      now injection E.
    + intros Hnone.
      pose proof (proj2 (add_to_default_none (groups m) secretPath) Hnone). congruence.
  - pose proof (proj1 (add_to_default_none (groups m) secretPath) E) as Hnone.
    split; [|split; [|split]].
    + eexists. split; [apply in_or_app; right; now left|]. simpl.
      split; [reflexivity|]. now rewrite String.eqb_refl.
    + intros i g Hg _. now apply lookup_app_l_Some.
    + intros i g Hg Hid _. exfalso. apply (Hnone g); [|exact Hid].
      apply list_elem_of_In. eapply list_elem_of_lookup_2. exact Hg.
    + reflexivity.
Qed.

Lemma store_tracks_in_default_group_witness :
  exists m',
    manifest_json Scenario.stored_again.1.2 = Some (Normal m')
    /\ groups m'
       = [Scenario.production;
          {| id := "default"; name := "Default"; tier := 1%Z; secrets := ["api/key"] |}].
Proof.
  destruct (store_tracks_in_default_group Scenario.unlocked_vault Scenario.stored_again.1.1.2
              Scenario.vault_world "api/key" "k-456" Scenario.stored_again.1.2 Scenario.stored_again.2
              eq_refl)
    as (m & m' & Hm & Hm' & _ & _ & _ & _ & Hnew).
  exists m'. split; [exact Hm'|].
  injection Hm as <-. apply Hnew.
  intros g [<-|[]]. discriminate.
Defined.

(** C8 as stated fails: [store] looks at the default group only. A path
    that the manifest already files under the tier-3 group [prod] is
    added to a new [default] group all the same, and is then listed in
    two groups. *)
Lemma store_adds_path_tracked_elsewhere :
  list_includes (Ganesh.secrets Scenario.production) "db/password" = true
  /\ (store Scenario.unlocked_vault Scenario.vault_world "db/password" "hunter3").1.1.1
     = true
  /\ manifest_json
       (store Scenario.unlocked_vault Scenario.vault_world "db/password" "hunter3").1.2
     = Some (Normal
               {| version := 1;
                  groups := [Scenario.production;
                             {| id := "default"; name := "Default"; tier := 1%Z;
                                secrets := ["db/password"] |}];
                  defaultTier := 1;
                  lastModified := Some 1704073050000%Z |}).
Proof. repeat split. Qed.

End GaneshSpec.

(* ====================================================================== *)
(** * Properties of the command policy gate                                *)
(* ====================================================================== *)

Module PolicyGateFacts.
Import PolicyGate.

Local Open Scope Z_scope.

Section Selection.

Variable p : PolicyRule -> bool.

Lemma insert_sorted_forall (b : Z) (x : PolicyRule) (l : list PolicyRule) :
  priority_of x <= b ->
  Forall (fun y => priority_of y <= b) l ->
  Forall (fun y => priority_of y <= b) (insert_sorted by_priority_desc x l).
Proof.
  intros Hx. induction 1 as [|y l Hy Hl IH]; simpl.
  - repeat constructor. exact Hx.
  - destruct (0 <? by_priority_desc x y); repeat constructor; auto.
Qed.

Lemma insert_sorted_descending (x : PolicyRule) (l : list PolicyRule) :
  descending l -> descending (insert_sorted by_priority_desc x l).
Proof.
  induction l as [|y l IH]; simpl.
  - intros _. split; [constructor | exact I].
  - intros [Hall Hdesc]. unfold by_priority_desc at 1.
    destruct (0 <? priority_of y - priority_of x) eqn:E.
    + apply Z.ltb_lt in E. split; [|exact (IH Hdesc)].
      apply insert_sorted_forall; [lia | exact Hall].
    + apply Z.ltb_ge in E. split; [|split; assumption].
      constructor; [lia|].
      eapply Forall_impl; [exact Hall|]. simpl. intros z Hz. lia.
Qed.

Lemma toSorted_descending (l : list PolicyRule) :
  descending (toSorted by_priority_desc l).
Proof.
  induction l as [|x l IH]; simpl; [exact I|].
  now apply insert_sorted_descending.
Qed.

Lemma find_bound (b : Z) (l : list PolicyRule) (y : PolicyRule) :
  Forall (fun z => priority_of z <= b) l -> List.find p l = Some y -> priority_of y <= b.
Proof.
  induction 1 as [|z l Hz Hl IH]; simpl; [discriminate|].
  destruct (p z); [intros [= <-]; exact Hz | exact IH].
Qed.

(** Looking for the first rule satisfying [p] after an insertion. *)
Lemma find_insert_sorted (x : PolicyRule) (l : list PolicyRule) :
  descending l ->
  List.find p (insert_sorted by_priority_desc x l)
  = if p x then
      match List.find p l with
      | Some y => if priority_of x <? priority_of y then Some y else Some x
      | None => Some x
      end
    else List.find p l.
Proof.
  induction l as [|y l IH]; simpl.
  - intros _. now destruct (p x).
  - intros [Hall Hdesc]. unfold by_priority_desc at 1.
    destruct (0 <? priority_of y - priority_of x) eqn:E; simpl.
    + apply Z.ltb_lt in E.
      destruct (p y) eqn:Hy.
      * assert ((priority_of x <? priority_of y) = true) as -> by (apply Z.ltb_lt; lia).
        now destruct (p x).
      * exact (IH Hdesc).
    + apply Z.ltb_ge in E.
      destruct (p x) eqn:Hx; [|reflexivity].
      destruct (p y) eqn:Hy.
      * assert ((priority_of x <? priority_of y) = false) as -> by (apply Z.ltb_ge; lia).
        reflexivity.
      * destruct (List.find p l) as [z|] eqn:Hz; [|reflexivity].
        pose proof (find_bound (priority_of y) l z Hall Hz) as Hb.
        assert ((priority_of x <? priority_of z) = false) as -> by (apply Z.ltb_ge; lia).
        reflexivity.
Qed.

(** The first rule satisfying [p] in the sorted list is the best rule of
    the list as declared. *)
Lemma find_toSorted (l : list PolicyRule) :
  List.find p (toSorted by_priority_desc l) = best_rule p l.
Proof.
  induction l as [|x l IH]; simpl; [reflexivity|].
  rewrite (find_insert_sorted x _ (toSorted_descending l)), IH. reflexivity.
Qed.

Lemma best_rule_none (l : list PolicyRule) :
  best_rule p l = None <-> forall r, In r l -> p r = false.
Proof.
  induction l as [|x l IH]; simpl.
  - split; [intros _ r [] | reflexivity].
  - destruct (p x) eqn:Hx.
    + split.
      * destruct (best_rule p l) as [y|]; [destruct (_ <? _)|]; discriminate.
      * intros H. rewrite (H x (or_introl eq_refl)) in Hx. discriminate.
    + rewrite IH. split.
      * intros H r [<-|Hr]; [exact Hx | now apply H].
      * intros H r Hr. apply H. now right.
Qed.

(** The best rule is a selected one. *)
Lemma best_rule_selected (l : list PolicyRule) (r : PolicyRule) :
  best_rule p l = Some r -> exists i, selected p l i r.
Proof.
  revert r. induction l as [|x l IH]; intros r; simpl; [discriminate|].
  assert (Hshift : forall y i, selected p l i y ->
            (p x = false \/ priority_of x < priority_of y) ->
            selected p (x :: l) (S i) y).
  { intros y i (Hi & Hy & Hbest) Hx. split; [exact Hi|]. split; [exact Hy|].
    intros [|j] other Ho Hpo; simpl in Ho.
    - injection Ho as <-. destruct Hx as [Hx|Hx]; [congruence | now left].
    - destruct (Hbest j other Ho Hpo) as [?|[? ?]]; [now left | right; split; [assumption | lia]]. }
  destruct (p x) eqn:Hx.
  - destruct (best_rule p l) as [y|] eqn:Hy.
    + destruct (IH y eq_refl) as (i & Hsel).
      destruct (priority_of x <? priority_of y) eqn:E.
      * apply Z.ltb_lt in E. intros [= <-]. exists (S i). apply Hshift; auto.
      * apply Z.ltb_ge in E. intros [= <-]. exists 0%nat.
        split; [reflexivity|]. split; [exact Hx|].
        intros [|j] other Ho Hpo; simpl in Ho.
        -- injection Ho as <-. right. split; [reflexivity | lia].
        -- destruct Hsel as (_ & _ & Hbest).
           destruct (Hbest j other Ho Hpo) as [?|[? ?]]; [left; lia|].
           destruct (Z.eq_dec (priority_of other) (priority_of x)) as [Heq|Hne];
             [right; split; [exact Heq | lia] | left; lia].
    + intros [= <-]. exists 0%nat.
      split; [reflexivity|]. split; [exact Hx|].
      intros [|j] other Ho Hpo; simpl in Ho.
      * injection Ho as <-. right. split; [reflexivity | lia].
      * pose proof (proj1 (best_rule_none l) Hy other) as Hn.
        rewrite Hn in Hpo; [discriminate|].
        apply list_elem_of_In. eapply list_elem_of_lookup_2. exact Ho.
  - intros Hr. destruct (IH r Hr) as (i & Hsel). exists (S i). apply Hshift; auto.
Qed.

(** At most one position is selected. *)
Lemma selected_unique (l : list PolicyRule) (i j : nat) (r r' : PolicyRule) :
  selected p l i r -> selected p l j r' -> i = j /\ r = r'.
Proof.
  intros (Hi & Hr & Hbi) (Hj & Hr' & Hbj).
  destruct (Hbi j r' Hj Hr') as [H1|[H1 H1']];
    destruct (Hbj i r Hi Hr) as [H2|[H2 H2']]; try lia.
  assert (i = j) as -> by lia. split; [reflexivity | congruence].
Qed.

Lemma selected_is_best (l : list PolicyRule) (i : nat) (r : PolicyRule) :
  selected p l i r -> best_rule p l = Some r.
Proof.
  intros Hsel.
  destruct (best_rule p l) as [y|] eqn:Hy.
  - destruct (best_rule_selected l y Hy) as (j & Hsel').
    now destruct (selected_unique l i j r y Hsel Hsel') as [_ ->].
  - destruct Hsel as (Hi & Hr & _).
    rewrite (proj1 (best_rule_none l) Hy r) in Hr; [discriminate|].
    apply list_elem_of_In. eapply list_elem_of_lookup_2. exact Hi.
Qed.

End Selection.

(** Filtering first and testing afterwards selects as testing both. *)
Lemma best_rule_filter (q p : PolicyRule -> bool) (l : list PolicyRule) :
  best_rule p (List.filter q l) = best_rule (fun r => q r && p r) l.
Proof.
  induction l as [|x l IH]; simpl; [reflexivity|].
  destruct (q x); simpl; [now rewrite IH | exact IH].
Qed.

(** The rule [evaluateCommand] stops at. *)
Lemma find_commandRules (w : World) (details : list (string * JsValue))
    (policy : PolicyConfig) :
  List.find (allMatch w details) (commandRules policy)
  = best_rule (applies w details) (rules policy).
Proof.
  unfold commandRules. rewrite find_toSorted. apply best_rule_filter.
Qed.

End PolicyGateFacts.

Module PolicyGateSpec.
Import PolicyGate PolicyGateFacts.

Local Open Scope Z_scope.

(** The cases of the gate's own test file. *)
Example denies_commands_matching_a_deny_rule :
  let r := (evaluateCommand resetPolicyGateCache (Scenario.with_policy Scenario.rm_policy)
              "rm -rf /" no_options).1.1 in
  decision r = Deny /\ matchedRule r = Some "block-rm-rf"%string.
Proof. split; reflexivity. Qed.

Example skips_disabled_rules :
  let r := (evaluateCommand resetPolicyGateCache
              (Scenario.with_policy Scenario.disabled_policy) "ls" no_options).1.1 in
  decision r = Allow /\ matchedRule r = None.
Proof. split; reflexivity. Qed.

Example equal_priorities_keep_declaration_order :
  let r := (evaluateCommand resetPolicyGateCache (Scenario.with_policy Scenario.tie_policy)
              "git push" no_options).1.1 in
  decision r = Ask /\ matchedRule r = Some "first-ask"%string.
Proof. split; reflexivity. Qed.

Example commandRules_sorted :
  map id (commandRules Scenario.git_policy)
  = ["high-priority-allow"; "low-priority-deny"]%string
  /\ map id (commandRules Scenario.tie_policy)
     = ["first-ask"; "second-allow"; "unranked-deny"]%string.
Proof. split; reflexivity. Qed.

Example handles_sudo_prefix :
  extractBaseCommand (Scenario.gate_world Absent) "sudo systemctl stop openclaw"
  = "systemctl"%string
  /\ extractBaseCommand (Scenario.gate_world Absent)
       "LANG=C TERM=dumb sudo -n /usr/bin/systemctl stop openclaw"
     = "systemctl"%string
  /\ extractBaseCommand (Scenario.gate_world Absent) "sudo -u root systemctl stop openclaw"
     = "root"%string.
Proof. repeat split. Qed.

Example writes_audit_log_entries :
  (audited
     (evaluateCommand resetPolicyGateCache (Scenario.with_policy Scenario.disabled_policy)
        "echo hello"
        {| agentId := Some "test-agent"%string; sessionKey := None; host := None;
           cwd := None |}).2)
  = [("2024-01-01"%string,
      {| timestamp := 1704073050000; audit_command := "echo hello";
         audit_decision := Allow;
         audit_reason := "No matching rule, using default policy";
         audit_matchedRule := None; audit_agentId := Some "test-agent"%string;
         audit_sessionKey := None; audit_host := None |})].
Proof. reflexivity. Qed.

Lemma applies_iff (w : World) (details : list (string * JsValue)) (rule : PolicyRule) :
  applies w details rule = true
  <-> subject rule = "command"%string
      /\ enabled rule <> Some false
      /\ Forall (fun c => evaluateCondition w c details = true) (conditions rule).
Proof.
  unfold applies, is_command_rule, allMatch.
  rewrite !andb_true_iff, String.eqb_eq, forallb_forall, List.Forall_forall.
  split.
  - intros [[Hs He] Hc]. split; [exact Hs|]. split; [|exact Hc].
    now destruct (enabled rule) as [[|]|].
  - intros (Hs & He & Hc). split; [split; [exact Hs|] | exact Hc].
    now destruct (enabled rule) as [[|]|].
Qed.

(** C1. Let the gate be enabled and [loadPolicy] hand over a policy. A
    rule counts exactly when its subject is [command], its [enabled] flag
    is not [false], and every one of its conditions holds. If a rule
    counts and every other counting rule has a lower priority, or the
    same priority and a later or equal place in the declaration,
    [evaluateCommand] returns that rule's action as its decision and its
    id as [matchedRule]. If no rule counts, it returns the policy's
    default action and no [matchedRule]. One of the two always is the
    case. Actions pass through [normalizeAction], which maps
    [allow], [deny] and [ask] to themselves. *)
Theorem evaluateCommand_selects_by_priority (st : State) (w : World)
    (policy : PolicyConfig) (command : string) (opts : Options) :
  isPolicyGateEnabled w = true ->
  (loadPolicy st w).1.1 = Normal (Some policy) ->
  let details := details_of w command opts in
  let result := (evaluateCommand st w command opts).1.1 in
  (forall rule,
      applies w details rule = true
      <-> subject rule = "command"%string
          /\ enabled rule <> Some false
          /\ Forall (fun c => evaluateCondition w c details = true) (conditions rule))
  /\ (forall i rule,
         selected (applies w details) (rules policy) i rule ->
         decision result = normalizeAction (action rule)
         /\ matchedRule result = Some (id rule))
  /\ ((forall rule, In rule (rules policy) -> applies w details rule = false) ->
      decision result = normalizeAction (or_else (defaultAction policy) "ask")
      /\ matchedRule result = None)
  /\ ((exists i rule, selected (applies w details) (rules policy) i rule)
      \/ (forall rule, In rule (rules policy) -> applies w details rule = false))
  /\ (forall a, In a ["allow"; "deny"; "ask"]%string ->
                decision_name (normalizeAction a) = a).
Proof.
  intros Hen Hload details result.
  assert (Hres : result
                 = (evaluate_with (loadPolicy st w).1.2 w policy command opts).1.1).
  { unfold result, evaluateCommand. rewrite Hen. simpl.
    destruct (loadPolicy st w) as [[c st1] out]. simpl in Hload. subst c. simpl.
    now destruct (evaluate_with st1 w policy command opts) as [[r s] o]. }
  assert (Hfind : forall s,
            (evaluate_with s w policy command opts).1.1
            = match best_rule (applies w details) (rules policy) with
              | Some rule =>
                  {| decision := normalizeAction (action rule);
                     reason := opt_or_else (description rule)
                                 ("Matched rule: " +:+ id rule);
                     matchedRule := Some (id rule);
                     evaluatedAt := now_eval w |}
              | None =>
                  {| decision := normalizeAction (or_else (defaultAction policy) "ask");
                     reason := "No matching rule, using default policy";
                     matchedRule := None;
                     evaluatedAt := now_eval w |}
              end).
  { intros s. unfold evaluate_with. fold details.
    rewrite (find_commandRules w details policy).
    destruct (best_rule (applies w details) (rules policy)) as [rule|];
      now destruct (writeAudit s w _). }
  rewrite Hres, Hfind.
  split; [intros rule; apply applies_iff|].
  split; [|split; [|split]].
  - intros i rule Hsel.
    rewrite (selected_is_best _ _ i rule Hsel). split; reflexivity.
  - intros Hnone.
    rewrite (proj2 (best_rule_none _ _) Hnone). split; reflexivity.
  - destruct (best_rule (applies w details) (rules policy)) as [rule|] eqn:E.
    + left. destruct (best_rule_selected _ _ rule E) as (i & Hsel). eauto.
    + right. exact (proj1 (best_rule_none _ _) E).
  - intros a [<-|[<-|[<-|[]]]]; reflexivity.
Qed.

(** The test [evaluates rules by priority]: the rule declared second,
    with priority 10, wins over the rule declared first with priority 1. *)
Lemma evaluateCommand_selects_by_priority_witness :
  let r := (evaluateCommand resetPolicyGateCache (Scenario.with_policy Scenario.git_policy)
              "git status" no_options).1.1 in
  decision r = Allow /\ matchedRule r = Some "high-priority-allow"%string.
Proof.
  destruct (evaluateCommand_selects_by_priority resetPolicyGateCache
              (Scenario.with_policy Scenario.git_policy) Scenario.git_policy
              "git status" no_options eq_refl eq_refl)
    as (_ & Hsel & _).
  apply (Hsel 1%nat Scenario.high_priority_allow).
  split; [reflexivity|]. split; [reflexivity|].
  intros [|[|j]] other Ho _; simpl in Ho; try discriminate; injection Ho as <-.
  - left. reflexivity.
  - right. split; [reflexivity | lia].
Defined.

(** C3, as the code behaves. With the gate enabled, nothing cached and a
    policy file that is absent, cannot be inspected or cannot be read or
    parsed, [evaluateCommand] returns [allow] with the reason
    [No policy config found], and appends nothing to the audit files; with
    an absent file it does not log anything either. *)
Theorem fail_open_leaves_no_audit_entry (st : State) (w : World) (command : string)
    (opts : Options) :
  isPolicyGateEnabled w = true ->
  cachedPolicy st = None ->
  (policy_file w = Absent
   \/ (exists e content, policy_file w = Present (Throw e) content)
   \/ (exists mtime e, policy_file w = Present mtime (Throw e))) ->
  let result := (evaluateCommand st w command opts).1.1 in
  let out := (evaluateCommand st w command opts).2 in
  decision result = Allow
  /\ reason result = "No policy config found"%string
  /\ audited out = []
  /\ (policy_file w = Absent -> out = silent).
Proof.
  intros Hen Hcache Hfile. unfold evaluateCommand. rewrite Hen. simpl.
  unfold loadPolicy. rewrite Hcache.
  destruct Hfile as [-> | [(e & content & ->) | (mtime & e & ->)]]; simpl.
  - repeat split.
  - repeat split. discriminate.
  - destruct mtime as [mt|e']; simpl; repeat split; discriminate.
Qed.

Lemma fail_open_leaves_no_audit_entry_witness :
  let run := evaluateCommand resetPolicyGateCache (Scenario.gate_world Absent)
               "ls" no_options in
  decision run.1.1 = Allow
  /\ reason run.1.1 = "No policy config found"%string
  /\ audited run.2 = []
  /\ audited (evaluateCommand resetPolicyGateCache
                (Scenario.gate_world Scenario.broken_policy_file) "ls" no_options).2
     = [].
Proof.
  destruct (fail_open_leaves_no_audit_entry resetPolicyGateCache
              (Scenario.gate_world Absent) "ls" no_options eq_refl eq_refl
              (or_introl eq_refl)) as (H1 & H2 & H3 & _).
  destruct (fail_open_leaves_no_audit_entry resetPolicyGateCache
              (Scenario.gate_world Scenario.broken_policy_file) "ls" no_options
              eq_refl eq_refl
              (or_intror (or_intror (ex_intro _ _ (ex_intro _ _ eq_refl)))))
    as (_ & _ & H4 & _).
  repeat split; assumption.
Defined.

End PolicyGateSpec.

(* ====================================================================== *)
(** * More about the command policy gate                                   *)
(* ====================================================================== *)

Module PolicyGateMore.
Import PolicyGate PolicyGateFacts GateWorlds.

Local Open Scope Z_scope.

Lemma loadPolicy_keeps_audit_flag (st : State) (w : World) :
  auditDirChecked (loadPolicy st w).1.2 = auditDirChecked st.
Proof.
  unfold loadPolicy.
  destruct (cachedPolicy st) as [cached|].
  - destruct (now_load w - lastPolicyCheck st <? POLICY_CACHE_TTL_MS); [reflexivity|].
    destruct (policy_file w) as [|[mt|e] content]; try reflexivity.
    destruct (mt =? _); [reflexivity|]. now destruct content.
  - destruct (policy_file w) as [|[mt|e] content]; try reflexivity.
    now destruct content.
Qed.

(** The result of the evaluation proper, without the bookkeeping. *)
Lemma evaluate_with_result (s : State) (w : World) (policy : PolicyConfig)
    (command : string) (opts : Options) :
  (evaluate_with s w policy command opts).1.1
  = match best_rule (applies w (details_of w command opts)) (rules policy) with
    | Some rule =>
        {| decision := normalizeAction (action rule);
           reason := opt_or_else (description rule) ("Matched rule: " +:+ id rule);
           matchedRule := Some (id rule);
           evaluatedAt := now_eval w |}
    | None =>
        {| decision := normalizeAction (or_else (defaultAction policy) "ask");
           reason := "No matching rule, using default policy";
           matchedRule := None;
           evaluatedAt := now_eval w |}
    end.
Proof.
  unfold evaluate_with.
  rewrite (find_commandRules w (details_of w command opts) policy).
  destruct (best_rule _ (rules policy)) as [rule|]; now destruct (writeAudit s w _).
Qed.

(** What [evaluateCommand] does once a policy is loaded. *)
Lemma evaluateCommand_loaded (st : State) (w : World) (policy : PolicyConfig)
    (command : string) (opts : Options) :
  isPolicyGateEnabled w = true ->
  (loadPolicy st w).1.1 = Normal (Some policy) ->
  evaluateCommand st w command opts
  = ((evaluate_with (loadPolicy st w).1.2 w policy command opts).1.1,
     (evaluate_with (loadPolicy st w).1.2 w policy command opts).1.2,
     out_app (loadPolicy st w).2
       (evaluate_with (loadPolicy st w).1.2 w policy command opts).2).
Proof.
  intros Hen Hload. unfold evaluateCommand. rewrite Hen. simpl.
  destruct (loadPolicy st w) as [[c st1] out]. simpl in *. subst c.
  now destruct (evaluate_with st1 w policy command opts) as [[r s] o].
Qed.

Lemma switched_off_disabled (w : World) : switched_off w -> isPolicyGateEnabled w = false.
Proof.
  intros (e & He & Hin). unfold isPolicyGateEnabled. rewrite He. simpl.
  destruct Hin as [H|[H|[H|[]]]]; rewrite <- H; reflexivity.
Qed.

Lemma switched_on_enabled (w : World) : switched_on w -> isPolicyGateEnabled w = true.
Proof.
  intros (e & He & Hin). unfold isPolicyGateEnabled. rewrite He. simpl.
  destruct Hin as [H|[H|[H|[]]]]; rewrite <- H; reflexivity.
Qed.

(** X1. When the override variable says 0, false or off, in any mix of
    upper and lower case, every command is allowed with the reason
    [Policy gate disabled], whatever the policy file and the cache hold;
    nothing is audited or logged and the module variables stay as they
    are. The same holds when the variable is not one of the six
    recognised words and there is no policy file. *)
Theorem disabled_gate_allows_silently (st : State) (w : World) (command : string)
    (opts : Options) :
  switched_off w \/ (~ switched_on w /\ policy_file w = Absent) ->
  evaluateCommand st w command opts
  = ({| decision := Allow; reason := "Policy gate disabled"; matchedRule := None;
        evaluatedAt := now_eval w |}, st, silent).
Proof.
  intros H.
  assert (Hdis : isPolicyGateEnabled w = false).
  { destruct H as [H|[Hon Hfile]]; [now apply switched_off_disabled|].
    unfold isPolicyGateEnabled. rewrite Hfile.
    destruct (env_GANESH_POLICY_GATE w) as [e|] eqn:He; simpl; [|reflexivity].
    destruct (String.eqb (toLowerCase e) "0" || String.eqb (toLowerCase e) "false"
              || String.eqb (toLowerCase e) "off"); [reflexivity|].
    destruct (String.eqb (toLowerCase e) "1" || String.eqb (toLowerCase e) "true"
              || String.eqb (toLowerCase e) "on") eqn:E; [|reflexivity].
    exfalso. apply Hon. exists e. split; [exact He|].
    rewrite !orb_true_iff, !String.eqb_eq in E.
    destruct E as [[E|E]|E]; rewrite E; simpl; auto. }
  unfold evaluateCommand. now rewrite Hdis.
Qed.

Lemma disabled_gate_allows_silently_witness :
  evaluateCommand resetPolicyGateCache
    (with_audit
       {| env_GANESH_POLICY_GATE := Some "OFF"%string;
          policy_file := Present (Normal 1) (Normal (Some Scenario.rm_policy));
          now_eval := 5; now_load := 6; audit_date := "2024-01-01";
          audit_dir_exists := true; mkdir_audit_dir := Normal tt;
          append_audit_file := Normal tt; regexp_test := fun _ _ => None;
          path_basename := Scenario.after_last_slash |}
       "2024-01-01" true (Normal tt) (Normal tt))
    "rm -rf /" no_options
  = ({| decision := Allow; reason := "Policy gate disabled"; matchedRule := None;
        evaluatedAt := 5 |}, resetPolicyGateCache, silent).
Proof.
  apply disabled_gate_allows_silently. left.
  exists "OFF"%string. split; [reflexivity|]. simpl. auto.
Defined.

(** X2. While a policy is cached and less than 30000 ms have passed since
    the file was last looked at, [loadPolicy] hands over the cached policy
    and leaves the module variables alone; an enabled gate then decides
    every command as it would with that policy, whatever has become of the
    file in the meantime, deletion and corruption included. *)
Theorem cached_policy_served_within_ttl (st : State) (w : World) (p : PolicyConfig)
    (file : PolicyFile) (command : string) (opts : Options) :
  cachedPolicy st = Some p ->
  now_load w - lastPolicyCheck st < POLICY_CACHE_TTL_MS ->
  isPolicyGateEnabled (with_policy_file w file) = true ->
  loadPolicy st (with_policy_file w file) = (Normal (Some p), st, silent)
  /\ (evaluateCommand st (with_policy_file w file) command opts).1.1
     = match best_rule (applies w (details_of w command opts)) (rules p) with
       | Some rule =>
           {| decision := normalizeAction (action rule);
              reason := opt_or_else (description rule) ("Matched rule: " +:+ id rule);
              matchedRule := Some (id rule);
              evaluatedAt := now_eval w |}
       | None =>
           {| decision := normalizeAction (or_else (defaultAction p) "ask");
              reason := "No matching rule, using default policy";
              matchedRule := None;
              evaluatedAt := now_eval w |}
       end.
Proof.
  intros Hc Hfresh Hen.
  assert (Hload : loadPolicy st (with_policy_file w file) = (Normal (Some p), st, silent)).
  { unfold loadPolicy. rewrite Hc. simpl.
    apply Z.ltb_lt in Hfresh. now rewrite Hfresh. }
  split; [exact Hload|].
  rewrite (evaluateCommand_loaded st _ p command opts Hen) by now rewrite Hload.
  simpl. rewrite evaluate_with_result. reflexivity.
Qed.

Lemma cached_policy_served_within_ttl_witness :
  decision (evaluateCommand git_cached (Scenario.gate_world Absent) "git status"
              no_options).1.1
  = Allow.
Proof.
  pose proof (proj2 (cached_policy_served_within_ttl git_cached
                       (Scenario.gate_world Absent) Scenario.git_policy Absent
                       "git status" no_options eq_refl ltac:(vm_compute; reflexivity)
                       eq_refl)) as H.
  change (with_policy_file (Scenario.gate_world Absent) Absent)
    with (Scenario.gate_world Absent) in H.
  rewrite H. reflexivity.
Defined.

(** X3. When the cached policy is older than 30000 ms and the file has
    gone or cannot be inspected, read or parsed, [loadPolicy] answers
    [null] once: an enabled gate allows that command with the reason
    [No policy config found]. The cached policy stays in place and the
    time of the check is noted, so during the next 30000 ms the cached
    policy is enforced again without a look at the file. *)
Theorem stale_cache_fails_open_once (st : State) (w : World) (p : PolicyConfig)
    (command : string) (opts : Options) :
  cachedPolicy st = Some p ->
  POLICY_CACHE_TTL_MS <= now_load w - lastPolicyCheck st ->
  unloadable (cachedPolicyMtime st) (policy_file w) ->
  isPolicyGateEnabled w = true ->
  let st1 := (loadPolicy st w).1.2 in
  (loadPolicy st w).1.1 = Normal None
  /\ decision (evaluateCommand st w command opts).1.1 = Allow
  /\ audited (evaluateCommand st w command opts).2 = []
  /\ (evaluateCommand st w command opts).1.2 = st1
  /\ cachedPolicy st1 = Some p
  /\ lastPolicyCheck st1 = now_load w
  /\ forall w2,
      now_load w2 - now_load w < POLICY_CACHE_TTL_MS ->
      loadPolicy st1 w2 = (Normal (Some p), st1, silent).
Proof.
  intros Hc Hstale Hbad Hen st1.
  assert (Hload : exists out,
             loadPolicy st w = (Normal None, set_check st (now_load w), out)
             /\ audited out = []).
  { unfold loadPolicy. rewrite Hc. apply Z.ltb_ge in Hstale. rewrite Hstale.
    destruct Hbad as [-> | [(e & content & ->) | (mtime & e & -> & Hne)]]; simpl.
    - now eexists.
    - now eexists.
    - apply Z.eqb_neq in Hne. rewrite Hne. now eexists. }
  destruct Hload as (out & Hload & Hout).
  assert (Heval : evaluateCommand st w command opts
                  = ({| decision := Allow; reason := "No policy config found";
                        matchedRule := None; evaluatedAt := now_eval w |},
                     set_check st (now_load w), out)).
  { unfold evaluateCommand. now rewrite Hen, Hload. }
  unfold st1. rewrite Heval, Hload. simpl.
  repeat (split; [auto; fail|]).
  intros w2 Hsoon. unfold loadPolicy. simpl. rewrite Hc.
  apply Z.ltb_lt in Hsoon. now rewrite Hsoon.
Qed.

Lemma stale_cache_fails_open_once_witness :
  let w := Scenario.gate_world broken_after_edit in
  let st1 := (loadPolicy git_stale w).1.2 in
  decision (evaluateCommand git_stale w "git-shell" no_options).1.1 = Allow
  /\ loadPolicy st1 (Scenario.gate_world broken_after_edit)
     = (Normal (Some Scenario.git_policy), st1, silent).
Proof.
  intros w st1.
  assert (H0 : POLICY_CACHE_TTL_MS <= now_load w - lastPolicyCheck git_stale)
    by (vm_compute; discriminate).
  assert (H2 : unloadable (cachedPolicyMtime git_stale) (policy_file w)).
  { right. right. do 2 eexists. split; [reflexivity | discriminate]. }
  destruct (stale_cache_fails_open_once git_stale w Scenario.git_policy "git-shell"
              no_options eq_refl H0 H2 eq_refl) as (_ & H1 & _ & _ & _ & _ & Hnext).
  split; [exact H1|].
  apply Hnext. vm_compute. reflexivity.
Defined.

(** X4. When the cached policy is older than 30000 ms and the file is
    there, the modification time decides: with the remembered time the
    cached policy is handed over and the content is not looked at, so an
    edit that keeps the time stamp goes unnoticed; with another time the
    content replaces the cached policy and its time is remembered. *)
Theorem stale_cache_reloads_on_new_mtime (st : State) (w : World) (p : PolicyConfig)
    (mtime : Z) (content : Completion (option PolicyConfig)) :
  cachedPolicy st = Some p ->
  POLICY_CACHE_TTL_MS <= now_load w - lastPolicyCheck st ->
  policy_file w = Present (Normal mtime) content ->
  (mtime = cachedPolicyMtime st ->
   loadPolicy st w = (Normal (Some p), set_check st (now_load w), silent))
  /\ (mtime <> cachedPolicyMtime st ->
      forall parsed, content = Normal parsed ->
      loadPolicy st w
      = (Normal parsed,
         {| cachedPolicy := parsed; cachedPolicyMtime := mtime;
            lastPolicyCheck := now_load w; auditDirChecked := auditDirChecked st |},
         silent)).
Proof.
  intros Hc Hstale Hfile. apply Z.ltb_ge in Hstale.
  unfold loadPolicy. rewrite Hc, Hstale, Hfile. simpl. split.
  - intros ->. now rewrite Z.eqb_refl.
  - intros Hne parsed ->. apply Z.eqb_neq in Hne. now rewrite Hne.
Qed.

Lemma stale_cache_reloads_on_new_mtime_witness :
  (loadPolicy git_stale
     (Scenario.gate_world
        (Present (Normal 1704000000000) (Normal (Some Scenario.rm_policy))))).1.1
  = Normal (Some Scenario.git_policy)
  /\ (loadPolicy git_stale
        (Scenario.gate_world
           (Present (Normal 1704070000000) (Normal (Some Scenario.rm_policy))))).1.1
     = Normal (Some Scenario.rm_policy).
Proof.
  split.
  - rewrite (proj1 (stale_cache_reloads_on_new_mtime git_stale
                      (Scenario.gate_world
                         (Present (Normal 1704000000000)
                            (Normal (Some Scenario.rm_policy))))
                      Scenario.git_policy 1704000000000
                      (Normal (Some Scenario.rm_policy))
                      eq_refl ltac:(vm_compute; discriminate) eq_refl) eq_refl).
    reflexivity.
  - rewrite (proj2 (stale_cache_reloads_on_new_mtime git_stale
                      (Scenario.gate_world
                         (Present (Normal 1704070000000)
                            (Normal (Some Scenario.rm_policy))))
                      Scenario.git_policy 1704070000000
                      (Normal (Some Scenario.rm_policy))
                      eq_refl ltac:(vm_compute; discriminate) eq_refl)
               ltac:(discriminate) (Some Scenario.rm_policy) eq_refl).
    reflexivity.
Defined.

Lemma writeAudit_works (st : State) (w : World) (entry : AuditEntry) :
  audit_works st w ->
  writeAudit st w entry
  = ({| cachedPolicy := cachedPolicy st; cachedPolicyMtime := cachedPolicyMtime st;
        lastPolicyCheck := lastPolicyCheck st; auditDirChecked := true |},
     {| audited := [(audit_date w, entry)]; logged := [] |})
  \/ (auditDirChecked st = true
      /\ writeAudit st w entry = (st, {| audited := [(audit_date w, entry)]; logged := [] |})).
Proof.
  intros [Hdir (u & Happ)]. unfold writeAudit, ensureAuditDir.
  destruct (auditDirChecked st) eqn:Hchk.
  - right. split; [reflexivity|]. now rewrite Happ.
  - left. destruct Hdir as [Hd|[Hd|(u' & Hd)]]; [discriminate| |].
    + now rewrite Hd, Happ.
    + destruct (audit_dir_exists w); now rewrite ?Hd, Happ.
Qed.

(** X5. With the gate enabled, a policy loaded and an audit directory and
    file that can be written, one evaluation appends exactly one audit
    record, to the file of the current date, and the record carries the
    command, the caller's identity and the very decision, reason and
    matched rule that are returned; afterwards the audit directory is
    known to exist. *)
Theorem evaluation_audits_its_result (st : State) (w : World) (policy : PolicyConfig)
    (command : string) (opts : Options) :
  isPolicyGateEnabled w = true ->
  (loadPolicy st w).1.1 = Normal (Some policy) ->
  audit_works st w ->
  audited (evaluateCommand st w command opts).2
  = [(audit_date w, audit_of w command opts (evaluateCommand st w command opts).1.1)]
  /\ auditDirChecked (evaluateCommand st w command opts).1.2 = true.
Proof.
  intros Hen Hload Haudit.
  rewrite (evaluateCommand_loaded st w policy command opts Hen Hload). simpl.
  assert (Hout : audited (loadPolicy st w).2 = []).
  { unfold loadPolicy.
    destruct (cachedPolicy st) as [cached|].
    - destruct (now_load w - lastPolicyCheck st <? POLICY_CACHE_TTL_MS); [reflexivity|].
      destruct (policy_file w) as [|[mt|e] content]; try reflexivity.
      destruct (mt =? _); [reflexivity|]. now destruct content.
    - destruct (policy_file w) as [|[mt|e] content]; try reflexivity.
      now destruct content. }
  rewrite Hout. simpl.
  assert (Haudit1 : audit_works (loadPolicy st w).1.2 w).
  { destruct Haudit as [Hd Ha]. split; [|exact Ha].
    rewrite loadPolicy_keeps_audit_flag. exact Hd. }
  set (s := (loadPolicy st w).1.2) in *.
  rewrite evaluate_with_result. unfold evaluate_with.
  rewrite (find_commandRules w (details_of w command opts) policy).
  destruct (best_rule _ (rules policy)) as [rule|].
  - match goal with |- context [writeAudit s w ?e] =>
      destruct (writeAudit_works s w e Haudit1) as [H|[Hc H]]; rewrite H end;
      simpl; auto.
  - match goal with |- context [writeAudit s w ?e] =>
      destruct (writeAudit_works s w e Haudit1) as [H|[Hc H]]; rewrite H end;
      simpl; auto.
Qed.

Lemma evaluation_audits_its_result_witness :
  audited (evaluateCommand resetPolicyGateCache (Scenario.with_policy Scenario.git_policy)
             "git status"
             {| agentId := Some "main"%string; sessionKey := None;
                host := Some "gateway"%string; cwd := None |}).2
  = [("2024-01-01"%string,
      {| timestamp := 1704073050000; audit_command := "git status";
         audit_decision := Allow;
         audit_reason := "Matched rule: high-priority-allow";
         audit_matchedRule := Some "high-priority-allow"%string;
         audit_agentId := Some "main"%string; audit_sessionKey := None;
         audit_host := Some "gateway"%string |})].
Proof.
  rewrite (proj1 (evaluation_audits_its_result resetPolicyGateCache
                    (Scenario.with_policy Scenario.git_policy) Scenario.git_policy
                    "git status" _ eq_refl eq_refl
                    (conj (or_intror (or_introl eq_refl)) (ex_intro _ tt eq_refl)))).
  reflexivity.
Defined.

(** X6. The decision does not depend on the audit trail: with the audit
    directory missing, not creatable or the file not appendable, an
    evaluation returns the same result and keeps the same policy cache as
    with a working one. *)
Theorem result_independent_of_audit (st : State) (w : World) (command : string)
    (opts : Options) (date : string) (dir_exists : bool) (mkdir append : Completion unit) :
  let w' := with_audit w date dir_exists mkdir append in
  (evaluateCommand st w' command opts).1.1 = (evaluateCommand st w command opts).1.1
  /\ cachedPolicy (evaluateCommand st w' command opts).1.2
     = cachedPolicy (evaluateCommand st w command opts).1.2
  /\ lastPolicyCheck (evaluateCommand st w' command opts).1.2
     = lastPolicyCheck (evaluateCommand st w command opts).1.2.
Proof.
  intros w'.
  assert (Hload : loadPolicy st w' = loadPolicy st w) by reflexivity.
  assert (Hen : isPolicyGateEnabled w' = isPolicyGateEnabled w) by reflexivity.
  assert (Hkeep : forall s x e,
             cachedPolicy (writeAudit s x e).1 = cachedPolicy s
             /\ lastPolicyCheck (writeAudit s x e).1 = lastPolicyCheck s).
  { intros s x e. unfold writeAudit, ensureAuditDir.
    destruct (auditDirChecked s); [now destruct (append_audit_file x)|].
    destruct (audit_dir_exists x); [now destruct (append_audit_file x)|].
    destruct (mkdir_audit_dir x); [now destruct (append_audit_file x) | auto]. }
  assert (Hstate : forall s x policy,
             cachedPolicy (evaluate_with s x policy command opts).1.2 = cachedPolicy s
             /\ lastPolicyCheck (evaluate_with s x policy command opts).1.2
                = lastPolicyCheck s).
  { intros s x policy. unfold evaluate_with.
    destruct (List.find _ _) as [rule|].
    - match goal with |- context [writeAudit s x ?e] =>
        pose proof (Hkeep s x e) as Hk; destruct (writeAudit s x e) end. exact Hk.
    - match goal with |- context [writeAudit s x ?e] =>
        pose proof (Hkeep s x e) as Hk; destruct (writeAudit s x e) end. exact Hk. }
  unfold evaluateCommand. rewrite Hen, Hload.
  destruct (isPolicyGateEnabled w); simpl; [|auto].
  destruct (loadPolicy st w) as [[[[policy|]|e] st1] out].
  - pose proof (evaluate_with_result st1 w' policy command opts) as R'.
    pose proof (evaluate_with_result st1 w policy command opts) as R.
    pose proof (Hstate st1 w' policy) as [S1' S2'].
    pose proof (Hstate st1 w policy) as [S1 S2].
    destruct (evaluate_with st1 w' policy command opts) as [[r' s'] o'].
    destruct (evaluate_with st1 w policy command opts) as [[r s] o].
    simpl in *. subst r r'. split; [reflexivity|]. split; congruence.
  - simpl. auto.
  - pose proof (Hkeep st1 w') as K'. pose proof (Hkeep st1 w) as K.
    match goal with |- context [writeAudit st1 w' ?e] =>
      specialize (K' e); destruct (writeAudit st1 w' e) end.
    match goal with |- context [writeAudit st1 w ?e] =>
      specialize (K e); destruct (writeAudit st1 w e) end.
    simpl in *. split; [reflexivity|]. destruct K, K'. split; congruence.
Qed.

Lemma best_rule_in (p : PolicyRule -> bool) (l : list PolicyRule) (r : PolicyRule) :
  best_rule p l = Some r -> In r l /\ p r = true.
Proof.
  intros H. destruct (best_rule_selected p l r H) as (i & Hi & Hp & _).
  split; [|exact Hp].
  apply list_elem_of_In. eapply list_elem_of_lookup_2. exact Hi.
Qed.

Lemma normalizeAction_allow (a : string) :
  normalizeAction a = Allow <-> toLowerCase a = "allow"%string.
Proof.
  unfold normalizeAction.
  destruct (String.eqb (toLowerCase a) "allow") eqn:E.
  - apply String.eqb_eq in E. tauto.
  - apply String.eqb_neq in E.
    destruct (String.eqb (toLowerCase a) "deny"); split; try discriminate; tauto.
Qed.

(** X7. An enabled gate with a policy never allows by accident: when the
    decision is [allow], either a rule of the policy counts for the
    command, is reported as the matched rule and has an action that reads
    [allow] once put in lower case, or no rule counts and the default
    action reads [allow] once put in lower case. A misspelt or unknown
    action never yields [allow]. *)
Theorem allow_needs_an_allow_action (st : State) (w : World) (policy : PolicyConfig)
    (command : string) (opts : Options) :
  isPolicyGateEnabled w = true ->
  (loadPolicy st w).1.1 = Normal (Some policy) ->
  decision (evaluateCommand st w command opts).1.1 = Allow ->
  let details := details_of w command opts in
  (exists rule,
      In rule (rules policy) /\ applies w details rule = true
      /\ toLowerCase (action rule) = "allow"%string
      /\ matchedRule (evaluateCommand st w command opts).1.1 = Some (id rule))
  \/ ((forall rule, In rule (rules policy) -> applies w details rule = false)
      /\ toLowerCase (defaultAction policy) = "allow"%string
      /\ matchedRule (evaluateCommand st w command opts).1.1 = None).
Proof.
  intros Hen Hload Hallow details. revert Hallow.
  rewrite (evaluateCommand_loaded st w policy command opts Hen Hload).
  cbn [fst snd]. rewrite evaluate_with_result. fold details. intros Hallow.
  destruct (best_rule (applies w details) (rules policy)) as [rule|] eqn:E;
    cbn [decision matchedRule] in *.
  - left. exists rule. destruct (best_rule_in _ _ _ E) as [Hin Hp].
    repeat split; auto. now apply normalizeAction_allow.
  - right. split; [exact (proj1 (best_rule_none _ _) E)|]. split; [|reflexivity].
    apply normalizeAction_allow in Hallow.
    destruct (defaultAction policy); [discriminate | exact Hallow].
Qed.

Lemma allow_needs_an_allow_action_witness :
  exists rule,
    In rule (rules Scenario.git_policy)
    /\ toLowerCase (action rule) = "allow"%string
    /\ Some (id rule) = Some "high-priority-allow"%string.
Proof.
  destruct (allow_needs_an_allow_action resetPolicyGateCache
              (Scenario.with_policy Scenario.git_policy) Scenario.git_policy
              "git status" no_options eq_refl eq_refl eq_refl)
    as [(rule & Hin & _ & Hact & Hid) | (_ & Hdef & _)].
  - exists rule. split; [exact Hin|]. split; [exact Hact|]. symmetry. exact Hid.
  - discriminate Hdef.
Defined.

(** A field path reaches a string or nothing in the details of a command. *)
Lemma details_reach_strings (w : World) (command : string) (opts : Options)
    (f : string) :
  getNestedValue (details_of w command opts) f = JUndefined
  \/ exists s, getNestedValue (details_of w command opts) f = JString s.
Proof.
  unfold getNestedValue.
  assert (Hwalk : forall v parts,
             (v = JUndefined \/ exists s, v = JString s) ->
             walk v parts = JUndefined \/ exists s, walk v parts = JString s).
  { intros v [|part parts] Hv; simpl; [exact Hv|].
    destruct Hv as [->|(s & ->)]; simpl; auto. }
  assert (Hne : split_dots f <> []).
  { destruct f as [|c f]; simpl; [discriminate|].
    destruct (code c =? 46); [discriminate|]. now destruct (split_dots f). }
  assert (Hown : forall fields key,
             Forall (fun kv => kv.2 = JUndefined \/ exists s, kv.2 = JString s) fields ->
             own_property fields key = JUndefined
             \/ exists s, own_property fields key = JString s).
  { intros fields key. induction 1 as [|[k v] fields Hv Hrest IH]; simpl; [auto|].
    destruct (String.eqb k key); [exact Hv | exact IH]. }
  destruct (split_dots f) as [|part parts]; [contradiction|].
  cbn [walk is_object get_property].
  apply Hwalk, Hown. unfold details_of.
  assert (Hjs : forall o, js_of o = JUndefined \/ exists s, js_of o = JString s).
  { intros [s|]; simpl; eauto. }
  repeat (constructor; [simpl; first [apply Hjs | right; eexists; reflexivity]|]).
  constructor.
Qed.

(** X8. The details of a command hold strings only, so the operators
    [gt] and [lt] never hold in an evaluation of [evaluateCommand], on
    any field and against any value, and a rule that has such a condition
    never counts. *)
Theorem numeric_conditions_never_hold (w : World) (command : string) (opts : Options)
    (c : PolicyCondition) :
  op c = OpGt \/ op c = OpLt ->
  evaluateCondition w c (details_of w command opts) = false
  /\ forall rule, In c (conditions rule) ->
                  applies w (details_of w command opts) rule = false.
Proof.
  intros Hop.
  assert (Hc : evaluateCondition w c (details_of w command opts) = false).
  { unfold evaluateCondition.
    destruct (details_reach_strings w command opts (cond_field c)) as [->|(s & ->)];
      destruct Hop as [->| ->]; reflexivity. }
  split; [exact Hc|].
  intros rule Hin. unfold applies, allMatch.
  apply andb_false_iff. right. apply not_true_is_false. intros Hall.
  rewrite forallb_forall in Hall. rewrite (Hall c Hin) in Hc. discriminate.
Qed.

Lemma numeric_conditions_never_hold_witness :
  applies (Scenario.gate_world Absent)
    (details_of (Scenario.gate_world Absent) "tar -czf backup.tgz /srv" no_options)
    long_command_rule
  = false.
Proof.
  apply (proj2 (numeric_conditions_never_hold (Scenario.gate_world Absent)
                  "tar -czf backup.tgz /srv" no_options
                  (condition "command.length" OpGt (CNumber 5))
                  (or_introl eq_refl))).
  simpl. auto.
Defined.

(** X9. A condition on a field that the details do not hold, such as
    [host], [cwd] or [agentId] when the caller gave none, or a field name
    the details never have, holds exactly when its operator is [neq]:
    such a rule applies to every caller that stays anonymous. *)
Theorem absent_field_only_satisfies_neq (w : World) (command : string) (opts : Options)
    (f : string) (o : Op) (v : ConditionValue) :
  getNestedValue (details_of w command opts) f = JUndefined ->
  (evaluateCondition w (condition f o v) (details_of w command opts) = true
   <-> o = OpNeq)
  /\ (host opts = None -> getNestedValue (details_of w command opts) "host" = JUndefined)
  /\ (cwd opts = None -> getNestedValue (details_of w command opts) "cwd" = JUndefined)
  /\ (agentId opts = None ->
      getNestedValue (details_of w command opts) "agentId" = JUndefined)
  /\ getNestedValue (details_of w command opts) "sessionKey" = JUndefined.
Proof.
  intros Hf. split.
  - unfold evaluateCondition, condition. simpl. rewrite Hf.
    destruct o; simpl; split; try discriminate; try reflexivity; try tauto;
      try (destruct v; discriminate).
  - repeat split; try (intros H; unfold getNestedValue, details_of; simpl; now rewrite H).
Qed.

Lemma absent_field_only_satisfies_neq_witness :
  evaluateCondition (Scenario.gate_world Absent)
    (condition "host" OpNeq (CString "production"))
    (details_of (Scenario.gate_world Absent) "reboot" no_options)
  = true.
Proof.
  apply (proj1 (absent_field_only_satisfies_neq (Scenario.gate_world Absent) "reboot"
                  no_options "host" OpNeq (CString "production") eq_refl)).
  reflexivity.
Defined.

End PolicyGateMore.

(* ====================================================================== *)
(** * The base command of a command line                                   *)
(* ====================================================================== *)

Module BaseCommandFacts.
Import PolicyGate GateWorlds.

Lemma take_while_app (p : ascii -> bool) (a b : string) :
  all_chars p a = true -> stops p b -> take_while p (a +:+ b) = a.
Proof.
  intros Ha Hb. induction a as [|c a IH].
  - rewrite append_nil. destruct b as [|d b]; simpl in *; [reflexivity | now rewrite Hb].
  - rewrite append_cons. simpl in *. apply andb_true_iff in Ha as [Hc Ha].
    rewrite Hc. f_equal. exact (IH Ha).
Qed.

Lemma drop_while_app (p : ascii -> bool) (a b : string) :
  all_chars p a = true -> stops p b -> drop_while p (a +:+ b) = b.
Proof.
  intros Ha Hb. induction a as [|c a IH].
  - rewrite append_nil. destruct b as [|d b]; simpl in *; [reflexivity | now rewrite Hb].
  - rewrite append_cons. simpl in *. apply andb_true_iff in Ha as [Hc Ha].
    rewrite Hc. exact (IH Ha).
Qed.

Lemma drop_while_end_app (p : ascii -> bool) (pre x : string) :
  x <> EmptyString -> drop_while_end p x = x ->
  drop_while_end p (pre +:+ x) = pre +:+ x.
Proof.
  intros Hne Hx. induction pre as [|c pre IH].
  - now rewrite append_nil.
  - rewrite append_cons. simpl. rewrite IH.
    destruct (pre +:+ x) eqn:E; [|reflexivity].
    destruct pre; [rewrite append_nil in E; contradiction | discriminate].
Qed.

Lemma strip_prefix_sound (p s r : string) : strip_prefix p s = Some r -> s = p +:+ r.
Proof.
  revert s. induction p as [|c p IH]; intros s; simpl.
  - now intros [= ->].
  - destruct s as [|d s]; [discriminate|].
    destruct (Ascii.eqb_spec c d) as [->|]; [|discriminate].
    intros H. rewrite append_cons. f_equal. exact (IH s H).
Qed.

(** Two ways of cutting a text at its first white space agree. *)
Lemma first_space_unique (word pre rest r : string) (sp : ascii) :
  all_chars not_space word = true -> starts_with_space rest = true ->
  all_chars not_space pre = true -> is_space sp = true ->
  word +:+ rest = pre +:+ String sp r -> word = pre.
Proof.
  intros Hw Hrest Hpre Hsp. revert pre Hpre.
  induction word as [|c word IH]; intros pre Hpre.
  - rewrite append_nil. destruct pre as [|d pre]; [reflexivity|].
    rewrite append_cons. intros ->. simpl in Hrest, Hpre.
    apply andb_true_iff in Hpre as [Hd _]. unfold not_space in Hd.
    rewrite Hrest in Hd. discriminate.
  - simpl in Hw. apply andb_true_iff in Hw as [Hc Hw].
    destruct pre as [|d pre].
    + rewrite append_nil, append_cons. intros [= -> _].
      unfold not_space in Hc. rewrite Hsp in Hc. discriminate.
    + rewrite !append_cons. intros [= -> E]. f_equal.
      simpl in Hpre. apply andb_true_iff in Hpre as [_ Hpre].
      exact (IH Hw pre Hpre E).
Qed.

Lemma word_chars_not_space (word : string) :
  all_chars word_char word = true -> all_chars not_space word = true.
Proof.
  apply ResolverFacts.all_chars_impl. intros c H.
  now apply andb_true_iff in H as [H _].
Qed.

Lemma stops_not_space (rest : string) : starts_with_space rest = true -> stops not_space rest.
Proof. destruct rest as [|c rest]; simpl; [auto|]. intros H. unfold not_space. now rewrite H. Qed.

Lemma drop_while_stops (p : ascii -> bool) (s : string) : stops p s -> drop_while p s = s.
Proof. destruct s as [|c s]; simpl; [reflexivity|]. now intros ->. Qed.

Lemma trim_kept (s : string) :
  stops is_space s -> drop_while_end is_space s = s -> trim s = s.
Proof. intros H1 H2. unfold trim. now rewrite (drop_while_stops _ _ H1). Qed.

Lemma trim_kept_inv (s : string) :
  stops is_space s -> trim s = s -> drop_while_end is_space s = s.
Proof. intros H1 H2. unfold trim in H2. now rewrite (drop_while_stops _ _ H1) in H2. Qed.

(** A prefix that starts with a character other than white space keeps a
    trimmed text trimmed. *)
Lemma trim_prefixed (c : ascii) (pre x : string) :
  is_space c = false -> x <> EmptyString -> stops is_space x -> trim x = x ->
  trim (String c pre +:+ x) = String c pre +:+ x.
Proof.
  intros Hc Hne Hx Ht. apply trim_kept.
  - rewrite append_cons. exact Hc.
  - apply drop_while_end_app; [exact Hne|]. now apply trim_kept_inv.
Qed.

Lemma word_not_space (c : ascii) : is_word c = true -> is_space c = false.
Proof.
  unfold is_word, is_space, is_upper, is_lower, is_digit, in_range.
  generalize (code c). intros z. lia.
Qed.

(** One assignment in front of a text is recognised and removed. *)
Lemma env_assignment_strips (var val t : string) :
  assignment_ok (var, val) = true -> stops is_space t ->
  env_assignment (var +:+ "=" +:+ val +:+ " " +:+ t) = Some t.
Proof.
  unfold assignment_ok, Resolver.word_plus. simpl.
  intros [[[Hv1 Hv2]%andb_true_iff Hl1]%andb_true_iff Hl2]%andb_true_iff Ht.
  apply negb_true_iff in Hv1, Hl1.
  unfold env_assignment.
  rewrite (take_while_app is_word var _ Hv2) by reflexivity. rewrite Hv1.
  rewrite (drop_while_app is_word var _ Hv2) by reflexivity.
  rewrite append_cons, append_nil. cbn [code N_of_ascii]. simpl (_ =? _)%Z.
  rewrite (take_while_app not_space val _ Hl2) by reflexivity. rewrite Hl1.
  rewrite (drop_while_app not_space val _ Hl2) by reflexivity.
  rewrite append_cons, append_nil. simpl.
  now rewrite (drop_while_stops _ _ Ht).
Qed.

Lemma sudo_flag_strips (flag t : string) :
  flag_ok flag = true -> stops is_space t ->
  sudo_flag ("-" +:+ flag +:+ " " +:+ t) = Some t.
Proof.
  unfold flag_ok. intros [Hf1 Hf2]%andb_true_iff Ht. apply negb_true_iff in Hf1.
  rewrite append_cons, append_nil. unfold sudo_flag. simpl (_ =? _)%Z. cbv iota.
  rewrite (take_while_app not_space flag _ Hf2) by reflexivity. rewrite Hf1.
  rewrite (drop_while_app not_space flag _ Hf2) by reflexivity.
  rewrite append_cons, append_nil. simpl.
  now rewrite (drop_while_stops _ _ Ht).
Qed.

Lemma with_assignments_stops (assigns : list (string * string)) (t : string) :
  forallb assignment_ok assigns = true -> stops is_space t ->
  stops is_space (with_assignments assigns t).
Proof.
  destruct assigns as [|[var val] more]; simpl; [auto|].
  intros [H _]%andb_true_iff _. unfold assignment_ok, Resolver.word_plus in H. simpl in H.
  apply andb_true_iff in H as [H _]. apply andb_true_iff in H as [H _].
  apply andb_true_iff in H as [Hne Hw].
  destruct var as [|c var]; [discriminate|]. rewrite append_cons. simpl in *.
  apply andb_true_iff in Hw as [Hc _]. now apply word_not_space.
Qed.

Lemma with_flags_stops (flags : list string) (t : string) :
  stops is_space t -> stops is_space (with_flags flags t).
Proof. destruct flags as [|flag more]; simpl; [auto|]. intros _. reflexivity. Qed.

(** Enough rounds remove all the assignments in front of a text that has
    none itself. *)
Lemma strip_env_all (assigns : list (string * string)) (t : string) (n : nat) :
  forallb assignment_ok assigns = true -> stops is_space t ->
  (forall k, strip_env k t = t) ->
  (List.length assigns <= n)%nat ->
  strip_env n (with_assignments assigns t) = t.
Proof.
  intros Hok Ht Hfix. revert n.
  induction assigns as [|[var val] more IH]; intros n Hn; simpl; [apply Hfix|].
  simpl in Hok. apply andb_true_iff in Hok as [Ha Hmore].
  destruct n as [|n]; [simpl in Hn; lia|]. simpl.
  rewrite (env_assignment_strips var val _ Ha (with_assignments_stops more t Hmore Ht)).
  apply IH; [exact Hmore | simpl in Hn; lia].
Qed.

Lemma strip_flags_all (flags : list string) (t : string) (n : nat) :
  forallb flag_ok flags = true -> stops is_space t ->
  (forall k, strip_flags k t = t) ->
  (List.length flags <= n)%nat ->
  strip_flags n (with_flags flags t) = t.
Proof.
  intros Hok Ht Hfix. revert n.
  induction flags as [|flag more IH]; intros n Hn; [apply Hfix|].
  simpl in Hok. apply andb_true_iff in Hok as [Ha Hmore].
  destruct n as [|n]; [simpl in Hn; lia|]. cbn [strip_flags with_flags].
  rewrite (sudo_flag_strips flag _ Ha (with_flags_stops more t Ht)).
  apply IH; [exact Hmore | simpl in Hn; lia].
Qed.

Lemma length_append (a b : string) :
  String.length (a +:+ b) = (String.length a + String.length b)%nat.
Proof.
  induction a as [|c a IH]; [reflexivity|]. rewrite append_cons. simpl. now rewrite IH.
Qed.

Lemma with_assignments_length (assigns : list (string * string)) (t : string) :
  (List.length assigns <= String.length (with_assignments assigns t))%nat.
Proof.
  induction assigns as [|[var val] more IH]; simpl; [lia|].
  rewrite !length_append. simpl. lia.
Qed.

Lemma with_flags_length (flags : list string) (t : string) :
  (List.length flags <= String.length (with_flags flags t))%nat.
Proof.
  induction flags as [|flag more IH]; simpl; [lia|].
  rewrite !length_append. simpl. lia.
Qed.

Lemma not_empty_length (s : string) : (0 < String.length s)%nat -> s <> EmptyString.
Proof. destruct s; simpl; [lia | discriminate]. Qed.

Lemma trim_with_assignments (assigns : list (string * string)) (t : string) :
  forallb assignment_ok assigns = true ->
  t <> EmptyString -> stops is_space t -> trim t = t ->
  trim (with_assignments assigns t) = with_assignments assigns t.
Proof.
  intros Hok Hne Hs Ht.
  induction assigns as [|[var val] more IH]; [exact Ht|].
  pose proof (with_assignments_stops _ t Hok Hs) as Hstops.
  simpl in Hok. apply andb_true_iff in Hok as [Ha Hmore].
  specialize (IH Hmore).
  apply trim_kept; [exact Hstops|].
  cbn [with_assignments]. rewrite <- !append_assoc.
  apply drop_while_end_app.
  - destruct more as [|[v' l'] more']; [exact Hne|].
    apply not_empty_length. cbn [with_assignments]. rewrite !length_append. simpl. lia.
  - apply trim_kept_inv; [|exact IH]. now apply with_assignments_stops.
Qed.

Lemma trim_with_flags (flags : list string) (t : string) :
  t <> EmptyString -> stops is_space t -> trim t = t ->
  trim (with_flags flags t) = with_flags flags t.
Proof.
  intros Hne Hs Ht.
  induction flags as [|flag more IH]; [exact Ht|].
  apply trim_kept; [reflexivity|].
  cbn [with_flags]. rewrite <- !append_assoc.
  apply drop_while_end_app.
  - destruct more as [|f' more']; [exact Hne|].
    apply not_empty_length. cbn [with_flags]. rewrite !length_append. simpl. lia.
  - apply trim_kept_inv; [|exact IH]. now apply with_flags_stops.
Qed.

(** What [extractBaseCommand] yields once the three stages are known. *)
Lemma extractBaseCommand_stages (w : World) (line stripped word : string) :
  trim line = line ->
  strip_sudo (strip_env (String.length line) line) = stripped ->
  take_while not_space stripped = word ->
  is_empty word = false ->
  extractBaseCommand w line = path_basename w word.
Proof.
  intros Ht Hs Hw He. unfold extractBaseCommand. now rewrite Ht, Hs, Hw, He.
Qed.

Section Plain.

Variables (word rest : string).
Hypothesis Hplain : plain_word word = true.
Hypothesis Hrest : starts_with_space rest = true.

Lemma plain_chars : all_chars word_char word = true.
Proof. destruct word; [discriminate|]. now apply andb_true_iff in Hplain as [_ H]. Qed.

Lemma plain_first_word : take_while not_space (word +:+ rest) = word.
Proof.
  apply take_while_app; [apply word_chars_not_space, plain_chars|].
  now apply stops_not_space.
Qed.

(** No assignment stands at the start of a plain command. *)
Lemma plain_no_assignment : env_assignment (word +:+ rest) = None.
Proof.
  unfold env_assignment.
  destruct (is_empty (take_while is_word (word +:+ rest))); [reflexivity|].
  assert (H : forall w, all_chars word_char w = true ->
              match drop_while is_word (w +:+ rest) with
              | String c _ => (code c =? 61)%Z = false
              | EmptyString => True
              end).
  { induction w as [|c w IH]; intros Hw.
    - rewrite append_nil. destruct rest as [|d r]; simpl in *; [exact I|].
      destruct (is_word d) eqn:Hd.
      + exfalso. revert Hd Hrest. unfold is_word, is_space, is_upper, is_lower,
          is_digit, in_range. generalize (code d). intros z. lia.
      + revert Hrest. unfold is_space, in_range. generalize (code d). intros z. lia.
    - rewrite append_cons. simpl in *. apply andb_true_iff in Hw as [Hc Hw].
      destruct (is_word c); [exact (IH Hw)|].
      unfold word_char in Hc. apply andb_true_iff in Hc as [_ Hc].
      now apply negb_true_iff in Hc. }
  specialize (H word plain_chars).
  destruct (drop_while is_word (word +:+ rest)) as [|c r]; [reflexivity|].
  now rewrite H.
Qed.

Lemma plain_strip_env (n : nat) : strip_env n (word +:+ rest) = word +:+ rest.
Proof. destruct n; simpl; [reflexivity|]. now rewrite plain_no_assignment. Qed.

Lemma plain_no_flag : sudo_flag (word +:+ rest) = None.
Proof.
  destruct word as [|c w]; [discriminate|]. rewrite append_cons. simpl in *.
  apply andb_true_iff in Hplain as [Hc _]. apply negb_true_iff in Hc. now rewrite Hc.
Qed.

Lemma plain_strip_flags (n : nat) : strip_flags n (word +:+ rest) = word +:+ rest.
Proof. destruct n; simpl; [reflexivity|]. now rewrite plain_no_flag. Qed.

Lemma plain_strip_sudo :
  word <> "sudo"%string -> strip_sudo (word +:+ rest) = word +:+ rest.
Proof.
  intros Hne. unfold strip_sudo.
  destruct (strip_prefix "sudo" (word +:+ rest)) as [r|] eqn:E; [|reflexivity].
  destruct (is_empty (take_while is_space r)) eqn:E2; [reflexivity|]. exfalso.
  apply strip_prefix_sound in E.
  destruct r as [|sp r]; [discriminate|]. simpl in E2.
  destruct (is_space sp) eqn:Hsp; [|discriminate].
  apply Hne.
  eapply (first_space_unique word "sudo" rest r sp); eauto.
  apply word_chars_not_space, plain_chars.
Qed.

Lemma plain_not_empty : is_empty word = false.
Proof. now destruct word. Qed.

Lemma plain_starts_not_space : stops is_space (word +:+ rest).
Proof.
  destruct word as [|c w]; [discriminate|]. rewrite append_cons. simpl in *.
  apply andb_true_iff in Hplain as [_ H]. apply andb_true_iff in H as [Hc _].
  unfold word_char, not_space in Hc. apply andb_true_iff in Hc as [Hc _].
  now apply negb_true_iff in Hc.
Qed.

End Plain.

End BaseCommandFacts.

Module BaseCommandSpec.
Import PolicyGate GateWorlds BaseCommandFacts.

(** X10. Take a command line without surrounding white space whose first
    word is not [sudo], does not start with a hyphen and holds no equals
    sign. Its base command is [path.basename] of that word, and it stays
    the same when any number of [VAR=value] assignments are written in
    front, and when [sudo] with any number of one-word flags is written
    between the assignments and the word. *)
Theorem base_command_ignores_env_and_sudo (w : World)
    (assigns : list (string * string)) (flags : list string) (word rest : string) :
  forallb assignment_ok assigns = true ->
  forallb flag_ok flags = true ->
  plain_word word = true ->
  word <> "sudo"%string ->
  starts_with_space rest = true ->
  trim (word +:+ rest) = word +:+ rest ->
  extractBaseCommand w (with_assignments assigns (word +:+ rest)) = path_basename w word
  /\ extractBaseCommand w
       (with_assignments assigns ("sudo " +:+ with_flags flags (word +:+ rest)))
     = path_basename w word.
Proof.
  intros Ha Hf Hp Hne Hr Ht.
  pose proof (plain_starts_not_space word rest Hp) as Hx.
  assert (Hxne : word +:+ rest <> EmptyString).
  { destruct word; [discriminate|]. rewrite append_cons. discriminate. }
  split.
  - apply (extractBaseCommand_stages w _ (word +:+ rest) word).
    + now apply trim_with_assignments.
    + rewrite (strip_env_all assigns (word +:+ rest) _ Ha Hx
                 (plain_strip_env word rest Hp Hr) (with_assignments_length _ _)).
      now apply plain_strip_sudo.
    + now apply plain_first_word.
    + now apply plain_not_empty.
  - set (t := with_flags flags (word +:+ rest)).
    assert (Hts : stops is_space t) by now apply with_flags_stops.
    assert (Htne : t <> EmptyString).
    { unfold t. destruct flags as [|f fs]; [exact Hxne|].
      apply not_empty_length. cbn [with_flags]. rewrite !length_append. simpl. lia. }
    assert (Htt : trim t = t) by now apply trim_with_flags.
    assert (Hsudo : "sudo " +:+ t = String "s" (String "u" (String "d" (String "o"
                      (String " " t))))) by reflexivity.
    assert (Hst : trim ("sudo " +:+ t) = "sudo " +:+ t).
    { rewrite Hsudo.
      change (String "s" (String "u" (String "d" (String "o" (String " " t)))))
        with (String "s" "udo " +:+ t).
      now apply trim_prefixed. }
    apply (extractBaseCommand_stages w _ (word +:+ rest) word).
    + apply trim_with_assignments;
        [exact Ha | rewrite Hsudo; discriminate | rewrite Hsudo; reflexivity | exact Hst].
    + rewrite (strip_env_all assigns ("sudo " +:+ t) _ Ha).
      * rewrite Hsudo. unfold strip_sudo. cbn [strip_prefix Ascii.eqb Bool.eqb].
        cbn [take_while is_space in_range code N_of_ascii]. simpl is_empty.
        cbv iota. simpl (drop_while is_space (String " " t)).
        rewrite (drop_while_stops _ _ Hts).
        apply (strip_flags_all flags (word +:+ rest) _ Hf Hx
                 (plain_strip_flags word rest Hp)).
        pose proof (with_flags_length flags (word +:+ rest)). fold t in H.
        simpl. lia.
      * now rewrite Hsudo.
      * intros [|k]; [reflexivity|]. rewrite Hsudo. reflexivity.
      * apply with_assignments_length.
    + now apply plain_first_word.
    + now apply plain_not_empty.
Qed.

Lemma base_command_ignores_env_and_sudo_witness :
  extractBaseCommand (Scenario.gate_world Absent)
    "LANG=C TERM=dumb sudo -n -E /usr/bin/systemctl stop openclaw"
  = Scenario.after_last_slash "/usr/bin/systemctl".
Proof.
  apply (proj2 (base_command_ignores_env_and_sudo (Scenario.gate_world Absent)
                  [("LANG", "C"); ("TERM", "dumb")]%string ["n"; "E"]%string
                  "/usr/bin/systemctl" " stop openclaw"
                  eq_refl eq_refl eq_refl ltac:(discriminate) eq_refl eq_refl)).
Defined.

End BaseCommandSpec.

(* ====================================================================== *)
(** * More on src/secrets/resolver.ts                                      *)
(* ====================================================================== *)

Module ResolverMore.
Import Resolver ResolverCases.

Lemma try_prefixes_sound (alts : list string) (ref b rest : string) :
  try_prefixes alts ref = Some (b, rest) ->
  In b alts /\ ref = b +:+ ":" +:+ rest /\ dot_plus rest = true.
Proof.
  induction alts as [|a alts IH]; simpl; [discriminate|].
  destruct (strip_prefix (a +:+ ":") ref) as [r|] eqn:Hs.
  - destruct (dot_plus r) eqn:Hd.
    + intros [= <- <-]. split; [now left|]. split; [|exact Hd].
      rewrite (BaseCommandFacts.strip_prefix_sound _ _ _ Hs). apply append_assoc.
    + intros H. destruct (IH H) as (Hin & Href & Hr). auto.
  - intros H. destruct (IH H) as (Hin & Href & Hr). auto.
Qed.

Lemma code_hash (c : ascii) : (code c =? 35)%Z = true -> c = "#"%char.
Proof.
  intros H%Z.eqb_eq. unfold code in H.
  rewrite <- (ascii_N_embedding c).
  replace (N_of_ascii c) with 35%N by lia. reflexivity.
Qed.

Lemma split_last_hash_sound (s before after : string) :
  split_last_hash s = Some (before, after) -> s = before +:+ "#" +:+ after.
Proof.
  revert before. induction s as [|c s IH]; intros before; simpl; [discriminate|].
  destruct (split_last_hash s) as [[x y]|].
  - intros [= <- <-]. rewrite append_cons. f_equal. now apply IH.
  - destruct (code c =? 35)%Z eqn:Hc; [|discriminate].
    intros [= <- <-]. now rewrite (code_hash c Hc).
Qed.

Lemma fieldMatch_sound (s p f : string) :
  fieldMatch s = Some (p, f) ->
  s = p +:+ "#" +:+ f /\ dot_plus p = true /\ word_plus f = true.
Proof.
  unfold fieldMatch.
  destruct (split_last_hash s) as [[x y]|] eqn:Hs; [|discriminate].
  destruct (dot_plus x) eqn:Hx; [|discriminate].
  destruct (word_plus y) eqn:Hy; [|discriminate].
  simpl. intros [= <- <-]. split; [|auto]. now apply split_last_hash_sound.
Qed.

Lemma dot_plus_not_empty (s : string) : dot_plus s = true -> s <> EmptyString.
Proof. now destruct s. Qed.

(** X11. Parsing loses nothing of a reference. The text is the path,
    followed by [#] and the field when a field was split off; in front of
    it stands either one of the five prefixes with its colon, which then
    is the backend, or nothing, and then the backend is the default. The
    path of a non-empty reference is never empty, and a field consists of
    word characters only. *)
Theorem parseSecretRef_lossless (ref defaultBackend : string) :
  let r := parseSecretRef ref defaultBackend in
  ((In (backend r) prefixes /\ ref = backend r +:+ ":" +:+ written r)
   \/ (backend r = defaultBackend /\ ref = written r))
  /\ (ref <> EmptyString -> path r <> EmptyString)
  /\ (forall f, field r = Some f -> word_plus f = true).
Proof.
  unfold parseSecretRef, written.
  destruct (prefixMatch ref) as [[b rest]|] eqn:Hp.
  - apply try_prefixes_sound in Hp as (Hin & -> & Hd).
    destruct (fieldMatch rest) as [[p f]|] eqn:Hf; simpl.
    + apply fieldMatch_sound in Hf as (-> & Hdp & Hw).
      split; [left; auto|]. split; [intros _; now apply dot_plus_not_empty|].
      now intros f' [= <-].
    + split; [left; auto|]. split; [intros _; now apply dot_plus_not_empty|].
      discriminate.
  - destruct (fieldMatch ref) as [[p f]|] eqn:Hf; simpl.
    + apply fieldMatch_sound in Hf as (-> & Hdp & Hw).
      split; [right; auto|]. split; [intros _; now apply dot_plus_not_empty|].
      now intros f' [= <-].
    + split; [right; auto|]. split; [auto|]. discriminate.
Qed.

(** What [getBackend] does to the module variables. *)
Lemma getBackend_state (st st1 : State) (w : World) (type : string)
    (config : option SecretsBackendConfig) (o : Completion SecretsBackend) :
  getBackend st w type config = (o, st1) ->
  secretsCache st1 = secretsCache st
  /\ (forall t b, backendInstances st !! t = Some b -> backendInstances st1 !! t = Some b)
  /\ (forall b, o = Normal b -> backendInstances st1 !! type = Some b)
  /\ (forall e, o = Throw e -> st1 = st).
Proof.
  unfold getBackend.
  destruct (backendInstances st !! type) as [b0|] eqn:Hl.
  - intros [= <- <-]. split; [reflexivity|]. split; [auto|]. split; [|discriminate].
    now intros b [= <-].
  - destruct (createBackend w _) as [b1|e].
    + intros [= <- <-]. simpl. split; [reflexivity|]. split; [|split; [|discriminate]].
      * intros t b Ht. rewrite lookup_insert_ne; [exact Ht|].
        intros <-. congruence.
      * intros b [= <-]. apply lookup_insert_eq.
    + intros [= <- <-]. split; [reflexivity|]. split; [auto|]. split; [discriminate|auto].
Qed.

(** What the [try] block does to the module variables. *)
Lemma resolveSecret_try_state (st : State) (env : Env) (ref : string)
    (config : option SecretsBackendConfig) :
  let out := resolveSecret_try st env ref config in
  (forall k, k <> ref -> secretsCache out.1.2 !! k = secretsCache st !! k)
  /\ ((forall r, out.1.1 = Normal r -> ok r = false) ->
      secretsCache out.1.2 = secretsCache st)
  /\ (forall t b, backendInstances st !! t = Some b ->
                  backendInstances out.1.2 !! t = Some b).
Proof.
  unfold resolveSecret_try.
  destruct (getBackend st (world env) _ config) as [[b|e] st1] eqn:Hg;
    apply getBackend_state in Hg as (Hc & Hi & _).
  2: { simpl. rewrite Hc. auto. }
  destruct (isAvailable b (world env)) as [[|]|e]; simpl;
    try (rewrite Hc; now auto).
  destruct (fst (resolve b (world env) _ _)) as [[v|]|e]; simpl;
    try (rewrite Hc; now auto).
  split; [|split; [|exact Hi]].
  - intros k Hk. rewrite lookup_insert_ne; [now rewrite Hc | congruence].
  - intros H. specialize (H _ eq_refl). discriminate.
Qed.

(** X12. One call of [resolveSecret] touches the cache at most under the
    reference it was given: every other entry stays as it was. A call
    that ends with [ok = false] changes no entry at all, so an entry whose
    TTL has run out survives a failed refresh. Backend objects are only
    ever added: one that exists is still there, unchanged, afterwards. *)
Theorem resolveSecret_frame (st : State) (env : Env) (ref : string)
    (config : option SecretsBackendConfig) :
  let out := resolveSecret st env ref config in
  (forall k, k <> ref -> secretsCache out.1.2 !! k = secretsCache st !! k)
  /\ (forall r, out.1.1 = Normal r -> ok r = false ->
                secretsCache out.1.2 = secretsCache st)
  /\ (forall t b, backendInstances st !! t = Some b ->
                  backendInstances out.1.2 !! t = Some b).
Proof.
  pose proof (resolveSecret_try_state st env ref config) as Htry.
  unfold resolveSecret.
  destruct (match secretsCache st !! ref with
            | Some cached =>
                if (now_check env - resolvedAt cached <? CACHE_TTL_MS)%Z
                then Some cached else None
            | None => None
            end) as [c|]; [simpl; auto|].
  destruct (resolveSecret_try st env ref config) as [[o st1] calls].
  simpl in *. destruct Htry as (Hk & Hfail & Hinst).
  split; [exact Hk|]. split; [|exact Hinst].
  intros r Hr Hok. apply Hfail. intros r' ->. simpl in Hr. now injection Hr as <-.
Qed.

(** X13. The first successful [getBackend] for a backend type fixes the
    object for good: every later call for that type returns the same
    object and leaves the module variables alone, whatever configuration
    and machine it is given. A call that throws stores nothing. *)
Theorem backend_instance_first_config_wins (st st1 : State) (w : World) (type : string)
    (config : option SecretsBackendConfig) (o : Completion SecretsBackend) :
  getBackend st w type config = (o, st1) ->
  (forall b, o = Normal b ->
     forall w' config', getBackend st1 w' type config' = (Normal b, st1))
  /\ (forall e, o = Throw e -> st1 = st).
Proof.
  intros Hg. apply getBackend_state in Hg as (_ & _ & Hb & He).
  split; [|exact He].
  intros b Ho w' config'. unfold getBackend. now rewrite (Hb b Ho).
Qed.

Lemma backend_instance_first_config_wins_witness :
  let first := PassBackend.as_backend (PassBackend.new Scenario.pass_world None) in
  let st1 := (getBackend initial Scenario.pass_world "pass" None).2 in
  getBackend st1 no_store_world "pass" (Some (pass_config "/srv/store")) = (Normal first, st1).
Proof.
  intros first st1.
  exact (proj1 (backend_instance_first_config_wins initial st1 Scenario.pass_world "pass"
                  None (Normal first) eq_refl) first eq_refl no_store_world
               (Some (pass_config "/srv/store"))).
Defined.

Lemma createBackend_pass (w : World) (c : SecretsBackendConfig) (b : SecretsBackend) :
  createBackend w c = Normal b ->
  cfg_backend c = "pass" /\ b = PassBackend.as_backend (PassBackend.new w (cfg_pass c)).
Proof.
  unfold createBackend.
  destruct (String.eqb_spec (cfg_backend c) "pass") as [->|_].
  - now intros [= <-].
  - repeat (destruct (String.eqb _ _); [discriminate|]). discriminate.
Qed.

Lemma createBackend_other (w : World) (c : SecretsBackendConfig) :
  cfg_backend c <> "pass" -> exists msg, createBackend w c = Throw (ErrorObject msg).
Proof.
  intros Hne. unfold createBackend.
  destruct (String.eqb_spec (cfg_backend c) "pass") as [H|_]; [contradiction|].
  repeat (destruct (String.eqb _ _); [eexists; reflexivity|]). eexists; reflexivity.
Qed.

Lemma getBackend_pass_instances (st st1 : State) (w : World) (type : string)
    (config : option SecretsBackendConfig) (o : Completion SecretsBackend) :
  pass_instances st ->
  getBackend st w type config = (o, st1) ->
  pass_instances st1
  /\ forall b, o = Normal b -> exists w' c, b = PassBackend.as_backend (PassBackend.new w' c).
Proof.
  intros Hinv. unfold getBackend.
  destruct (backendInstances st !! type) as [b0|] eqn:Hl.
  - intros [= <- <-]. split; [exact Hinv|]. intros b [= <-]. exact (Hinv _ _ Hl).
  - destruct (createBackend w _) as [b1|e] eqn:Hc.
    + apply createBackend_pass in Hc as [_ ->].
      intros [= <- <-]. split.
      * intros t b. simpl. destruct (decide (t = type)) as [->|Hne].
        -- rewrite lookup_insert_eq. intros [= <-]. eauto.
        -- rewrite lookup_insert_ne by congruence. apply Hinv.
      * intros b [= <-]. eauto.
    + intros [= <- <-]. split; [exact Hinv|]. discriminate.
Qed.

(** X14. As long as every backend object was made by [new PassBackend],
    which is so at start-up and is kept by every call, a value returned
    by [resolveSecret] has one of two origins, whatever prefix the
    reference carries: the cache entry of that very reference, returned
    with [cached = true], or the output of [pass show] for the parsed path
    on a store found available in this call. *)
Theorem values_come_from_cache_or_pass (st st' : State) (env : Env) (ref : string)
    (config : option SecretsBackendConfig) (r : SecretResolutionResult)
    (calls : list BackendCall) :
  pass_instances st ->
  resolveSecret st env ref config = (Normal r, st', calls) ->
  pass_instances st'
  /\ (ok r = true ->
      (cached r = Some true
       /\ exists e, secretsCache st !! ref = Some e /\ value r = Some (entry_value e))
      \/ (cached r = None
          /\ exists w c v,
               let this := PassBackend.new w c in
               let parsed := parseSecretRef ref (default_backend config) in
               PassBackend.isAvailable this (world env) = Normal true
               /\ (PassBackend.resolve this (world env) (path parsed) (field parsed)).1
                  = Normal (Some v)
               /\ value r = Some v)).
Proof.
  intros Hinv. unfold resolveSecret.
  destruct (secretsCache st !! ref) as [c|] eqn:Hc.
  1: destruct (now_check env - resolvedAt c <? CACHE_TTL_MS)%Z.
  1: { intros [= <- <- <-]. split; [exact Hinv|]. intros _. left. simpl. eauto. }
  all: unfold resolveSecret_try;
    destruct (getBackend st (world env) _ config) as [[b|e] st1] eqn:Hg;
    apply (getBackend_pass_instances _ _ _ _ _ _ Hinv) in Hg as [Hinv1 Hb];
    [destruct (Hb b eq_refl) as (w & c' & ->); clear Hb; cbn [PassBackend.as_backend Types.isAvailable Types.resolve];
     destruct (PassBackend.isAvailable _ (world env)) as [[|]|e] eqn:Hav; simpl;
     [destruct (PassBackend.resolve _ (world env) _ _).1 as [[v|]|e] eqn:Hres; simpl|..]|];
    intros [= <- <- <-]; (split; [exact Hinv1|]); simpl; try discriminate;
    intros _; right; (split; [reflexivity|]); exists w, c', v; simpl; auto.
Qed.

Lemma values_come_from_cache_or_pass_witness :
  pass_instances Scenario.after_first_call.
Proof.
  assert (Hinit : pass_instances initial).
  { intros t b H. simpl in H. rewrite lookup_empty in H. discriminate. }
  exact (proj1 (values_come_from_cache_or_pass initial Scenario.after_first_call
                  Scenario.first_call Scenario.token_ref None
                  {| ok := true; value := Some "s3cr3t"; error := None; cached := None |}
                  (resolveSecret initial Scenario.first_call Scenario.token_ref None).2
                  Hinit eq_refl)).
Defined.

Lemma cache_miss_skips (st : State) (env : Env) (ref : string)
    (config : option SecretsBackendConfig) :
  cache_miss st (now_check env) ref ->
  resolveSecret st env ref config
  = ((let '(outcome, st1, calls) := resolveSecret_try st env ref config in
      (try_catch outcome (fun error => Normal (failure (error_message error))), st1, calls))).
Proof.
  unfold cache_miss, resolveSecret.
  destruct (secretsCache st !! ref) as [e|]; [|reflexivity].
  intros H%Z.ltb_ge. now rewrite H.
Qed.

(** X15. Which backend is constructed is decided by the configuration,
    not by the prefix of the reference. With a configuration for [pass]
    and no backend object yet for the parsed backend name, a reference
    of any prefix, [vault:] and [env:] included, is answered by
    [pass show] on the parsed path; with a configuration for any other
    backend every reference fails, [pass:] included, before any backend
    call and without a change of the module variables. *)
Theorem config_decides_backend (st : State) (env : Env) (ref : string)
    (c : SecretsBackendConfig) :
  cache_miss st (now_check env) ref ->
  backendInstances st !! backend (parseSecretRef ref (default_backend (Some c))) = None ->
  let parsed := parseSecretRef ref (default_backend (Some c)) in
  let this := PassBackend.new (world env) (cfg_pass c) in
  (cfg_backend c = "pass" ->
   forall v,
     PassBackend.isAvailable this (world env) = Normal true ->
     (PassBackend.resolve this (world env) (path parsed) (field parsed)).1
     = Normal (Some v) ->
     (resolveSecret st env ref (Some c)).1.1
     = Normal {| ok := true; value := Some v; error := None; cached := None |}
     /\ (resolveSecret st env ref (Some c)).2
        = [CallIsAvailable (backend parsed);
           CallResolve (backend parsed) (path parsed) (field parsed)])
  /\ (cfg_backend c <> "pass" ->
      exists msg, resolveSecret st env ref (Some c) = (Normal (failure msg), st, [])).
Proof.
  intros Hmiss Hnone parsed this.
  rewrite (cache_miss_skips st env ref (Some c) Hmiss).
  unfold resolveSecret_try, getBackend. fold parsed. fold parsed in Hnone.
  rewrite Hnone. cbn [default id]. split.
  - intros Hpass v Hav Hres. unfold createBackend. rewrite Hpass.
    cbn [String.eqb Ascii.eqb Bool.eqb andb].
    cbn [PassBackend.as_backend Types.isAvailable Types.resolve].
    fold this. rewrite Hav. cbn [negb]. rewrite Hres. split; reflexivity.
  - intros Hne. destruct (createBackend_other (world env) c Hne) as [msg ->].
    eexists. reflexivity.
Qed.

Lemma config_decides_backend_witness :
  (resolveSecret initial Scenario.first_call "vault:secret/data/app#api_key"
     (Some (pass_config "/srv/store"))).1.1
  = Normal {| ok := true; value := Some "s3cr3t"; error := None; cached := None |}
  /\ (resolveSecret initial Scenario.first_call "vault:secret/data/app#api_key"
        (Some (pass_config "/srv/store"))).2
     = [CallIsAvailable "vault"; CallResolve "vault" "secret/data/app" (Some "api_key")].
Proof.
  exact (proj1 (config_decides_backend initial Scenario.first_call
                  "vault:secret/data/app#api_key" (pass_config "/srv/store") I eq_refl)
               eq_refl "s3cr3t" eq_refl eq_refl).
Defined.

Lemma isAvailable_unusable (this : PassBackend.t) (w : World) :
  store_unusable w (PassBackend.storePath this) ->
  PassBackend.isAvailable this w = Normal false.
Proof.
  unfold PassBackend.isAvailable. intros [[e He]|[Hd|Hg]].
  - now rewrite He.
  - destruct (exec w _); [|reflexivity]. simpl. now rewrite Hd.
  - destruct (exec w _); [|reflexivity]. simpl.
    destruct (existsSync w (PassBackend.storePath this)); [|reflexivity].
    simpl. now rewrite Hg.
Qed.

(** X16. A reference for [pass] on a machine where [which pass] fails,
    the store directory is missing or it has no [.gpg-id] ends with the
    error [Backend "pass" is not available]: [pass show] is never run
    for it and the cache is left alone. The backend object made for the
    call is kept all the same, with the store path of that moment. *)
Theorem pass_unusable_store_not_asked (st : State) (env : Env) (ref : string)
    (config : option PassBackendConfig) :
  cache_miss st (now_check env) ref ->
  backendInstances st !! "pass" = None ->
  backend (parseSecretRef ref "pass") = "pass" ->
  let this := PassBackend.new (world env) config in
  store_unusable (world env) (PassBackend.storePath this) ->
  resolveSecret st env ref (Some {| cfg_backend := "pass"; cfg_pass := config |})
  = (Normal (failure ("Backend " +:+ quoted "pass" +:+ " is not available")),
     {| secretsCache := secretsCache st;
        backendInstances := <["pass" := PassBackend.as_backend this]> (backendInstances st) |},
     [CallIsAvailable "pass"]).
Proof.
  intros Hmiss Hnone Hparsed this Hbad.
  pose proof (isAvailable_unusable this (world env) Hbad) as Hav.
  rewrite (cache_miss_skips st env ref _ Hmiss).
  unfold resolveSecret_try, getBackend.
  change (default_backend (Some {| cfg_backend := "pass"; cfg_pass := config |}))
    with "pass".
  rewrite Hparsed, Hnone. cbn [default id]. unfold createBackend.
  cbn [cfg_backend cfg_pass String.eqb Ascii.eqb Bool.eqb andb].
  cbn [PassBackend.as_backend Types.isAvailable Types.resolve].
  fold this. rewrite Hav. reflexivity.
Qed.

Lemma pass_unusable_store_not_asked_witness :
  (resolveSecret initial no_store_call "openclaw/token"
     (Some {| cfg_backend := "pass"; cfg_pass := None |})).1.1
  = Normal (failure ("Backend " +:+ quoted "pass" +:+ " is not available")).
Proof.
  rewrite (pass_unusable_store_not_asked initial no_store_call "openclaw/token" None
             I eq_refl eq_refl (or_intror (or_introl eq_refl))).
  reflexivity.
Defined.

Lemma starts_with_iff (p s : string) :
  starts_with p s = true <-> exists r, s = p +:+ r.
Proof.
  split.
  - revert s. induction p as [|c p IH]; intros s; simpl; [eauto|].
    destruct s as [|d s]; [discriminate|].
    intros [Hc Hs]%andb_true_iff. apply Ascii.eqb_eq in Hc as ->.
    destruct (IH s Hs) as [r ->]. exists r. now rewrite append_cons.
  - intros [r ->]. induction p as [|c p IH]; [reflexivity|].
    rewrite append_cons. simpl. now rewrite Ascii.eqb_refl, IH.
Qed.

(** X30. [isSecretRef] holds for exactly the strings that begin with
    [pass:], [vault:], [keyring:] or [env:]. On a string whose prefix the
    parser takes, it holds unless the prefix is [file:], which the parser
    knows and [isSecretRef] does not. A string that [isSecretRef]
    accepts and the parser does not take has, after its prefix, nothing
    or a text with a line break; it is then parsed as a whole, for the
    default backend. *)
Theorem isSecretRef_and_parser (ref : string) :
  (isSecretRef ref = true
   <-> exists b rest, In b ["pass"; "vault"; "keyring"; "env"] /\ ref = b +:+ ":" +:+ rest)
  /\ (forall b rest, prefixMatch ref = Some (b, rest) ->
        isSecretRef ref = negb (String.eqb b "file"))
  /\ (isSecretRef ref = true -> prefixMatch ref = None ->
      (exists b rest, ref = b +:+ ":" +:+ rest /\ dot_plus rest = false)
      /\ forall d, backend (parseSecretRef ref d) = d).
Proof.
  assert (H1 : isSecretRef ref = true
               <-> exists b rest, In b ["pass"; "vault"; "keyring"; "env"]
                                  /\ ref = b +:+ ":" +:+ rest).
  { unfold isSecretRef. cbn [existsb]. rewrite !orb_true_iff, !starts_with_iff. split.
    - intros [[r H]|[[r H]|[[r H]|[[r H]|H]]]]; [..|discriminate];
        rewrite append_assoc in H; do 2 eexists; (split; [|exact H]); simpl; auto.
    - intros (b & rest & Hb & ->). rewrite <- !append_assoc.
      destruct Hb as [<-|[<-|[<-|[<-|[]]]]]; eauto 10. }
  split; [exact H1|]. split.
  - intros b rest Hp. apply try_prefixes_sound in Hp as (Hin & -> & _).
    destruct Hin as [<-|[<-|[<-|[<-|[<-|[]]]]]]; reflexivity.
  - intros Hrec Hnone. split.
    + apply H1 in Hrec as (b & rest & Hb & ->). exists b, rest. split; [reflexivity|].
      destruct (dot_plus rest) eqn:Hd; [|reflexivity].
      rewrite ResolverFacts.prefixMatch_app in Hnone; [discriminate| |exact Hd].
      simpl in Hb. unfold prefixes. simpl. tauto.
    + intros d. unfold parseSecretRef. rewrite Hnone.
      now destruct (fieldMatch ref) as [[p f]|].
Qed.

End ResolverMore.

(* ====================================================================== *)
(** * More on pass.ts and on the text helpers of the policy gate           *)
(* ====================================================================== *)

Module PassMore.
Import PassBackend.

Lemma filter_chars_all (q : ascii -> bool) (s : string) :
  all_chars q (filter_chars q s) = true.
Proof.
  induction s as [|c s IH]; simpl; [reflexivity|].
  destruct (q c) eqn:Hq; simpl; [now rewrite Hq|exact IH].
Qed.

Lemma filter_chars_length (q : ascii -> bool) (s : string) :
  (String.length (filter_chars q s) <= String.length s)%nat.
Proof.
  induction s as [|c s IH]; simpl; [lia|].
  destruct (q c); simpl; lia.
Qed.

Lemma filter_chars_id (q : ascii -> bool) (s : string) :
  filter_chars q s = s <-> all_chars q s = true.
Proof.
  induction s as [|c s IH]; simpl; [tauto|].
  destruct (q c) eqn:Hq; simpl.
  - rewrite <- IH. split; [now intros [= ->]|now intros ->].
  - split; [|discriminate].
    intros H. pose proof (filter_chars_length q s) as Hl.
    rewrite H in Hl. simpl in Hl. lia.
Qed.

(** X17. The command line that [resolve] hands to the shell is
    [pass show] followed by the sanitized path between double quotes, and
    the sanitized path holds nothing but ASCII letters, digits,
    underscore, hyphen and slash: no quote, dollar sign, backquote,
    backslash or white space of the caller's path reaches the shell.
    Sanitizing twice changes nothing more, a path of allowed characters is
    passed as it is, and the console warning is printed exactly when the
    path held a character that was removed. *)
Theorem pass_show_path_is_clean (this : t) (secretPath : string) :
  command (show_request this secretPath)
  = "pass show " +:+ dquote +:+ sanitize secretPath +:+ dquote
  /\ all_chars allowed_path_char (sanitize secretPath) = true
  /\ sanitize (sanitize secretPath) = sanitize secretPath
  /\ (sanitize secretPath = secretPath <-> all_chars allowed_path_char secretPath = true)
  /\ (sanitize_warning secretPath = [] <-> all_chars allowed_path_char secretPath = true).
Proof.
  split; [reflexivity|]. split; [apply filter_chars_all|].
  split; [apply filter_chars_id, filter_chars_all|].
  split; [apply filter_chars_id|].
  unfold sanitize_warning. rewrite <- filter_chars_id. fold (sanitize secretPath).
  destruct (String.eqb_spec (sanitize secretPath) secretPath) as [H|H].
  - tauto.
  - split; [discriminate|contradiction].
Qed.

End PassMore.

Module TruncateSpec.
Import PolicyGate.

Lemma take_length (n : nat) (s : string) :
  (n <= String.length s)%nat -> String.length (take n s) = n.
Proof.
  revert s. induction n as [|n IH]; intros [|c s]; simpl; try lia.
  intros H. rewrite IH; lia.
Qed.

(** X18. For a limit of three or more, [truncate] never returns more
    characters than the limit: a string within the limit comes back
    unchanged, and a longer one comes back as its first limit-minus-three
    characters followed by three dots, exactly as long as the limit. *)
Theorem truncate_fits (str : string) (maxLen : nat) :
  (3 <= maxLen)%nat ->
  (String.length (truncate str maxLen) <= maxLen)%nat
  /\ ((String.length str <= maxLen)%nat -> truncate str maxLen = str)
  /\ ((maxLen < String.length str)%nat ->
      truncate str maxLen = take (maxLen - 3) str +:+ "..."
      /\ String.length (truncate str maxLen) = maxLen).
Proof.
  intros H3. unfold truncate.
  destruct (Nat.leb_spec (String.length str) maxLen) as [Hle|Hgt].
  - split; [exact Hle|]. split; [reflexivity|lia].
  - assert (Hlen : String.length (take (maxLen - 3) str +:+ "...") = maxLen).
    { rewrite BaseCommandFacts.length_append, take_length by lia. simpl. lia. }
    split; [lia|]. split; [lia|]. auto.
Qed.

Lemma truncate_fits_witness :
  truncate "git push --force-with-lease origin main" 20 = "git push --force-..."
  /\ String.length (truncate "git push --force-with-lease origin main" 20) = 20%nat.
Proof.
  destruct (truncate_fits "git push --force-with-lease origin main" 20 ltac:(lia))
    as (_ & _ & Hlong).
  destruct (Hlong ltac:(simpl; lia)) as [Heq Hlen].
  split; [exact Heq | exact Hlen].
Defined.

End TruncateSpec.

(* ====================================================================== *)
(** * More on the one-time codes of ganesh.ts                              *)
(* ====================================================================== *)

Module TotpMore.
Import Totp TotpCases.

Local Open Scope Z_scope.

Lemma code_of_counter_padded (secret : string) (counter : Z) :
  exists h, code_of_counter secret counter
            = padStart0 6 (number_toString (truncate_hash h mod 1000000)).
Proof. eexists. reflexivity. Qed.

Lemma code_of_counter_decoded (s1 s2 : string) (counter : Z) :
  decode_secret s1 = decode_secret s2 ->
  code_of_counter s1 counter = code_of_counter s2 counter.
Proof. unfold code_of_counter. intros ->. reflexivity. Qed.

#[local] Opaque code_of_counter.

Lemma lor_bound (n a b : Z) :
  0 < n -> 0 <= a < 2 ^ n -> 0 <= b < 2 ^ n -> 0 <= Z.lor a b < 2 ^ n.
Proof.
  intros Hn Ha Hb.
  assert (H0 : 0 <= Z.lor a b) by (apply Z.lor_nonneg; lia).
  split; [exact H0|].
  destruct (Z.eq_dec (Z.lor a b) 0) as [->|Hne]; [lia|].
  apply Z.log2_lt_pow2; [lia|].
  rewrite Z.log2_lor by lia.
  destruct (Z.eq_dec a 0) as [->|Ha0]; destruct (Z.eq_dec b 0) as [->|Hb0];
    try (exfalso; apply Hne; reflexivity).
  - rewrite Z.max_r by apply Z.log2_nonneg. apply Z.log2_lt_pow2; lia.
  - rewrite Z.max_l by apply Z.log2_nonneg. apply Z.log2_lt_pow2; lia.
  - apply Z.max_lub_lt; apply Z.log2_lt_pow2; lia.
Qed.

Lemma land_mask (x : Z) (k : Z) : 0 <= k -> 0 <= Z.land x (Z.ones k) < 2 ^ k.
Proof. intros Hk. rewrite Z.land_ones by lia. apply Z.mod_pos_bound. lia. Qed.

(** The dynamic truncation yields a non-negative 31-bit integer, on which
    the remainder of JavaScript and [Z.modulo] agree. *)
Lemma truncate_hash_range (hash : list Z) : 0 <= truncate_hash hash < 2 ^ 31.
Proof.
  unfold truncate_hash.
  set (o := Z.to_nat _).
  pose proof (land_mask (nth o hash 0) 7 ltac:(lia)) as H1.
  pose proof (land_mask (nth (o + 1) hash 0) 8 ltac:(lia)) as H2.
  pose proof (land_mask (nth (o + 2) hash 0) 8 ltac:(lia)) as H3.
  pose proof (land_mask (nth (o + 3) hash 0) 8 ltac:(lia)) as H4.
  change (Z.ones 7) with 127 in H1. change (Z.ones 8) with 255 in H2, H3, H4.
  rewrite !Z.shiftl_mul_pow2 by lia.
  repeat apply lor_bound; lia.
Qed.

Lemma digit_char_is_digit (d : Z) : 0 <= d < 10 -> is_digit (digit_char d) = true.
Proof.
  intros H.
  assert (d = 0 \/ d = 1 \/ d = 2 \/ d = 3 \/ d = 4 \/ d = 5 \/ d = 6 \/ d = 7
          \/ d = 8 \/ d = 9) as E by lia.
  repeat (destruct E as [->|E]; [reflexivity|]). now subst.
Qed.

Lemma to_digits_spec (fuel : nat) : forall (k : nat) (n : Z) (acc : string),
  (1 <= k <= fuel)%nat -> 0 <= n < 10 ^ Z.of_nat k ->
  all_chars is_digit acc = true ->
  all_chars is_digit (to_digits fuel n acc) = true
  /\ (String.length acc < String.length (to_digits fuel n acc)
      <= String.length acc + k)%nat.
Proof.
  induction fuel as [|fuel IH]; intros k n acc Hk Hn Hacc; [lia|].
  cbn [to_digits].
  assert (Hd : is_digit (digit_char (n mod 10)) = true).
  { apply digit_char_is_digit. apply Z.mod_pos_bound. lia. }
  destruct (Z.eqb_spec (n / 10) 0) as [Hz|Hnz].
  - simpl. rewrite Hd, Hacc. split; [reflexivity|lia].
  - assert (Hk2 : (2 <= k)%nat).
    { destruct k as [|[|k]]; [lia| |lia].
      exfalso. apply Hnz. apply Z.div_small. simpl in Hn. lia. }
    destruct (IH (k - 1)%nat (n / 10) (String (digit_char (n mod 10)) acc)) as [Ha Hl].
    + lia.
    + split; [apply Z.div_pos; lia|].
      apply Z.div_lt_upper_bound; [lia|].
      replace (Z.of_nat k) with (Z.succ (Z.of_nat (k - 1))) in Hn by lia.
      rewrite Z.pow_succ_r in Hn by lia. lia.
    + simpl. now rewrite Hd, Hacc.
    + split; [exact Ha|]. simpl in Hl. lia.
Qed.

Lemma zeros_spec (n : nat) :
  all_chars is_digit (zeros n) = true /\ String.length (zeros n) = n.
Proof. induction n as [|n [IH1 IH2]]; simpl; [auto|]. now rewrite IH1, IH2. Qed.

Lemma padded_six (n : Z) :
  0 <= n < 1000000 ->
  String.length (padStart0 6 (number_toString n)) = 6%nat
  /\ all_chars is_digit (padStart0 6 (number_toString n)) = true.
Proof.
  intros Hn. unfold padStart0, number_toString.
  assert (Hn' : 0 <= n < 10 ^ Z.of_nat 6)
    by (change (10 ^ Z.of_nat 6) with 1000000; lia).
  destruct (to_digits_spec 20 6 n EmptyString ltac:(lia) Hn' eq_refl) as [Hd Hl].
  cbn [String.length] in Hl.
  destruct (zeros_spec (6 - String.length (to_digits 20 n EmptyString))) as [Hz Hzl].
  split.
  - rewrite BaseCommandFacts.length_append, Hzl. lia.
  - now rewrite all_chars_app, Hz, Hd.
Qed.

Lemma code_of_counter_six (secret : string) (counter : Z) :
  String.length (code_of_counter secret counter) = 6%nat
  /\ all_chars is_digit (code_of_counter secret counter) = true.
Proof.
  destruct (code_of_counter_padded secret counter) as [h ->].
  apply padded_six. apply Z.mod_pos_bound. lia.
Qed.

Lemma verifyTotp_needs_code (now : Z) (secret token : string) (window : Z) :
  verifyTotp now secret token window = true ->
  exists counter, token = code_of_counter secret counter.
Proof.
  unfold verifyTotp. generalize (seqZ (- window) (2 * window + 1)).
  intros l. induction l as [|i l IH]; cbn [existsb]; [discriminate|].
  intros [H|H]%orb_true_iff; [|exact (IH H)].
  apply String.eqb_eq in H. unfold generateTotp in H. eexists. symmetry. exact H.
Qed.

(** X19. Every code that [generateTotp] returns, for any secret and any
    time, is a string of exactly six decimal digits; the number under the
    padding comes from a digest value between 0 and 2^31 - 1. Hence
    [verifyTotp] accepts no token of another length or with another
    character, whatever the window. *)
Theorem totp_codes_are_six_digits (now : Z) (secret : string) :
  (forall hash, 0 <= truncate_hash hash < 2 ^ 31)
  /\ (forall time,
        String.length (generateTotp now secret time) = 6%nat
        /\ all_chars is_digit (generateTotp now secret time) = true)
  /\ (forall token window,
        verifyTotp now secret token window = true ->
        String.length token = 6%nat /\ all_chars is_digit token = true).
Proof.
  split; [exact truncate_hash_range|]. split.
  - intros time. unfold generateTotp. apply code_of_counter_six.
  - intros token window H.
    destruct (verifyTotp_needs_code now secret token window H) as [c ->].
    apply code_of_counter_six.
Qed.

Lemma toUpperCase_app (a b : string) :
  toUpperCase (a +:+ b) = toUpperCase a +:+ toUpperCase b.
Proof.
  induction a as [|c a IH]; [reflexivity|].
  rewrite append_cons. cbn [toUpperCase].
  change (String.append ?x ?y) with (x +:+ y).
  now rewrite IH, append_assoc.
Qed.

Lemma filter_chars_app (q : ascii -> bool) (a b : string) :
  filter_chars q (a +:+ b) = filter_chars q a +:+ filter_chars q b.
Proof.
  induction a as [|c a IH]; [reflexivity|].
  rewrite append_cons. simpl. destruct (q c); [|exact IH].
  now rewrite append_cons, IH.
Qed.

Lemma upper_lower_char (c : ascii) :
  filter_chars is_base32 (upper_units (lower_char c))
  = filter_chars is_base32 (upper_units c).
Proof. destruct c as [[] [] [] [] [] [] [] []]; reflexivity. Qed.

Lemma separator_vanishes (c : ascii) :
  is_separator c = true -> filter_chars is_base32 (upper_units c) = EmptyString.
Proof.
  destruct c as [[] [] [] [] [] [] [] []]; intros H;
    first [reflexivity | discriminate H].
Qed.

Lemma filtered_lower (s : string) :
  filter_chars is_base32 (toUpperCase (toLowerCase s))
  = filter_chars is_base32 (toUpperCase s).
Proof.
  induction s as [|c s IH]; [reflexivity|].
  unfold toLowerCase in *. cbn [map_chars toUpperCase].
  change (String.append ?x ?y) with (x +:+ y).
  now rewrite !filter_chars_app, upper_lower_char, IH.
Qed.

Lemma filtered_separators (sep : string) :
  all_chars is_separator sep = true ->
  filter_chars is_base32 (toUpperCase sep) = EmptyString.
Proof.
  induction sep as [|c s IH]; [reflexivity|].
  cbn [all_chars toUpperCase]. intros [Hc Hs]%andb_true_iff.
  change (String.append ?x ?y) with (x +:+ y).
  now rewrite filter_chars_app, (separator_vanishes c Hc), (IH Hs).
Qed.

Lemma decode_secret_filtered (s1 s2 : string) :
  filter_chars is_base32 (toUpperCase s1) = filter_chars is_base32 (toUpperCase s2) ->
  decode_secret s1 = decode_secret s2.
Proof. unfold decode_secret. now intros ->. Qed.

Lemma verifyTotp_decoded (now : Z) (s1 s2 token : string) (window : Z) :
  decode_secret s1 = decode_secret s2 ->
  verifyTotp now s1 token window = verifyTotp now s2 token window.
Proof.
  intros H. unfold verifyTotp. generalize (seqZ (- window) (2 * window + 1)).
  intros l. induction l as [|i l IH]; cbn [existsb]; [reflexivity|].
  unfold generateTotp at 1 3.
  now rewrite (code_of_counter_decoded s1 s2 _ H), IH.
Qed.

(** X20. How a shared secret is written does not matter: in lower case,
    or with blanks, hyphens and other characters that are neither ASCII
    letters, digits from 2 to 7 nor the sharp s put anywhere between its
    parts, it yields the same code at every time and is verified against
    the same tokens. *)
Theorem totp_secret_format_irrelevant (now : Z) (a b sep token : string)
    (time : option Z) (window : Z) :
  all_chars is_separator sep = true ->
  generateTotp now (a +:+ sep +:+ b) time = generateTotp now (a +:+ b) time
  /\ generateTotp now (toLowerCase (a +:+ b)) time = generateTotp now (a +:+ b) time
  /\ verifyTotp now (a +:+ sep +:+ b) token window = verifyTotp now (a +:+ b) token window
  /\ verifyTotp now (toLowerCase (a +:+ b)) token window
     = verifyTotp now (a +:+ b) token window.
Proof.
  intros Hsep.
  assert (H1 : decode_secret (a +:+ sep +:+ b) = decode_secret (a +:+ b)).
  { apply decode_secret_filtered.
    rewrite !toUpperCase_app, !filter_chars_app, (filtered_separators sep Hsep).
    now rewrite append_nil. }
  assert (H2 : decode_secret (toLowerCase (a +:+ b)) = decode_secret (a +:+ b)).
  { apply decode_secret_filtered, filtered_lower. }
  unfold generateTotp.
  rewrite (code_of_counter_decoded _ _ _ H1), (code_of_counter_decoded _ _ _ H2).
  split; [reflexivity|]. split; [reflexivity|].
  split; now apply verifyTotp_decoded.
Qed.

Lemma totp_secret_format_irrelevant_witness :
  generateTotp 59000 "jbsw y3dp-ehpk 3pxp" None = generateTotp 59000 "jbswy3dpehpk3pxp" None
  /\ generateTotp 59000 "jbswy3dpehpk3pxp" None = generateTotp 59000 "JBSWY3DPEHPK3PXP" None.
Proof.
  split.
  - transitivity (generateTotp 59000 "jbswy3dp-ehpk 3pxp" None).
    + exact (proj1 (totp_secret_format_irrelevant 59000 "jbsw" "y3dp-ehpk 3pxp" " "
                      EmptyString None 1 eq_refl)).
    + transitivity (generateTotp 59000 "jbswy3dpehpk 3pxp" None).
      * exact (proj1 (totp_secret_format_irrelevant 59000 "jbswy3dp" "ehpk 3pxp" "-"
                        EmptyString None 1 eq_refl)).
      * exact (proj1 (totp_secret_format_irrelevant 59000 "jbswy3dpehpk" "3pxp" " "
                        EmptyString None 1 eq_refl)).
  - exact (proj1 (proj2 (totp_secret_format_irrelevant 59000 "JBSWY3DPEHPK" "3PXP"
                           EmptyString EmptyString None 1 eq_refl))).
Defined.

End TotpMore.

(* ====================================================================== *)
(** * More on the vault backend of ganesh.ts                               *)
(* ====================================================================== *)

Module GaneshMore.
Import Ganesh GaneshCases.

Lemma foldl_insert_union (l : list (string * string)) :
  forall acc : gmap string string,
    NoDup l.*1 ->
    foldl (fun m (e : string * string) => <[e.1 := e.2]> m) acc l = list_to_map l ∪ acc.
Proof.
  induction l as [|[k x] l IH]; intros acc Hnd; simpl.
  - now rewrite (left_id_L ∅ (∪)).
  - apply NoDup_cons in Hnd as [Hk Hnd].
    rewrite (IH _ Hnd), <- insert_union_r, insert_union_l; [reflexivity|].
    now apply not_elem_of_list_to_map_1.
Qed.

Lemma loaded_map_to_list (m : gmap string string) : loaded (map_to_list m) = m.
Proof.
  unfold loaded. rewrite foldl_insert_union by apply NoDup_fst_map_to_list.
  now rewrite list_to_map_to_list, (right_id_L ∅ (∪)).
Qed.

Lemma set_entries_cases (entries : list (string * StoredSecret)) :
  forall m : gmap string string,
    (exists l, entries = values l
               /\ set_entries m entries
                  = (Normal tt, foldl (fun m (e : string * string) => <[e.1 := e.2]> m) m l))
    \/ (exists before id after e,
          entries = (values before ++ (id, NullEntry) :: after)%list
          /\ set_entries m entries
             = (Throw e,
                foldl (fun m (e : string * string) => <[e.1 := e.2]> m) m before)).
Proof.
  induction entries as [|[id [|value]] rest IH]; intros m.
  - left. exists []. auto.
  - right. exists [], id, rest. eexists. split; reflexivity.
  - destruct (IH (<[id := value]> m))
      as [(l & -> & Hrun)|(before & id' & after & e & -> & Hrun)].
    + left. exists ((id, value) :: l). split; [reflexivity|exact Hrun].
    + right. exists ((id, value) :: before), id', after, e.
      split; [reflexivity|exact Hrun].
Qed.

Lemma values_inj (l1 l2 : list (string * string)) : values l1 = values l2 -> l1 = l2.
Proof.
  revert l2. induction l1 as [|[k1 v1] l1 IH]; intros [|[k2 v2] l2]; simpl;
    try discriminate; [reflexivity|].
  intros [= -> -> H]. now rewrite (IH l2 H).
Qed.

(** What [unlock] does on a locked backend. *)
Lemma unlock_locked (this this' : State) (w : World) (ok : bool) :
  unlocked this = false ->
  unlock this w = (ok, this') ->
  unlocked this' = ok
  /\ (ok = true ->
      exists key entries,
        identity_key (disk w) = Normal key
        /\ is_empty (trim key) = false
        /\ secrets_age (disk w) = Normal (StoreSecrets (values entries))
        /\ secretKey this' = Some (trim key)
        /\ secretsCache this' = loaded entries
        /\ manifest this'
           = match manifest_json (disk w) with
             | Some (Normal m) => Some m
             | _ => manifest this
             end)
  /\ (ok = false ->
      secretsCache this' = secretsCache this
      \/ (secrets_age (disk w) = Normal StoreNull /\ secretsCache this' = ∅)
      \/ exists before id after,
           secrets_age (disk w)
           = Normal (StoreSecrets (values before ++ (id, NullEntry) :: after)%list)
           /\ secretsCache this' = loaded before).
Proof.
  intros Hl. unfold unlock. rewrite Hl.
  destruct (identity_key (disk w)) as [content|e];
    [|intros [= <- <-]; split; [exact Hl|split; [discriminate|auto]]].
  destruct (age_keygen w (trim content)) as [stdout|e];
    [|intros [= <- <-]; split; [reflexivity|split; [discriminate|auto]]].
  assert (Hload : forall s3, secretKey s3 = Some (trim content) ->
            secretKey (loadSecrets s3 w).2 = Some (trim content)
            /\ manifest (loadSecrets s3 w).2 = manifest s3
            /\ match (loadSecrets s3 w).1 with
               | Normal _ =>
                   is_empty (trim content) = false
                   /\ exists entries,
                        secrets_age (disk w) = Normal (StoreSecrets (values entries))
                        /\ secretsCache (loadSecrets s3 w).2 = loaded entries
               | Throw _ =>
                   secretsCache (loadSecrets s3 w).2 = secretsCache s3
                   \/ (secrets_age (disk w) = Normal StoreNull
                       /\ secretsCache (loadSecrets s3 w).2 = ∅)
                   \/ exists before id after,
                        secrets_age (disk w)
                        = Normal (StoreSecrets
                                    (values before ++ (id, NullEntry) :: after)%list)
                        /\ secretsCache (loadSecrets s3 w).2 = loaded before
               end).
  { intros s3 Hk. unfold loadSecrets. rewrite Hk.
    destruct (is_empty (trim content)); [simpl; auto|].
    destruct (secrets_age (disk w)) as [[|entries]|e]; [simpl; auto 10| |simpl; auto].
    destruct (set_entries_cases entries ∅)
      as [(l & -> & Hrun)|(before & id & after & e & -> & Hrun)];
      rewrite Hrun; cbn [fst snd with_cache secretKey manifest secretsCache].
    - split; [exact Hk|]. split; [reflexivity|]. split; [reflexivity|]. eauto.
    - split; [exact Hk|]. split; [reflexivity|]. right. right. eauto 10. }
  assert (Hstep : forall s3 (loaded_manifest : option VaultManifest),
            secretKey s3 = Some (trim content) ->
            manifest s3 = loaded_manifest ->
            secretsCache s3 = secretsCache this ->
            (let '(ended, s4) := loadSecrets s3 w in
             match ended with
             | Throw _ => (false, s4)
             | Normal _ =>
                 (true, {| unlocked := true; secretKey := secretKey s4;
                           publicKey := publicKey s4; secretsCache := secretsCache s4;
                           manifest := manifest s4 |})
             end) = (ok, this') ->
            unlocked s3 = false ->
            unlocked this' = ok
            /\ (ok = true ->
                exists key entries,
                  Normal content = Normal key
                  /\ is_empty (trim key) = false
                  /\ secrets_age (disk w) = Normal (StoreSecrets (values entries))
                  /\ secretKey this' = Some (trim key)
                  /\ secretsCache this' = loaded entries
                  /\ manifest this' = loaded_manifest)
            /\ (ok = false ->
                secretsCache this' = secretsCache this
                \/ (secrets_age (disk w) = Normal StoreNull /\ secretsCache this' = ∅)
                \/ exists before id after,
                     secrets_age (disk w)
                     = Normal (StoreSecrets
                                 (values before ++ (id, NullEntry) :: after)%list)
                     /\ secretsCache this' = loaded before)).
  { intros s3 lm Hk Hm Hc Hrun Hlocked.
    destruct (Hload s3 Hk) as (Hk4 & Hm4 & Hended).
    assert (Hflag : unlocked (loadSecrets s3 w).2 = false).
    { unfold loadSecrets. rewrite Hk.
      destruct (is_empty (trim content)); [exact Hlocked|].
      destruct (secrets_age (disk w)) as [[|entries]|e]; try exact Hlocked.
      now destruct (set_entries ∅ entries). }
    destruct (loadSecrets s3 w) as [[u|e] s4]; cbn [fst snd] in *;
      injection Hrun as <- <-; cbn [unlocked secretKey secretsCache manifest].
    - split; [reflexivity|]. split; [|discriminate]. intros _.
      destruct Hended as (He & entries & Hs & Hc4).
      exists content, entries. rewrite Hm4, Hm. auto 10.
    - split; [exact Hflag|]. split; [discriminate|]. intros _.
      rewrite <- Hc. exact Hended. }
  destruct (manifest_json (disk w)) as [[m|e]|].
  - intros Hrun. refine (Hstep _ (Some m) _ _ _ Hrun _); reflexivity.
  - intros [= <- <-]. split; [reflexivity|split; [discriminate|auto]].
  - intros Hrun. refine (Hstep _ (manifest this) _ _ _ Hrun _); reflexivity.
Qed.



(** A vault file whose second entry is [null]: the attempt fails, the
    backend stays locked, and the memory, empty before, holds the first
    entry. *)
Example unlock_stops_at_null_entry :
  unlock new (with_disk Scenario.vault_world vault_disk_null_entry)
  = (false,
     {| unlocked := false; secretKey := Some "AGE-SECRET-KEY-1QQQ";
        publicKey := Some "age1qqq"; secretsCache := {[ "api/key" := "k-123" ]};
        manifest := Some Scenario.vault_manifest |}).
Proof. reflexivity. Qed.

(** The state in which [store] and [resolve] go on after their unlocking
    step. *)
Lemma store_cases (this : State) (w : World) (secretPath value : string) :
  exists this1,
    (this1 = this \/ exists ok, unlock this w = (ok, this1)) /\
    ((unlocked this1 = false
      /\ (store this w secretPath value).1.1.1 = false
      /\ (store this w secretPath value).1.1.2 = this1
      /\ (store this w secretPath value).1.2 = disk w)
     \/ (unlocked this1 = true
         /\ (store this w secretPath value).1.1.2
            = {| unlocked := true; secretKey := secretKey this1;
                 publicKey := publicKey this1;
                 secretsCache := <[secretPath := value]> (secretsCache this1);
                 manifest := manifest this1 |}
         /\ ((store this w secretPath value).1.1.1 = true ->
             exists m,
               manifest_json (disk w) = Some (Normal m)
               /\ (store this w secretPath value).1.2
                  = with_manifest
                      (with_secrets (disk w)
                         (age_encrypt w (<[secretPath := value]> (secretsCache this1))).2)
                      (updated_manifest m (clock w) secretPath))
         /\ ((store this w secretPath value).1.1.1 = false ->
             manifest_json (store this w secretPath value).1.2 = manifest_json (disk w)))).
Proof.
  assert (Hgo : forall this1, unlocked this1 = true ->
    let this2 := {| unlocked := unlocked this1; secretKey := secretKey this1;
                    publicKey := publicKey this1;
                    secretsCache := <[secretPath := value]> (secretsCache this1);
                    manifest := manifest this1 |} in
    forall unlocking,
    let out :=
      match saveSecrets this2 w with
      | (Throw _, content) => (false, this2, with_secrets (disk w) content, unlocking)
      | (Normal _, content) =>
          let disk1 := with_secrets (disk w) content in
          match updateManifest w secretPath with
          | Throw _ => (false, this2, disk1, unlocking ++ [EvSaveSecrets])%list
          | Normal m' =>
              (true, this2, with_manifest disk1 m',
               unlocking ++ [EvSaveSecrets; EvWriteManifest])%list
          end
      end in
    out.1.1.2 = {| unlocked := true; secretKey := secretKey this1;
                   publicKey := publicKey this1;
                   secretsCache := <[secretPath := value]> (secretsCache this1);
                   manifest := manifest this1 |}
    /\ (out.1.1.1 = true ->
        exists m,
          manifest_json (disk w) = Some (Normal m)
          /\ out.1.2
             = with_manifest
                 (with_secrets (disk w)
                    (age_encrypt w (<[secretPath := value]> (secretsCache this1))).2)
                 (updated_manifest m (clock w) secretPath))
    /\ (out.1.1.1 = false -> manifest_json out.1.2 = manifest_json (disk w))).
  { intros this1 Hu this2 unlocking. subst this2. rewrite Hu.
    unfold saveSecrets. cbn [secretKey publicKey secretsCache].
    assert (Hfail : forall (e : Thrown) (content : Completion DecryptedStore),
      let out := (false, {| unlocked := true; secretKey := secretKey this1;
                            publicKey := publicKey this1;
                            secretsCache := <[secretPath := value]> (secretsCache this1);
                            manifest := manifest this1 |},
                  with_secrets (disk w) content, unlocking) in
      out.1.1.2 = {| unlocked := true; secretKey := secretKey this1;
                     publicKey := publicKey this1;
                     secretsCache := <[secretPath := value]> (secretsCache this1);
                     manifest := manifest this1 |}
      /\ (out.1.1.1 = true ->
          exists m,
            manifest_json (disk w) = Some (Normal m)
            /\ out.1.2
               = with_manifest
                   (with_secrets (disk w)
                      (age_encrypt w (<[secretPath := value]> (secretsCache this1))).2)
                   (updated_manifest m (clock w) secretPath))
      /\ (out.1.1.1 = false -> manifest_json out.1.2 = manifest_json (disk w))).
    { intros e content. simpl. split; [reflexivity|]. split; [discriminate|reflexivity]. }
    destruct (secretKey this1) as [sk|]; [|exact (Hfail (ErrorObject EmptyString) _)].
    destruct (publicKey this1) as [pk|]; [|exact (Hfail (ErrorObject EmptyString) _)].
    destruct (is_empty sk || is_empty pk); [exact (Hfail (ErrorObject EmptyString) _)|].
    destruct (age_encrypt w _) as [[u|e] content] eqn:Henc; [|exact (Hfail e content)].
    cbn [snd]. unfold updateManifest.
    destruct (manifest_json (disk w)) as [[m|e]|] eqn:Hm; simpl;
      try (split; [reflexivity|split; [discriminate|intros _; exact Hm]]).
    destruct (write_manifest w) as [u'|e]; simpl.
    - split; [reflexivity|]. split; [|discriminate]. intros _. exists m. auto.
    - split; [reflexivity|]. split; [discriminate|]. intros _. exact Hm. }
  unfold store. destruct (unlocked this) eqn:Hu.
  - exists this. split; [now left|]. right. cbn [negb].
    split; [exact Hu|]. exact (Hgo this Hu []).
  - destruct (unlock this w) as [ok this1] eqn:Hun.
    exists this1. split; [right; eauto|].
    destruct (unlock_locked this this1 w ok Hu Hun) as (Hflag & _ & _).
    destruct ok; cbn [negb]; [right | left; simpl; auto].
    split; [exact Hflag|]. exact (Hgo this1 Hflag [EvUnlock true]).
Qed.

(** X22. [store] puts the value into the memory of an unlocked backend
    before anything is written. Whenever the backend is unlocked after
    the call, whether [store] returned true or false, the memory holds
    the value under the path and a later [resolve] of a path below tier
    3 returns it without any access to the vault files; the manifest in
    memory is the one from before the value was put in. A call that
    returned false has left [manifest.json] as it was. *)
Theorem stored_value_is_in_memory (this this' : State) (w : World)
    (secretPath value : string) (ok : bool) (disk' : Disk) (evs : list Event) :
  store this w secretPath value = (ok, this', disk', evs) ->
  unlocked this' = true ->
  secretsCache this' !! secretPath = Some value
  /\ (forall w' field,
        (getSecretTier this' secretPath < 3)%Z ->
        resolve this' w' secretPath field
        = (Normal (Some value), this', [EvReadSecret secretPath]))
  /\ (unlocked this = true ->
      manifest this' = manifest this
      /\ forall k, k <> secretPath -> secretsCache this' !! k = secretsCache this !! k)
  /\ (ok = false -> manifest_json disk' = manifest_json (disk w)).
Proof.
  intros Hcall Hun.
  destruct (store_cases this w secretPath value)
    as (this1 & Hthis1 & [(Hl & Hok & Hst & Hd) | (Hu & Hst & Hsucc & Hfail)]);
    rewrite Hcall in *; cbn [fst snd] in *.
  - subst this'. congruence.
  - assert (Hin : secretsCache this' !! secretPath = Some value).
    { rewrite Hst. cbn [secretsCache]. apply lookup_insert_eq. }
    split; [exact Hin|]. split; [|split].
    + intros w' field Htier.
      rewrite (GaneshFacts.resolve_unlocked this' w' secretPath field Hun).
      apply Z.ltb_lt in Htier. now rewrite Htier, Hin.
    + intros Hthis.
      assert (this1 = this) as ->.
      { destruct Hthis1 as [->|[ok1 H1]]; [reflexivity|].
        unfold unlock in H1. rewrite Hthis in H1. now injection H1 as _ <-. }
      rewrite Hst. cbn [manifest secretsCache]. split; [reflexivity|].
      intros k Hk. now rewrite lookup_insert_ne by congruence.
    + exact Hfail.
Qed.

Lemma stored_value_is_in_memory_witness :
  (store Scenario.unlocked_vault vault_world_read_only "api/key" "k-456").1.1.1 = false
  /\ (resolve (store Scenario.unlocked_vault vault_world_read_only "api/key" "k-456").1.1.2
        Scenario.vault_world "api/key" None).1.1
     = Normal (Some "k-456").
Proof.
  set (out := store Scenario.unlocked_vault vault_world_read_only "api/key" "k-456").
  split; [reflexivity|].
  destruct (stored_value_is_in_memory Scenario.unlocked_vault out.1.1.2
              vault_world_read_only "api/key" "k-456" false out.1.2 out.2 eq_refl eq_refl)
    as (_ & Hres & _).
  now rewrite (Hres Scenario.vault_world None eq_refl).
Defined.

(** X23. When the shell hands the text of a successful [store] to [age]
    as it is, so that [secrets.age] holds the values of the memory, what
    was stored is what the next session reads: after a lock and a new
    unlock from the vault directory as [store] left it, the memory holds
    the same entries as before the lock, the stored value among them, and
    the manifest in memory is the updated one. *)
Theorem stored_value_survives_relock (this this' s : State) (w w' : World)
    (secretPath value : string) (disk' : Disk) (evs : list Event) :
  store this w secretPath value = (true, this', disk', evs) ->
  (age_encrypt w (secretsCache this')).2 = Normal (verbatim (secretsCache this')) ->
  unlock (lock this') (with_disk w' disk') = (true, s) ->
  secretsCache s = secretsCache this'
  /\ secretsCache s !! secretPath = Some value
  /\ exists m, manifest_json (disk w) = Some (Normal m)
               /\ manifest s = Some (updated_manifest m (clock w) secretPath).
Proof.
  intros Hcall Hverbatim Hopen.
  destruct (store_cases this w secretPath value)
    as (this1 & Hthis1 & [(Hl & Hok & Hst & Hd) | (Hu & Hst & Hsucc & Hfail)]);
    rewrite Hcall in *; cbn [fst snd] in *; [discriminate|].
  destruct (Hsucc eq_refl) as (m & Hm & Hdisk).
  assert (Hcache : secretsCache this' = <[secretPath := value]> (secretsCache this1))
    by now rewrite Hst.
  rewrite <- Hcache, Hverbatim in Hdisk.
  destruct (unlock_locked (lock this') s (with_disk w' disk') true eq_refl Hopen)
    as (_ & H & _).
  destruct (H eq_refl) as (key & entries & _ & _ & He & _ & Hc & Hman).
  cbn [with_disk disk] in He, Hman. rewrite Hdisk in He, Hman.
  cbn [with_manifest with_secrets secrets_age manifest_json] in He, Hman.
  injection He as He. apply values_inj in He. subst entries.
  rewrite loaded_map_to_list in Hc.
  split; [exact Hc|]. split.
  - rewrite Hc, Hcache. apply lookup_insert_eq.
  - exists m. auto.
Qed.

Lemma stored_value_survives_relock_witness :
  let out := Scenario.stored_again in
  let reopened := (unlock new (with_disk Scenario.vault_world out.1.2)).2 in
  secretsCache reopened !! "api/key" = Some "k-456".
Proof.
  intros out reopened.
  exact (proj1 (proj2 (stored_value_survives_relock Scenario.unlocked_vault out.1.1.2
                         reopened Scenario.vault_world Scenario.vault_world
                         "api/key" "k-456" out.1.2 out.2 eq_refl eq_refl eq_refl))).
Defined.

(** Without that condition the value need not come back: under a shell
    whose [echo] turns a backslash and [t] into a tabulator, a stored
    path of a Windows tool is read back changed by the next session. *)
Example backslash_value_not_read_back :
  let out := store Scenario.unlocked_vault vault_world_dash "tools/path" windows_path in
  let reopened := (unlock new (with_disk Scenario.vault_world out.1.2)).2 in
  out.1.1.1 = true
  /\ secretsCache out.1.1.2 !! "tools/path" = Some windows_path
  /\ secretsCache reopened !! "tools/path"
     = Some ("C:" +:+ String (ascii_of_N 9) EmptyString +:+ "ools")
  /\ secretsCache reopened !! "tools/path" <> Some windows_path.
Proof. vm_compute. repeat split. discriminate. Qed.

(** X24. A tier-3 secret of a vault without MFA set-up is out of reach
    and nobody is asked: with no [mfa-config.json], and with the bot
    token missing from the memory or empty, or no [totp.key], [resolve]
    on an unlocked backend answers [null], sends no approval request,
    starts no poll and does not read the secret; all it reads is the bot
    token. *)
Theorem tier3_without_mfa_asks_nobody (this : State) (w : World) (secretPath : string)
    (field : option string) :
  unlocked this = true ->
  (3 <= getSecretTier this secretPath)%Z ->
  mfa_config_json (disk w) = None ->
  opt_or_else (secretsCache this !! bot_token_key) EmptyString = EmptyString
  \/ totp_key (disk w) = None ->
  resolve this w secretPath field = (Normal None, this, [EvReadSecret bot_token_key]).
Proof.
  intros Hu Htier Hfile Hmissing.
  rewrite (GaneshFacts.resolve_unlocked this w secretPath field Hu).
  apply Z.ltb_ge in Htier. rewrite Htier.
  unfold resolveTier3, getMfaConfig. rewrite Hfile.
  destruct (secretsCache this !! bot_token_key) as [token|]; [|reflexivity].
  destruct Hmissing as [Hempty|Hnokey].
  - destruct (totp_key (disk w)); [|reflexivity].
    destruct token; [reflexivity|discriminate].
  - now rewrite Hnokey.
Qed.

Lemma tier3_without_mfa_asks_nobody_witness :
  resolve (lock Scenario.unlocked_vault)
    (with_disk Scenario.vault_world
       (with_secrets Scenario.vault_disk
          (Normal (StoreSecrets [("db/password", ValueEntry "hunter2")]))))
    "db/password" None
  = (Normal None,
     (unlock new (with_disk Scenario.vault_world
                    (with_secrets Scenario.vault_disk
          (Normal (StoreSecrets [("db/password", ValueEntry "hunter2")]))))).2,
     [EvUnlock true; EvReadSecret bot_token_key]).
Proof.
  set (w := with_disk Scenario.vault_world
              (with_secrets Scenario.vault_disk
          (Normal (StoreSecrets [("db/password", ValueEntry "hunter2")])))).
  rewrite (GaneshFacts.resolve_locked (lock Scenario.unlocked_vault) w "db/password" None
             eq_refl).
  change (unlock (lock Scenario.unlocked_vault) w) with (true, (unlock new w).2).
  cbv iota beta.
  now rewrite (tier3_without_mfa_asks_nobody (unlock new w).2 w "db/password" None
                 eq_refl ltac:(vm_compute; discriminate) eq_refl (or_introl eq_refl)).
Defined.

(** X25. Every MFA configuration that [getMfaConfig] hands out names a
    chat and a time limit other than zero: the chat is the one of
    [mfa-config.json], else, when there is no such file, the one of
    [GANESH_MFA_CHAT_ID], else the chat 8036631576 written in the code;
    the time limit is 60000 ms unless the file gives another. Without
    the file the bot token is the non-empty one held in memory. *)
Theorem mfa_config_is_complete (this : State) (w : World) (cfg : TelegramMfaConfig) :
  (getMfaConfig this w).1 = Normal (Some cfg) ->
  chatId cfg <> EmptyString
  /\ (exists t, timeoutMs cfg = Some t /\ t <> 0%Z)
  /\ (forall f, mfa_config_json (disk w) = Some (Normal f) ->
        chatId cfg = opt_or_else (file_chatId f) operator_chat_id
        /\ (forall t, file_timeoutMs f = Some t -> t <> 0%Z -> timeoutMs cfg = Some t)
        /\ (file_timeoutMs f = None -> timeoutMs cfg = Some 60000%Z))
  /\ (mfa_config_json (disk w) = None ->
        chatId cfg = opt_or_else (env_GANESH_MFA_CHAT_ID w) operator_chat_id
        /\ timeoutMs cfg = Some 60000%Z
        /\ botToken cfg <> EmptyString
        /\ secretsCache this !! bot_token_key = Some (botToken cfg)).
Proof.
  assert (Hne : forall o, opt_or_else o operator_chat_id <> EmptyString).
  { intros [[|c s]|]; discriminate. }
  unfold getMfaConfig.
  destruct (mfa_config_json (disk w)) as [[f|e]|].
  - destruct (totp_key (disk w)) as [[c|e]|]; simpl; try discriminate.
    all: intros [= <-]; cbn [chatId timeoutMs botToken].
    all: split; [apply Hne|].
    all: split;
      [destruct (file_timeoutMs f) as [t|]; [destruct (Z.eqb_spec t 0)|];
       eexists; (split; [reflexivity|]); try discriminate; auto|].
    all: split; [|discriminate].
    all: intros f' [= <-]; split; [reflexivity|]; split;
      [intros t -> Ht; destruct (Z.eqb_spec t 0); [contradiction|reflexivity]
      |now intros ->].
  - simpl. destruct (totp_key (disk w)) as [[c|e']|]; discriminate.
  - destruct (secretsCache this !! bot_token_key) as [token|] eqn:Htok;
      [|discriminate].
    destruct (totp_key (disk w)) as [[c|e]|]; try discriminate.
    + destruct (is_empty token) eqn:He; [discriminate|]. simpl.
      intros [= <-]. cbn [chatId timeoutMs botToken].
      split; [apply Hne|]. split; [eexists; split; [reflexivity|discriminate]|].
      split; [discriminate|]. intros _.
      split; [reflexivity|]. split; [reflexivity|]. split; [|reflexivity].
      now destruct token.
    + destruct (is_empty token); discriminate.
Qed.

Lemma mfa_config_is_complete_witness :
  (getMfaConfig Scenario.unlocked_vault Scenario.vault_world).1
  = Normal (Some Telegram.operator_config)
  /\ secretsCache Scenario.unlocked_vault !! bot_token_key = Some "42:bot".
Proof.
  split; [reflexivity|].
  destruct (mfa_config_is_complete Scenario.unlocked_vault Scenario.vault_world
              Telegram.operator_config eq_refl)
    as (_ & _ & _ & Hnofile).
  destruct (Hnofile eq_refl) as (_ & _ & _ & Htok).
  exact Htok.
Defined.

End GaneshMore.

(* ====================================================================== *)
(** * The approval poll                                                    *)
(* ====================================================================== *)

Module TelegramSpec.
Import Ganesh Telegram.

Lemma scan_approved (config : TelegramMfaConfig) (requestId callbackId : string)
    (updates : list Update) :
  scan config requestId updates = Some (true, callbackId) ->
  exists update, In update updates /\ approving_press config requestId update.
Proof.
  induction updates as [|u rest IH]; simpl; [discriminate|].
  assert (Hrest : scan config requestId rest = Some (true, callbackId) ->
                  exists update, (u = update \/ In update rest)
                                 /\ approving_press config requestId update).
  { intros H. destruct (IH H) as (x & Hin & Hx). eauto. }
  destruct (callback_query u) as [cb|] eqn:Hcb; [|exact Hrest].
  destruct (callback_data cb) as [data|] eqn:Hdata; [|exact Hrest].
  destruct (is_empty data); [exact Hrest|].
  destruct (String.eqb_spec (chat_id_text cb) (chatId config)) as [Hchat|_];
    [|exact Hrest].
  cbn [negb].
  destruct (starts_with (requestId +:+ ":") data) eqn:Hstart; [|exact Hrest].
  destruct (second_segment data) as [action|] eqn:Hseg; [|exact Hrest].
  destruct (String.eqb_spec action "approve") as [->|_].
  - intros _. exists u. split; [now left|]. exists cb, data. auto.
  - destruct (String.eqb action "deny"); [discriminate|exact Hrest].
Qed.

(** X26. The poll says approved only when an answer fetched before the
    time limit holds a button press from the configured chat whose data
    starts with the request id and a colon and has [approve] as its
    second colon-separated part; presses from other chats and for other
    requests never approve. A result that is not approved names its
    cause, denial or time-out, and once the clock is at or past the limit
    the poll ends. *)
Theorem approval_needs_operator_press (config : TelegramMfaConfig) (startTime : Z)
    (requestMessageId : Z) (requestId secretId : string) (rounds : list Round) :
  (forall result replies,
      pollTelegramApproval config startTime requestMessageId requestId secretId rounds
      = Some (result, replies) ->
      (approved result = true ->
       exists round updates update,
         In round rounds
         /\ (round_clock round - startTime < default 60000 (timeoutMs config))%Z
         /\ fetched round = FetchOk updates
         /\ In update updates
         /\ approving_press config requestId update)
      /\ (approved result = false ->
          poll_error result = Some "Request denied by user"
          \/ poll_error result = Some "Approval request timed out"))
  /\ ((exists round, In round rounds
                     /\ (default 60000 (timeoutMs config) <= round_clock round - startTime)%Z)
      -> exists outcome,
           pollTelegramApproval config startTime requestMessageId requestId secretId rounds
           = Some outcome).
Proof.
  split.
  - induction rounds as [|r rest IH]; intros result replies; simpl; [discriminate|].
    assert (Hrest : pollTelegramApproval config startTime requestMessageId requestId
                      secretId rest = Some (result, replies) ->
      (approved result = true ->
       exists round updates update,
         (r = round \/ In round rest)
         /\ (round_clock round - startTime < default 60000 (timeoutMs config))%Z
         /\ fetched round = FetchOk updates
         /\ In update updates
         /\ approving_press config requestId update)
      /\ (approved result = false ->
          poll_error result = Some "Request denied by user"
          \/ poll_error result = Some "Approval request timed out")).
    { intros H. destruct (IH _ _ H) as [Ha Hd]. split; [|exact Hd].
      intros Happ. destruct (Ha Happ) as (x & us & u & Hin & Hrest). eauto 10. }
    destruct (Z.ltb_spec (round_clock r - startTime) (default 60000%Z (timeoutMs config)))
      as [Hlt|Hge].
    + destruct (fetched r) as [| |updates] eqn:Hf; try exact Hrest.
      destruct (scan config requestId updates) as [[[|] cbid]|] eqn:Hscan;
        [| |exact Hrest].
      * intros [= <- <-]. split; [|discriminate]. intros _.
        destruct (scan_approved _ _ _ _ Hscan) as (u & Hin & Hu).
        exists r, updates, u. auto 10.
      * intros [= <- <-]. split; [discriminate|]. intros _. now left.
    + intros [= <- <-]. split; [discriminate|]. intros _. now right.
  - intros (round & Hin & Hlate).
    induction rounds as [|r rest IH]; [destruct Hin|]. simpl.
    destruct (Z.ltb_spec (round_clock r - startTime) (default 60000%Z (timeoutMs config)))
      as [Hlt|Hge]; [|eauto].
    destruct Hin as [->|Hin]; [lia|].
    destruct (fetched r) as [| |updates]; auto.
    destruct (scan config requestId updates) as [[[|] cbid]|]; eauto.
Qed.

(** The operator's press settles the request; the stranger's press before
    it is passed over. *)
Example operator_press_approves :
  pollTelegramApproval operator_config 1704073050000 77 "mfa_1704073050000_k3x9zq"
    "db/password" operator_approves
  = Some ({| approved := true; poll_error := None |},
          [AnswerCallbackQuery "cb-1" true; EditMessage "8036631576" 77 true])
  /\ pollTelegramApproval operator_config 1704073050000 77 "mfa_1704073050000_k3x9zq"
       "db/password"
       [{| round_clock := 1704073052000;
           fetched := FetchOk [press "555" "mfa_1704073050000_k3x9zq:approve";
                               press "8036631576" "mfa_1704070000000_aaaaaa:approve"] |};
        {| round_clock := 1704073110000; fetched := FetchNotOk |}]
     = Some ({| approved := false; poll_error := Some "Approval request timed out" |}, []).
Proof. split; reflexivity. Qed.

End TelegramSpec.

(* ====================================================================== *)
(** * Properties of src/secrets/auth-integration.ts                        *)
(* ====================================================================== *)

Module AuthIntegrationSpec.
Import Resolver AuthIntegration.

Lemma resolveSecret_settles (st : State) (env : Env) (ref : string)
    (config : option SecretsBackendConfig) :
  exists r, (resolveSecret st env ref config).1.1 = Normal r.
Proof.
  unfold resolveSecret.
  destruct (match secretsCache st !! ref with
            | Some cached =>
                if (now_check env - resolvedAt cached <? CACHE_TTL_MS)%Z
                then Some cached else None
            | None => None
            end) as [c|]; [eexists; reflexivity|].
  pose proof (ResolverSpec.resolveSecret_try_cases st env ref config) as H.
  destruct (resolveSecret_try st env ref config) as [[o st1] calls].
  destruct H as [(v & t & p & f & -> & _) | [(msg & ->) | (e & ->)]];
    eexists; reflexivity.
Qed.

Lemma given_not_empty (v : option string) :
  given v = true -> exists s, v = Some s /\ is_empty s = false.
Proof.
  destruct v as [s|]; [|discriminate]. simpl.
  intros [H _]%andb_true_iff. apply negb_true_iff in H. eauto.
Qed.

Lemma given_trims (v : option string) : given v = trims_to_something v.
Proof.
  destruct v as [[|c s]|]; reflexivity.
Qed.

(** What a settled [resolveCredentialValue] holds, read from its result. *)
Lemma credential_shape (st : State) (env : Env) (directValue refValue : option string)
    (config : option SecretsBackendConfig) :
  let out := resolveCredentialValue st env directValue refValue config in
  exists r,
    out.1.1.1 = Normal r
    /\ (forall c, r = Some c ->
          is_empty (cred_value c) = false
          /\ (fromRef c = true ->
              cred_error c = None /\ given refValue = true
              /\ exists res,
                   (resolveSecret st env (default EmptyString refValue) config).1.1
                   = Normal res
                   /\ ok res = true /\ value res = Some (cred_value c))
          /\ (fromRef c = false ->
              directValue = Some (cred_value c) /\ given directValue = true))
    /\ (r = None -> given directValue = false)
    /\ (out.2 = [] \/ (given refValue = true /\ exists c, r = Some c /\ fromRef c = false))
    /\ (given refValue = false -> out.1.1.2 = st /\ out.1.2 = [] /\ out.2 = []).
Proof.
  assert (Hdirect : given directValue = true ->
            is_empty (default EmptyString directValue) = false
            /\ directValue = Some (default EmptyString directValue)).
  { intros (s & -> & Hs)%given_not_empty. auto. }
  unfold resolveCredentialValue.
  destruct (given refValue) eqn:Href.
  - destruct (resolveSecret_settles st env (default EmptyString refValue) config)
      as [res Hres].
    destruct (resolveSecret st env (default EmptyString refValue) config)
      as [[o st1] calls]. simpl in Hres. subst o.
    destruct (ok res) eqn:Hok; cbn [andb].
    1: destruct (value res) as [[|c v]|] eqn:Hv; cbn [default is_empty negb].
    2: { eexists. split; [reflexivity|]. cbn [fst snd].
         split; [|split; [discriminate|split; [now left|discriminate]]].
         intros c' [= <-]. cbn [cred_value fromRef cred_error].
         split; [reflexivity|]. split; [|discriminate].
         intros _. split; [reflexivity|]. split; [reflexivity|].
         exists res. auto. }
    all: destruct (given directValue) eqn:Hd;
      (eexists; split; [reflexivity|]); cbn [fst snd];
      (split; [intros c' [= <-]; cbn [cred_value fromRef cred_error];
               destruct (Hdirect eq_refl) as [He Heq];
               (split; [exact He|]); (split; [discriminate|auto])
              |]);
      try (split; [discriminate|]); try (split; [reflexivity|]);
      try (split; [right; split; [reflexivity|]; eexists; split; reflexivity
                  |discriminate]);
      try (split; [now left|discriminate]).
  - destruct (given directValue) eqn:Hd; eexists; (split; [reflexivity|]); cbn [fst snd].
    + split; [|split; [discriminate|split; [now left|auto]]].
      intros c' [= <-]. cbn [cred_value fromRef cred_error].
      destruct (Hdirect eq_refl) as [He Heq].
      split; [exact He|]. split; [discriminate|auto].
    + split; [discriminate|]. split; [reflexivity|]. split; [now left|auto].
Qed.

(** A reference that resolves to a non-empty value wins, whatever the
    direct value is. *)
Lemma reference_wins (st : State) (env : Env) (directValue refValue : option string)
    (config : option SecretsBackendConfig) (res : SecretResolutionResult) (v : string) :
  given refValue = true ->
  (resolveSecret st env (default EmptyString refValue) config).1.1 = Normal res ->
  ok res = true -> value res = Some v -> is_empty v = false ->
  resolveCredentialValue st env directValue refValue config
  = (Normal (Some {| cred_value := v; fromRef := true; cred_error := None |}),
     (resolveSecret st env (default EmptyString refValue) config).1.2,
     (resolveSecret st env (default EmptyString refValue) config).2, []).
Proof.
  intros Href Hres Hok Hv He. unfold resolveCredentialValue. rewrite Href.
  destruct (resolveSecret st env (default EmptyString refValue) config)
    as [[o st1] calls]. cbn [fst snd] in *. subst o.
  rewrite Hok, Hv. destruct v as [|c v]; [discriminate|reflexivity].
Qed.

(** A reference that does not resolve, or resolves to the empty string,
    leaves the direct value in its place, with the resolver's error and a
    warning. *)
Lemma direct_stands_in (st : State) (env : Env) (directValue refValue : option string)
    (config : option SecretsBackendConfig) (res : SecretResolutionResult) :
  given refValue = true ->
  (resolveSecret st env (default EmptyString refValue) config).1.1 = Normal res ->
  ok res && negb (is_empty (default EmptyString (value res))) = false ->
  given directValue = true ->
  resolveCredentialValue st env directValue refValue config
  = (Normal (Some {| cred_value := default EmptyString directValue;
                     fromRef := false; cred_error := error res |}),
     (resolveSecret st env (default EmptyString refValue) config).1.2,
     (resolveSecret st env (default EmptyString refValue) config).2,
     ["[secrets] Failed to resolve ref " +:+ quoted (default EmptyString refValue)
        +:+ ", falling back to direct value: " +:+ shown (error res)]).
Proof.
  intros Href Hres Hfail Hd. unfold resolveCredentialValue. rewrite Href.
  destruct (resolveSecret st env (default EmptyString refValue) config)
    as [[o st1] calls]. cbn [fst snd] in *. subst o.
  rewrite Hfail, Hd. reflexivity.
Qed.

(** X27. [resolveCredentialValue] always settles, and a result other
    than [null] carries a non-empty value. A reference that resolves
    wins over the direct value: when the reference is given and
    [resolveSecret] of it succeeds with a non-empty value, the result is
    that value, marked [fromRef] and without an error, whatever the
    direct value is, and nothing is printed. When the given reference
    fails, or resolves to the empty string, a usable direct value stands
    in, not marked [fromRef], with the resolver's error, and one warning
    is printed. With no usable reference the resolver is not consulted at
    all and a usable direct value is the result. Read from the result: one
    marked [fromRef] carries no error and holds exactly the value of a
    successful [resolveSecret] of the reference; one not marked [fromRef]
    holds the direct value; [null] is returned only when there is no
    usable direct value; and a warning is printed only when a given
    reference failed and the direct value stood in. *)
Theorem credential_resolution (st : State) (env : Env) (directValue refValue : option string)
    (config : option SecretsBackendConfig) :
  let out := resolveCredentialValue st env directValue refValue config in
  exists r,
    out.1.1.1 = Normal r
    /\ (forall c, r = Some c ->
          is_empty (cred_value c) = false
          /\ (fromRef c = true ->
              cred_error c = None /\ given refValue = true
              /\ exists res,
                   (resolveSecret st env (default EmptyString refValue) config).1.1
                   = Normal res
                   /\ ok res = true /\ value res = Some (cred_value c))
          /\ (fromRef c = false ->
              directValue = Some (cred_value c) /\ given directValue = true))
    /\ (r = None -> given directValue = false)
    /\ (out.2 = [] \/ (given refValue = true /\ exists c, r = Some c /\ fromRef c = false))
    /\ (given refValue = false -> out.1.1.2 = st /\ out.1.2 = [] /\ out.2 = [])
    /\ (given refValue = true ->
        exists res,
          (resolveSecret st env (default EmptyString refValue) config).1.1 = Normal res
          /\ (forall v, ok res = true -> value res = Some v -> is_empty v = false ->
                r = Some {| cred_value := v; fromRef := true; cred_error := None |}
                /\ out.2 = [])
          /\ (ok res && negb (is_empty (default EmptyString (value res))) = false ->
              given directValue = true ->
              r = Some {| cred_value := default EmptyString directValue;
                          fromRef := false; cred_error := error res |}
              /\ out.2 = ["[secrets] Failed to resolve ref "
                            +:+ quoted (default EmptyString refValue)
                            +:+ ", falling back to direct value: "
                            +:+ shown (error res)]))
    /\ (given refValue = false -> given directValue = true ->
        r = Some {| cred_value := default EmptyString directValue;
                    fromRef := false; cred_error := None |}).
Proof.
  intros out.
  destruct (credential_shape st env directValue refValue config)
    as (r & Hr & Hsome & Hnone & Hwarn & Hskip).
  fold out in Hr, Hwarn, Hskip.
  exists r. do 5 (split; [assumption|]).
  split.
  - intros Href.
    destruct (resolveSecret_settles st env (default EmptyString refValue) config)
      as [res Hres].
    exists res. split; [exact Hres|]. split.
    + intros v Hok Hv He.
      pose proof (reference_wins st env directValue refValue config res v
                    Href Hres Hok Hv He) as Hrun.
      fold out in Hrun. rewrite Hrun in Hr. cbn [fst snd] in Hr.
      injection Hr as <-. rewrite Hrun. auto.
    + intros Hfail Hd.
      pose proof (direct_stands_in st env directValue refValue config res
                    Href Hres Hfail Hd) as Hrun.
      fold out in Hrun. rewrite Hrun in Hr. cbn [fst snd] in Hr.
      injection Hr as <-. rewrite Hrun. auto.
  - intros Href Hd. subst out. unfold resolveCredentialValue in Hr.
    rewrite Href, Hd in Hr. cbn [fst snd] in Hr. now injection Hr as <-.
Qed.

Lemma credential_resolution_witness :
  (resolveCredentialValue initial Scenario.first_call (Some "sk-direct")
     (Some "pass:openclaw/token") None).1.1.1
  = Normal (Some {| cred_value := "s3cr3t"; fromRef := true; cred_error := None |}).
Proof.
  destruct (credential_resolution initial Scenario.first_call (Some "sk-direct")
              (Some "pass:openclaw/token") None)
    as (r & Hr & _ & _ & _ & _ & Hwins & _).
  destruct (Hwins eq_refl) as (res & Hres & Hvalue & _).
  rewrite Hr. f_equal.
  vm_compute in Hres. injection Hres as <-.
  exact (proj1 (Hvalue "s3cr3t" eq_refl eq_refl eq_refl)).
Defined.

(** X28. [hasSecretRef] tells whether the resolver will be asked. For a
    credential on which it is false, [resolveApiKey] and [resolveToken]
    return the key or token itself, or [null] when that is empty or
    blank, and make no backend call, print nothing and leave the
    resolver's variables alone. For a credential whose [keyRef] is not
    blank, [resolveApiKey] makes exactly the backend calls of
    [resolveSecret] on that reference. *)
Theorem credentials_without_refs_skip_resolver (st : State) (env : Env)
    (secret : string) (ref1 ref2 : option string)
    (config : option SecretsBackendConfig) :
  (hasSecretRef ref1 ref2 = false ->
   resolveApiKey st env {| key := secret; keyRef := ref1 |} config
   = (Normal (if given (Some secret) then Some secret else None), st, [], [])
   /\ resolveToken st env {| token := secret; tokenRef := ref2 |} config
      = (Normal (if given (Some secret) then Some secret else None), st, [], []))
  /\ (trims_to_something ref1 = true ->
      hasSecretRef ref1 ref2 = true
      /\ (resolveApiKey st env {| key := secret; keyRef := ref1 |} config).1.2
         = (resolveSecret st env (default EmptyString ref1) config).2).
Proof.
  split.
  - unfold hasSecretRef. intros [Hk Ht]%orb_false_iff.
    unfold resolveApiKey, resolveToken, resolveCredentialValue.
    cbn [key keyRef token tokenRef]. rewrite !given_trims in *. rewrite Hk, Ht.
    rewrite <- given_trims. destruct (given (Some secret)); split; reflexivity.
  - intros Hk. unfold hasSecretRef. rewrite Hk. split; [reflexivity|].
    unfold resolveApiKey, resolveCredentialValue. cbn [key keyRef].
    rewrite given_trims, Hk.
    destruct (resolveSecret_settles st env (default EmptyString ref1) config)
      as [res Hres].
    destruct (resolveSecret st env (default EmptyString ref1) config)
      as [[o st1] calls]. simpl in Hres. subst o. cbn [snd].
    destruct (ok res && _); [reflexivity|].
    destruct (given (Some secret)); reflexivity.
Qed.

Lemma credentials_without_refs_skip_resolver_witness :
  resolveApiKey initial Scenario.first_call
    {| key := "sk-live-123"; keyRef := Some "   " |} None
  = (Normal (Some "sk-live-123"), initial, [], []).
Proof.
  exact (proj1 (proj1 (credentials_without_refs_skip_resolver initial Scenario.first_call
                         "sk-live-123" (Some "   ") None None) eq_refl)).
Defined.

End AuthIntegrationSpec.

(* ====================================================================== *)
(** * Properties of [resolveSecretRefs]                                    *)
(* ====================================================================== *)

Module SecretRefsSpec.
Import Resolver SecretRefs.

Lemma ends_with_split (suffix s : string) :
  ends_with suffix s = true -> exists pre, s = pre +:+ suffix.
Proof.
  induction s as [|c s IH]; simpl.
  - rewrite orb_false_r. intros H%String.eqb_eq. exists EmptyString. now subst.
  - intros [H%String.eqb_eq|H]%orb_true_iff.
    + exists EmptyString. now subst.
    + destruct (IH H) as [pre ->]. exists (String c pre). now rewrite append_cons.
Qed.

Lemma ends_with_app (pre suffix : string) : ends_with suffix (pre +:+ suffix) = true.
Proof.
  induction pre as [|c pre IH].
  - rewrite append_nil. destruct suffix; simpl; [reflexivity|].
    now rewrite Ascii.eqb_refl, String.eqb_refl.
  - rewrite append_cons. simpl. now rewrite IH, orb_true_r.
Qed.

Lemma take_app (pre suffix : string) : take (String.length pre) (pre +:+ suffix) = pre.
Proof.
  induction pre as [|c pre IH]; [now destruct suffix|].
  rewrite append_cons. simpl. now rewrite IH.
Qed.

Lemma targetKey_of_ref (k : string) : targetKey_of (k +:+ "Ref") = k.
Proof.
  unfold targetKey_of. rewrite BaseCommandFacts.length_append. simpl.
  replace (String.length k + 3 - 3)%nat with (String.length k) by lia.
  apply take_app.
Qed.

Lemma ref_key_inj (a b : string) : a +:+ "Ref" = b +:+ "Ref" -> a = b.
Proof.
  intros H. rewrite <- (targetKey_of_ref a), <- (targetKey_of_ref b). now rewrite H.
Qed.

Lemma fallback_not_empty (e : option string) :
  is_empty (opt_or_else e "Unknown error") = false.
Proof. destruct e as [[|c s]|]; reflexivity. Qed.

(** What the loop has done when it ends, told from the variables it
    started with. *)
Lemma refs_loop_spec (env_of : string -> Env) (config : option SecretsBackendConfig)
    (entries : list (string * PropertyValue)) :
  forall acc,
    NoDup entries.*1 ->
    exists acc',
      refs_loop env_of config entries acc = Normal acc'
      /\ (forall k, (forall r, ~ In (k +:+ "Ref", VString r) entries) ->
                    result acc' !! k = result acc !! k)
      /\ (forall e m, errors acc !! e = Some m -> e ∉ entries.*1 ->
                      errors acc' !! e = Some m)
      /\ (forall k r, In (k +:+ "Ref", VString r) entries -> k <> "__proto__" ->
            (exists v, is_empty v = false /\ result acc' !! k = Some (VString v))
            \/ ((exists m, is_empty m = false /\ errors acc' !! (k +:+ "Ref") = Some m)
                /\ result acc' !! k = result acc !! k))
      /\ (forallb (fun e => negb (is_ref_entry e)) entries = true -> acc' = acc).
Proof.
  induction entries as [|[key value] rest IH]; intros acc Hnd.
  - exists acc. simpl. split; [reflexivity|]. split; [auto|]. split; [auto|].
    split; [intros k r []|auto].
  - apply NoDup_cons in Hnd as [Hkey Hnd].
    assert (Hskip : is_ref_entry (key, value) = false ->
              refs_loop env_of config ((key, value) :: rest) acc
              = refs_loop env_of config rest acc).
    { destruct value as [ref| |]; simpl; try reflexivity. now intros ->. }
    destruct (is_ref_entry (key, value)) eqn:Href.
    + destruct value as [ref| |]; simpl in Href; try discriminate.
      destruct (ends_with_split _ _ Href) as [pre ->].
      cbn [refs_loop]. rewrite Href, targetKey_of_ref.
      destruct (AuthIntegrationSpec.resolveSecret_settles (resolver acc)
                  (env_of (pre +:+ "Ref")) ref config) as [res Hres].
      destruct (resolveSecret (resolver acc) (env_of (pre +:+ "Ref")) ref config)
        as [[o st1] cs]. simpl in Hres. subst o.
      cbn [mbind completion_bind bind].
      match goal with |- context [refs_loop env_of config rest ?a] => set (acc1 := a) end.
      destruct (IH acc1 Hnd) as (acc' & Hrun & H1 & H2 & H3 & H4).
      exists acc'. split; [exact Hrun|].
      assert (Hres1 : forall k, k <> pre -> result acc1 !! k = result acc !! k).
      { intros k Hk. unfold acc1. destruct (ok res && _); cbn [result]; [|reflexivity].
        unfold assign. destruct (String.eqb pre "__proto__");
          [destruct (result acc !! pre); [|reflexivity]|];
          now rewrite lookup_insert_ne by congruence. }
      assert (Herr1 : forall e, e <> pre +:+ "Ref" -> errors acc1 !! e = errors acc !! e).
      { intros e He. unfold acc1. destruct (ok res && _); cbn [errors]; [reflexivity|].
        now rewrite lookup_insert_ne by congruence. }
      assert (Hrest : forall r, ~ In (pre +:+ "Ref", VString r) rest).
      { intros r Hin. apply Hkey.
        apply (list_elem_of_fmap_2' fst rest (pre +:+ "Ref", VString r));
          [apply list_elem_of_In; exact Hin | reflexivity]. }
      split; [|split; [|split]].
      * intros k Hk. rewrite H1.
        -- apply Hres1. intros ->. apply (Hk ref). now left.
        -- intros r Hin. apply (Hk r). now right.
      * intros e m He Hnot. apply H2.
        -- rewrite Herr1; [exact He|]. intros ->. apply Hnot. simpl. left.
        -- intros Hin. apply Hnot. simpl. right. exact Hin.
      * intros k r [Hhead|Hin] Hproto.
        -- injection Hhead as Hk _. apply ref_key_inj in Hk. subst k.
           rewrite (H1 pre Hrest). unfold acc1.
           destruct (ok res && _) eqn:Hgood; cbn [result errors].
           ++ left. apply andb_true_iff in Hgood as [_ Hv%negb_true_iff].
              eexists. split; [exact Hv|]. unfold assign.
              destruct (String.eqb_spec pre "__proto__"); [contradiction|].
              apply lookup_insert_eq.
           ++ right. split; [|reflexivity].
              eexists. split; [apply fallback_not_empty|].
              apply H2; [apply lookup_insert_eq|exact Hkey].
        -- destruct (H3 k r Hin Hproto) as [Hl|[He Hr]]; [now left|].
           right. split; [exact He|]. rewrite Hr. apply Hres1.
           intros ->. exact (Hrest r Hin).
      * simpl. rewrite Href. discriminate.
    + rewrite (Hskip eq_refl).
      destruct (IH acc Hnd) as (acc' & Hrun & H1 & H2 & H3 & H4).
      exists acc'. split; [exact Hrun|]. split; [|split; [|split]].
      * intros k Hk. apply H1. intros r Hin. apply (Hk r). now right.
      * intros e m He Hnot. apply (H2 e m He). intros Hin. apply Hnot.
        simpl. right. exact Hin.
      * intros k r [Hhead|Hin]; [|exact (H3 k r Hin)].
        injection Hhead as -> ->. simpl in Href. now rewrite ends_with_app in Href.
      * cbn [forallb]. rewrite Href. exact H4.
Qed.



(** The account object of the scenario: the token is resolved into
    [token], the API key reference is reported. *)
Example account_resolved :
  exists res st' made,
    resolveSecretRefs initial (fun _ => Scenario.first_call) account None
    = Normal (res, st', made)
    /\ res !! "token" = Some (VString "s3cr3t")
    /\ res !! "apiKey" = None
    /\ res !! "_secretErrors"
       = Some (VErrors {[ "apiKeyRef" := "Vault backend not yet implemented" ]}).
Proof. do 3 eexists. split; [reflexivity|]. vm_compute. auto. Qed.

End SecretRefsSpec.
